(** * Multi_Agent_ETL: schema mapping and schema diffing

    A shallow embedding of the matching / confidence engine of
    [etl_platform/agents/schema_mapping_agent.py] and of the schema differ
    of [etl_platform/agents/data_discovery_agent.py], with the properties
    of the written specification stated over it.

    Conventions of the embedding.
    - Python [str] is [string]; names and type names are taken to be ASCII,
      for which [str.lower], [str.upper] and [str.strip] are the functions
      below.
    - Python [float] is embedded twice.  Where a property does not depend
      on rounding it is an exact rational [Q]: the literals 0.3, 0.5, 0.8,
      0.85, 0.9, 0.95, 1.05 and 1.2 are the rationals they denote.  Where
      rounding is observable (the order of the boosts of the confidence,
      the comparison of two confidences by the generation loop) it is an
      IEEE binary64 value, the primitive [float], in [Module Binary64]:
      the literals are the nearest binary64 values, the products and the
      quotient are correctly rounded, and the comparisons are those of
      IEEE 754.
    - Python [int] is [Z].
    - A [dict] whose iteration order is observable is an insertion-ordered
      association list ([pydict]); the two caches, which are only looked up
      and stored into, are [gmap]s keyed by strings; the [set] of claimed
      source names is a [gset].
    - [datetime.now()] stamps ([SchemaChange.detected_at],
      [Message.timestamp]) are left out of the records. *)

From Stdlib Require Import QArith Lqa Ascii String.
From Stdlib Require Floats.
From stdpp Require Import gmap strings list fin_maps.

Local Open Scope string_scope.
Local Open Scope Z_scope.
Local Open Scope list_scope.

(** ** Python string primitives on ASCII *)

Module PyStr.

Definition is_upper (c : ascii) : bool :=
  let n := nat_of_ascii c in (65 <=? n)%nat && (n <=? 90)%nat.

Definition is_lower (c : ascii) : bool :=
  let n := nat_of_ascii c in (97 <=? n)%nat && (n <=? 122)%nat.

Definition lower_char (c : ascii) : ascii :=
  if is_upper c then ascii_of_nat (nat_of_ascii c + 32) else c.

Definition upper_char (c : ascii) : ascii :=
  if is_lower c then ascii_of_nat (nat_of_ascii c - 32) else c.

Fixpoint map_chars (f : ascii -> ascii) (s : string) : string :=
  match s with
  | EmptyString => EmptyString
  | String c r => String (f c) (map_chars f r)
  end.

(** [s.lower()] and [s.upper()] *)
Definition lower (s : string) : string := map_chars lower_char s.
Definition upper (s : string) : string := map_chars upper_char s.

(** [s.replace(c, '')] for a one-character [c] *)
Fixpoint remove_char (c : ascii) (s : string) : string :=
  match s with
  | EmptyString => EmptyString
  | String x r =>
      if Ascii.eqb x c then remove_char c r else String x (remove_char c r)
  end.

(** [needle in hay] *)
Fixpoint contains (needle hay : string) : bool :=
  String.prefix needle hay
  || match hay with
     | EmptyString => false
     | String _ r => contains needle r
     end.

(** the ASCII characters for which [str.isspace] holds *)
Definition is_space (c : ascii) : bool :=
  let n := nat_of_ascii c in
  ((9 <=? n)%nat && (n <=? 13)%nat)
  || ((28 <=? n)%nat && (n <=? 32)%nat).

Fixpoint lstrip (s : string) : string :=
  match s with
  | EmptyString => EmptyString
  | String c r => if is_space c then lstrip r else s
  end.

(** [rstrip]: a character is dropped when it is a space and everything
    after it has been dropped too. *)
Fixpoint rstrip (s : string) : string :=
  match s with
  | EmptyString => EmptyString
  | String c r =>
      match rstrip r with
      | EmptyString => if is_space c then EmptyString else String c EmptyString
      | r' => String c r'
      end
  end.

(** [s.strip()] *)
Definition strip (s : string) : string := rstrip (lstrip s).

Fixpoint has_char (c : ascii) (s : string) : bool :=
  match s with
  | EmptyString => false
  | String x r => Ascii.eqb x c || has_char c r
  end.

(** [re.sub(r'\([^)]*\)', '', s)]: scanning from the left, an opening
    parenthesis that is followed somewhere by a closing one is removed
    together with everything up to the first closing parenthesis; an
    opening parenthesis with no closing one after it stays, and then no
    later position can match either.  [inside] is true while the scan is
    within a match. *)
Fixpoint sub_parens (inside : bool) (s : string) : string :=
  match s with
  | EmptyString => EmptyString
  | String c r =>
      if inside then
        if Ascii.eqb c ")" then sub_parens false r else sub_parens true r
      else if Ascii.eqb c "(" then
        if has_char ")" r then sub_parens true r else s
      else String c (sub_parens false r)
  end.

Definition list_of (s : string) : list ascii := list_ascii_of_string s.

End PyStr.

(** ** Exact rationals standing for Python floats *)

Module PyNum.

(** [x < y] as a boolean *)
Definition Qltb (x y : Q) : bool :=
  (Qnum x * Zpos (Qden y) <? Qnum y * Zpos (Qden x))%Z.

(** the builtin [min(a, b)]: [b] when [b < a], else [a] *)
Definition py_min (a b : Q) : Q := if Qltb b a then b else a.

(** the builtin [max(a, b)]: [b] when [b > a], else [a] *)
Definition py_max (a b : Q) : Q := if Qltb a b then b else a.

End PyNum.

(** ** shared/models.py *)

Record Field := mkField {
  name : string;
  data_type : string;
  nullable : bool;
  description : option string
}.

(** [Schema.id] is [schema_id] here. *)
Record Schema := mkSchema {
  schema_id : string;
  source_id : string;
  version : Z;
  fields : list Field;
  timestamp : Z;
  table_name : option string
}.

(** [SchemaChange.source_id] is [change_source_id] here. *)
Record SchemaChange := mkSchemaChange {
  change_source_id : string;
  change_type : string;
  field_name : string;
  old_value : option string;
  new_value : option string
}.

Inductive MappingType := DIRECT | TRANSFORMED | DERIVED.

Record FieldMapping := mkFieldMapping {
  source_field : string;
  target_field : string;
  transformation : option string;
  confidence : Q;
  mapping_type : MappingType
}.

(** ** Insertion-ordered dictionaries *)

Module PyDict.

Definition pydict (V : Type) : Type := list (string * V).

Section Ops.
Context {V : Type}.

(** [d.get(k)] *)
Fixpoint get (k : string) (d : pydict V) : option V :=
  match d with
  | [] => None
  | (k', v) :: r => if String.eqb k' k then Some v else get k r
  end.

(** [d[k] = v]: an existing key keeps its position *)
Fixpoint set (k : string) (v : V) (d : pydict V) : pydict V :=
  match d with
  | [] => [(k, v)]
  | (k', v') :: r =>
      if String.eqb k' k then (k', v) :: r else (k', v') :: set k v r
  end.

(** [del d[k]] for a key that may be absent *)
Fixpoint del (k : string) (d : pydict V) : pydict V :=
  match d with
  | [] => []
  | (k', v') :: r =>
      if String.eqb k' k then r else (k', v') :: del k r
  end.

Definition keys (d : pydict V) : list string := fst <$> d.
Definition values (d : pydict V) : list V := snd <$> d.

(** [{key(x): x for x in l}] *)
Definition of_list (key : V -> string) (l : list V) : pydict V :=
  foldl (fun d x => set (key x) x d) [] l.
End Ops.

End PyDict.

(** ** SchemaMappingAgent: type compatibility *)

Definition TYPE_COMPATIBILITY : list (string * list string) :=
  [ ("VARCHAR", ["TEXT"; "CHAR"; "STRING"; "VARCHAR"]);
    ("TEXT", ["VARCHAR"; "CHAR"; "STRING"; "TEXT"]);
    ("CHAR", ["VARCHAR"; "TEXT"; "STRING"; "CHAR"]);
    ("STRING", ["VARCHAR"; "TEXT"; "CHAR"; "STRING"]);
    ("INTEGER", ["BIGINT"; "SMALLINT"; "INT"; "INTEGER"; "NUMERIC"; "DECIMAL"]);
    ("BIGINT", ["INTEGER"; "SMALLINT"; "INT"; "BIGINT"; "NUMERIC"; "DECIMAL"]);
    ("SMALLINT", ["INTEGER"; "BIGINT"; "INT"; "SMALLINT"; "NUMERIC"; "DECIMAL"]);
    ("INT", ["INTEGER"; "BIGINT"; "SMALLINT"; "INT"; "NUMERIC"; "DECIMAL"]);
    ("NUMERIC", ["INTEGER"; "BIGINT"; "DECIMAL"; "FLOAT"; "DOUBLE"; "NUMERIC"]);
    ("DECIMAL", ["INTEGER"; "BIGINT"; "NUMERIC"; "FLOAT"; "DOUBLE"; "DECIMAL"]);
    ("FLOAT", ["DOUBLE"; "NUMERIC"; "DECIMAL"; "FLOAT"]);
    ("DOUBLE", ["FLOAT"; "NUMERIC"; "DECIMAL"; "DOUBLE"]);
    ("DATE", ["TIMESTAMP"; "DATETIME"; "DATE"]);
    ("TIMESTAMP", ["DATETIME"; "DATE"; "TIMESTAMP"]);
    ("DATETIME", ["TIMESTAMP"; "DATE"; "DATETIME"]);
    ("TIME", ["TIME"]);
    ("BOOLEAN", ["BOOL"; "BIT"; "BOOLEAN"]);
    ("BOOL", ["BOOLEAN"; "BIT"; "BOOL"]);
    ("BLOB", ["BINARY"; "VARBINARY"; "BLOB"]);
    ("BINARY", ["BLOB"; "VARBINARY"; "BINARY"]) ].

(** [x in l] for a list of strings *)
Definition str_in (x : string) (l : list string) : bool :=
  existsb (String.eqb x) l.

Definition _normalize_type (data_type : string) : string :=
  let normalized := PyStr.upper data_type in
  let normalized := PyStr.sub_parens false normalized in
  PyStr.strip normalized.

Definition _check_type_compatibility (source_type target_type : string) : bool :=
  let source_normalized := _normalize_type source_type in
  let target_normalized := _normalize_type target_type in
  if String.eqb source_normalized target_normalized then true
  else
    match PyDict.get source_normalized TYPE_COMPATIBILITY with
    | Some row => str_in target_normalized row
    | None => false
    end.

Definition _are_types_identical (source_type target_type : string) : bool :=
  String.eqb (_normalize_type source_type) (_normalize_type target_type).

Definition _generate_type_conversion (source_type target_type : string) : string :=
  let target_norm := _normalize_type target_type in
  if str_in target_norm ["VARCHAR"; "TEXT"; "CHAR"; "STRING"] then
    "CAST({field} AS VARCHAR)"
  else if str_in target_norm ["INTEGER"; "INT"; "BIGINT"; "SMALLINT"] then
    "CAST({field} AS INTEGER)"
  else if str_in target_norm ["NUMERIC"; "DECIMAL"] then
    "CAST({field} AS NUMERIC)"
  else if str_in target_norm ["FLOAT"; "DOUBLE"] then
    "CAST({field} AS FLOAT)"
  else if str_in target_norm ["DATE"; "TIMESTAMP"; "DATETIME"] then
    "CAST({field} AS TIMESTAMP)"
  else if str_in target_norm ["BOOLEAN"; "BOOL"] then
    "CAST({field} AS BOOLEAN)"
  else ("CAST({field} AS " ++ target_norm ++ ")")%string.

(** ** The standard library's difflib.SequenceMatcher

    [SequenceMatcher(None, a, b).ratio()] as CPython implements it, for
    sequences of characters and with the default arguments the agent uses:
    [isjunk] is [None], so the junk set is empty and the two loops of
    [find_longest_match] that absorb junk never run; [autojunk] is [True]. *)

Module Difflib.

(** [Match = namedtuple('Match', 'a b size')] *)
Record Match := mkMatch { m_a : Z; m_b : Z; m_size : Z }.

(** a pending region [(alo, ahi, blo, bhi)] *)
Definition region : Type := Z * Z * Z * Z.

(** [enumerate(b)] *)
Definition enumerate (b : list ascii) : list (Z * ascii) :=
  zip (seqZ 0 (Z.of_nat (length b))) b.

(** [__chain_b]: the positions of every element of [b], in increasing
    order; for [len(b) >= 200] the elements occurring more than
    [len(b) // 100 + 1] times are popular and are purged. *)
Definition chain_b (b : list ascii) : gmap ascii (list Z) :=
  let b2j :=
    foldl (fun (m : gmap ascii (list Z)) '(i, elt) =>
             <[elt := default [] (m !! elt) ++ [i]]> m) ∅ (enumerate b) in
  let n := Z.of_nat (length b) in
  if 200 <=? n then
    let ntest := n / 100 + 1 in
    filter (fun kv => Z.of_nat (length (snd kv)) <= ntest) b2j
  else b2j.

Section Matcher.
Variables a b : list ascii.

Definition b2j : gmap ascii (list Z) := chain_b b.

(** [a[i] == b[j]] for indices in range *)
Definition elt_eqb (i j : Z) : bool :=
  match a !! Z.to_nat i, b !! Z.to_nat j with
  | Some x, Some y => Ascii.eqb x y
  | _, _ => false
  end.

(** the loop [for j in b2j.get(a[i], nothing)], with its [continue]
    and [break] *)
Fixpoint scan_j (js : list Z) (i blo bhi : Z) (j2len newj2len : gmap Z Z)
    (best : Match) : gmap Z Z * Match :=
  match js with
  | [] => (newj2len, best)
  | j :: js' =>
      if j <? blo then scan_j js' i blo bhi j2len newj2len best
      else if bhi <=? j then (newj2len, best)
      else
        let k := default 0 (j2len !! (j - 1)) + 1 in
        let newj2len := <[j := k]> newj2len in
        let best :=
          if m_size best <? k then mkMatch (i - k + 1) (j - k + 1) k
          else best in
        scan_j js' i blo bhi j2len newj2len best
  end.

(** the loop [for i in range(alo, ahi)] *)
Fixpoint scan_i (rng : list Z) (blo bhi : Z) (j2len : gmap Z Z)
    (best : Match) : Match :=
  match rng with
  | [] => best
  | i :: rng' =>
      let js :=
        match a !! Z.to_nat i with
        | Some x => default [] (b2j !! x)
        | None => []
        end in
      let '(newj2len, best') := scan_j js i blo bhi j2len ∅ best in
      scan_i rng' blo bhi newj2len best'
  end.

(** [while besti > alo and bestj > blo and a[besti-1] == b[bestj-1]];
    the counter is an upper bound of the number of iterations *)
Fixpoint extend_left (n : nat) (alo blo : Z) (best : Match) : Match :=
  match n with
  | O => best
  | S n' =>
      let '(mkMatch besti bestj bestsize) := best in
      if (alo <? besti) && (blo <? bestj)
         && elt_eqb (besti - 1) (bestj - 1)
      then extend_left n' alo blo
             (mkMatch (besti - 1) (bestj - 1) (bestsize + 1))
      else best
  end.

(** [while besti+bestsize < ahi and bestj+bestsize < bhi and
    a[besti+bestsize] == b[bestj+bestsize]] *)
Fixpoint extend_right (n : nat) (ahi bhi : Z) (best : Match) : Match :=
  match n with
  | O => best
  | S n' =>
      let '(mkMatch besti bestj bestsize) := best in
      if (besti + bestsize <? ahi) && (bestj + bestsize <? bhi)
         && elt_eqb (besti + bestsize) (bestj + bestsize)
      then extend_right n' ahi bhi (mkMatch besti bestj (bestsize + 1))
      else best
  end.

Definition find_longest_match (alo ahi blo bhi : Z) : Match :=
  let best := scan_i (seqZ alo (ahi - alo)) blo bhi ∅ (mkMatch alo blo 0) in
  let best := extend_left (Z.to_nat (m_a best - alo)) alo blo best in
  extend_right (Z.to_nat (ahi - (m_a best + m_size best))) ahi bhi best.

(** the loop [while queue] of [get_matching_blocks]; the head of the
    list is the end of the Python list, where [pop] and [append] work.
    The first component of the result is the queue at exit. *)
Fixpoint gmb_loop (fuel : nat) (queue : list region)
    (matching_blocks : list Match) : list region * list Match :=
  match fuel, queue with
  | S fuel', (alo, ahi, blo, bhi) :: queue' =>
      let x := find_longest_match alo ahi blo bhi in
      let '(mkMatch i j k) := x in
      if k =? 0 then gmb_loop fuel' queue' matching_blocks
      else
        let queue1 :=
          if (alo <? i) && (blo <? j)
          then (alo, i, blo, j) :: queue' else queue' in
        let queue2 :=
          if (i + k <? ahi) && (j + k <? bhi)
          then (i + k, ahi, j + k, bhi) :: queue1 else queue1 in
        gmb_loop fuel' queue2 (matching_blocks ++ [x])
  | _, _ => (queue, matching_blocks)
  end.

Definition la : Z := Z.of_nat (length a).
Definition lb : Z := Z.of_nat (length b).

(** iterations granted to the queue loop *)
Definition gmb_fuel : nat := (2 * length a + 2)%nat.

(** tuple comparison, for [matching_blocks.sort()] *)
Definition match_leb (x y : Match) : bool :=
  (m_a x <? m_a y)
  || ((m_a x =? m_a y)
      && ((m_b x <? m_b y)
          || ((m_b x =? m_b y) && (m_size x <=? m_size y)))).

Fixpoint sort_insert (x : Match) (l : list Match) : list Match :=
  match l with
  | [] => [x]
  | y :: r => if match_leb x y then x :: l else y :: sort_insert x r
  end.

Definition sort_blocks (l : list Match) : list Match :=
  foldr sort_insert [] l.

(** the pass collapsing adjacent blocks *)
Fixpoint collapse (blocks : list Match) (i1 j1 k1 : Z)
    (non_adjacent : list Match) : list Match :=
  match blocks with
  | [] =>
      if k1 =? 0 then non_adjacent
      else non_adjacent ++ [mkMatch i1 j1 k1]
  | mkMatch i2 j2 k2 :: r =>
      if (i1 + k1 =? i2) && (j1 + k1 =? j2)
      then collapse r i1 j1 (k1 + k2) non_adjacent
      else collapse r i2 j2 k2
             (if k1 =? 0 then non_adjacent
              else non_adjacent ++ [mkMatch i1 j1 k1])
  end.

Definition get_matching_blocks : list Match :=
  let matching_blocks := snd (gmb_loop gmb_fuel [(0, la, 0, lb)] []) in
  let matching_blocks := sort_blocks matching_blocks in
  collapse matching_blocks 0 0 0 [] ++ [mkMatch la lb 0].

(** [sum(triple[-1] for triple in blocks)] *)
Definition sum_sizes (blocks : list Match) : Z :=
  foldl (fun acc m => acc + m_size m) 0 blocks.

Definition _calculate_ratio (matches length : Z) : Q :=
  if length =? 0 then 1%Q
  else ((2 * inject_Z matches) / inject_Z length)%Q.

Definition ratio : Q :=
  _calculate_ratio (sum_sizes get_matching_blocks) (la + lb).

End Matcher.

End Difflib.

(** ** SchemaMappingAgent: name similarity and confidence *)

Definition common_abbreviations : list (string * string) :=
  [ ("id", "identifier"); ("num", "number"); ("qty", "quantity");
    ("amt", "amount"); ("desc", "description"); ("addr", "address");
    ("tel", "telephone"); ("email", "emailaddress") ].

(** [name.lower().replace('_', '').replace('-', '')] *)
Definition normalize_name (name : string) : string :=
  PyStr.remove_char "-" (PyStr.remove_char "_" (PyStr.lower name)).

Definition _calculate_name_similarity (name1 name2 : string) : Q :=
  let norm1 := normalize_name name1 in
  let norm2 := normalize_name name2 in
  if String.eqb norm1 norm2 then 1%Q
  else
    let similarity := Difflib.ratio (PyStr.list_of norm1) (PyStr.list_of norm2) in
    let similarity :=
      if PyStr.contains norm1 norm2 || PyStr.contains norm2 norm1
      then PyNum.py_max similarity (8 # 10) else similarity in
    foldl (fun similarity '(abbr, full) =>
             if (String.eqb norm1 abbr && String.eqb norm2 full)
                || (String.eqb norm1 full && String.eqb norm2 abbr)
             then PyNum.py_max similarity (9 # 10) else similarity)
          similarity common_abbreviations.

Definition _calculate_confidence (name_similarity : Q) (type_compatible : bool)
    (source_field target_field : Field) : Q :=
  let confidence := name_similarity in
  let confidence :=
    if negb type_compatible then (confidence * (3 # 10))%Q else confidence in
  let confidence :=
    if _are_types_identical (data_type source_field) (data_type target_field)
    then PyNum.py_min 1 (confidence * (12 # 10))%Q else confidence in
  let confidence :=
    if Bool.eqb (nullable source_field) (nullable target_field)
    then PyNum.py_min 1 (confidence * (105 # 100))%Q else confidence in
  let confidence :=
    if negb (nullable source_field) && nullable target_field
    then (confidence * (95 # 100))%Q else confidence in
  let confidence :=
    if nullable source_field && negb (nullable target_field)
    then (confidence * (85 # 100))%Q else confidence in
  PyNum.py_min 1 (PyNum.py_max 0 confidence).

(** ** SchemaMappingAgent: state and events *)

(** the [payload] dictionaries of the two events; the entries of
    [mappings] are (source_field, target_field, confidence, mapping_type,
    has_transformation), those of [changes] are (change_type, field_name) *)
Inductive Payload :=
  | MappingGenerated (source_id target_id : string) (mapping_count : Z)
      (mappings : list (string * string * Q * string * bool))
  | MappingUpdated (source_id target_id : string)
      (change_count mapping_count : Z) (changes : list (string * string)).

Record Message := mkMessage {
  event_type : string;
  payload : Payload;
  source : string
}.

(** The message bus is the log of the (topic, message) pairs published. *)
Record SchemaMappingAgent := mkSchemaMappingAgent {
  agent_id : string;
  _mapping_cache : gmap string (list FieldMapping);
  message_bus : list (string * Message)
}.

Definition mapping_type_value (t : MappingType) : string :=
  match t with
  | DIRECT => "direct"
  | TRANSFORMED => "transformed"
  | DERIVED => "derived"
  end.

(** [f"{source.id}_{target.id}"] *)
Definition cache_key (source target : Schema) : string :=
  (schema_id source ++ "_" ++ schema_id target)%string.

Definition publish (topic : string) (m : Message) (self : SchemaMappingAgent)
    : SchemaMappingAgent :=
  mkSchemaMappingAgent (agent_id self) (_mapping_cache self)
    (message_bus self ++ [(topic, m)]).

Definition store_mappings (key : string) (mappings : list FieldMapping)
    (self : SchemaMappingAgent) : SchemaMappingAgent :=
  mkSchemaMappingAgent (agent_id self) (<[key := mappings]> (_mapping_cache self))
    (message_bus self).

Definition _publish_mapping_event (source_id target_id : string)
    (mappings : list FieldMapping) (self : SchemaMappingAgent)
    : SchemaMappingAgent :=
  let event_payload :=
    MappingGenerated source_id target_id (Z.of_nat (length mappings))
      ((fun m => (source_field m, target_field m, confidence m,
                  mapping_type_value (mapping_type m),
                  bool_decide (transformation m <> None))) <$> mappings) in
  publish "mapping.events"
    (mkMessage "schema.mapping.generated" event_payload (agent_id self)) self.

Definition _publish_mapping_update_event (source_id target_id : string)
    (schema_changes : list SchemaChange) (updated_mappings : list FieldMapping)
    (self : SchemaMappingAgent) : SchemaMappingAgent :=
  let event_payload :=
    MappingUpdated source_id target_id (Z.of_nat (length schema_changes))
      (Z.of_nat (length updated_mappings))
      ((fun c => (change_type c, field_name c)) <$> schema_changes) in
  publish "mapping.events"
    (mkMessage "schema.mapping.updated" event_payload (agent_id self)) self.

(** ** SchemaMappingAgent.generate_mappings *)

(** the confidence the agent computes for a candidate pair *)
Definition pair_confidence (source_field target_field : Field) : Q :=
  let name_similarity :=
    _calculate_name_similarity (name source_field) (name target_field) in
  let type_compatible :=
    _check_type_compatibility (data_type source_field) (data_type target_field) in
  _calculate_confidence name_similarity type_compatible source_field target_field.

(** the [FieldMapping] the agent builds for a pair, in all three places
    where it builds one *)
Definition build_mapping (source_field target_field : Field) (confidence : Q)
    : FieldMapping :=
  if negb (_are_types_identical (data_type source_field) (data_type target_field))
  then mkFieldMapping (name source_field) (name target_field)
         (Some (_generate_type_conversion (data_type source_field)
                  (data_type target_field)))
         confidence TRANSFORMED
  else mkFieldMapping (name source_field) (name target_field) None
         confidence DIRECT.

(** one iteration of [for source_field in source.fields]; the state is
    [(best_mapping, best_confidence)] *)
Definition scan_source (target_field : Field) (mapped_source_fields : gset string)
    (best : option FieldMapping * Q) (source_field : Field)
    : option FieldMapping * Q :=
  if bool_decide (name source_field ∈ mapped_source_fields) then best
  else
    let confidence := pair_confidence source_field target_field in
    if PyNum.Qltb (snd best) confidence
    then (Some (build_mapping source_field target_field confidence), confidence)
    else best.

(** one iteration of [for target_field in target.fields]; the state is
    [(mappings, mapped_source_fields)] *)
Definition scan_target (source : Schema)
    (st : list FieldMapping * gset string) (target_field : Field)
    : list FieldMapping * gset string :=
  let '(mappings, mapped_source_fields) := st in
  let '(best_mapping, best_confidence) :=
    foldl (scan_source target_field mapped_source_fields) (None, 0%Q)
      (fields source) in
  match best_mapping with
  | Some m =>
      if PyNum.Qltb (3 # 10) best_confidence
      then (mappings ++ [m], mapped_source_fields ∪ {[source_field m]})
      else st
  | None => st
  end.

(** the state after the loop has run over the target fields [ts] *)
Definition generate_loop (source : Schema) (ts : list Field)
    : list FieldMapping * gset string :=
  foldl (scan_target source) ([], ∅) ts.

Definition generate_mappings (source target : Schema) (self : SchemaMappingAgent)
    : list FieldMapping * SchemaMappingAgent :=
  let mappings := fst (generate_loop source (fields target)) in
  let self := store_mappings (cache_key source target) mappings self in
  let self :=
    _publish_mapping_event (schema_id source) (schema_id target) mappings self in
  (mappings, self).

(** ** SchemaMappingAgent.update_mappings *)

(** [next((f for f in fields if f.name == n), None)] *)
Definition find_field (n : string) (fs : list Field) : option Field :=
  List.find (fun f => String.eqb (name f) n) fs.

(** [[m.target_field for m in existing_mappings]] *)
Definition mapped_targets (existing_mappings : list FieldMapping) : list string :=
  target_field <$> existing_mappings.

(** the loop [for target_field in target.fields] of the "added" branch,
    with its [break]; [existing_mappings] is the list read from the cache
    at the start of the call *)
Fixpoint scan_added (new_field : Field) (existing_mappings : list FieldMapping)
    (ts : list Field) (mapping_dict : PyDict.pydict FieldMapping)
    : PyDict.pydict FieldMapping :=
  match ts with
  | [] => mapping_dict
  | target_field :: ts' =>
      if negb (str_in (name target_field) (mapped_targets existing_mappings))
      then
        let confidence := pair_confidence new_field target_field in
        if PyNum.Qltb (5 # 10) confidence
        then PyDict.set (name new_field)
               (build_mapping new_field target_field confidence) mapping_dict
        else scan_added new_field existing_mappings ts' mapping_dict
      else scan_added new_field existing_mappings ts' mapping_dict
  end.

(** the body of [for change in schema_changes] *)
Definition apply_change (source target : Schema)
    (existing_mappings : list FieldMapping)
    (mapping_dict : PyDict.pydict FieldMapping) (change : SchemaChange)
    : PyDict.pydict FieldMapping :=
  if String.eqb (change_type change) "added" then
    match find_field (field_name change) (fields source) with
    | Some new_field =>
        scan_added new_field existing_mappings (fields target) mapping_dict
    | None => mapping_dict
    end
  else if String.eqb (change_type change) "removed" then
    match PyDict.get (field_name change) mapping_dict with
    | Some _ => PyDict.del (field_name change) mapping_dict
    | None => mapping_dict
    end
  else if String.eqb (change_type change) "type_changed" then
    match PyDict.get (field_name change) mapping_dict with
    | Some old_mapping =>
        match find_field (field_name change) (fields source),
              find_field (target_field old_mapping) (fields target) with
        | Some updated_field, Some target_field =>
            let confidence := pair_confidence updated_field target_field in
            PyDict.set (field_name change)
              (build_mapping updated_field target_field confidence) mapping_dict
        | _, _ => mapping_dict
        end
    | None => mapping_dict
    end
  else mapping_dict.

(** the mapping dictionary after the changes have been processed *)
Definition update_loop (source target : Schema)
    (existing_mappings : list FieldMapping) (schema_changes : list SchemaChange)
    : PyDict.pydict FieldMapping :=
  foldl (apply_change source target existing_mappings)
    (PyDict.of_list source_field existing_mappings) schema_changes.

Definition update_mappings (schema_changes : list SchemaChange)
    (source target : Schema) (self : SchemaMappingAgent)
    : list FieldMapping * SchemaMappingAgent :=
  let key := cache_key source target in
  let existing_mappings := default [] (_mapping_cache self !! key) in
  let updated_mappings :=
    PyDict.values (update_loop source target existing_mappings schema_changes) in
  let self := store_mappings key updated_mappings self in
  let self :=
    _publish_mapping_update_event (schema_id source) (schema_id target)
      schema_changes updated_mappings self in
  (updated_mappings, self).

(** ** DataDiscoveryAgent.detect_schema_changes *)

Record DataDiscoveryAgent := mkDataDiscoveryAgent {
  discovery_agent_id : string;
  _schema_cache : gmap string Schema
}.

(** [f"nullable={b}"] *)
Definition nullable_repr (b : bool) : string :=
  if b then "nullable=True" else "nullable=False".

Definition added_changes (source_id : string)
    (old_fields new_fields : PyDict.pydict Field) : list SchemaChange :=
  omap (fun '(field_name, f) =>
          match PyDict.get field_name old_fields with
          | None => Some (mkSchemaChange source_id "added" field_name None
                            (Some (data_type f)))
          | Some _ => None
          end) new_fields.

Definition removed_changes (source_id : string)
    (old_fields new_fields : PyDict.pydict Field) : list SchemaChange :=
  omap (fun '(field_name, f) =>
          match PyDict.get field_name new_fields with
          | None => Some (mkSchemaChange source_id "removed" field_name
                            (Some (data_type f)) None)
          | Some _ => None
          end) old_fields.

(** the changes the third loop appends for one entry of [old_fields] *)
Definition field_changes (source_id : string) (new_fields : PyDict.pydict Field)
    (entry : string * Field) : list SchemaChange :=
  let '(field_name, old_field) := entry in
  match PyDict.get field_name new_fields with
  | Some new_field =>
      (if negb (String.eqb (data_type old_field) (data_type new_field))
       then [mkSchemaChange source_id "type_changed" field_name
               (Some (data_type old_field)) (Some (data_type new_field))]
       else [])
      ++ (if negb (Bool.eqb (nullable old_field) (nullable new_field))
          then [mkSchemaChange source_id "modified" field_name
                  (Some (nullable_repr (nullable old_field)))
                  (Some (nullable_repr (nullable new_field)))]
          else [])
  | None => []
  end.

Definition modified_changes (source_id : string)
    (old_fields new_fields : PyDict.pydict Field) : list SchemaChange :=
  concat (field_changes source_id new_fields <$> old_fields).

(** the change list computed against a cached snapshot *)
Definition diff_schemas (source_id : string) (old_schema new_schema : Schema)
    : list SchemaChange :=
  let old_fields := PyDict.of_list name (fields old_schema) in
  let new_fields := PyDict.of_list name (fields new_schema) in
  added_changes source_id old_fields new_fields
  ++ removed_changes source_id old_fields new_fields
  ++ modified_changes source_id old_fields new_fields.

Definition detect_schema_changes (source_id : string) (new_schema : Schema)
    (self : DataDiscoveryAgent) : list SchemaChange * DataDiscoveryAgent :=
  match _schema_cache self !! source_id with
  | None =>
      ([], mkDataDiscoveryAgent (discovery_agent_id self)
             (<[source_id := new_schema]> (_schema_cache self)))
  | Some old_schema =>
      let changes := diff_schemas source_id old_schema new_schema in
      match changes with
      | [] => (changes, self)
      | _ :: _ =>
          (changes, mkDataDiscoveryAgent (discovery_agent_id self)
                      (<[source_id := new_schema]> (_schema_cache self)))
      end
  end.

(** ** More Python text primitives *)

Module PyText.

(** [s.replace(old, new)] for a non-empty [old]: occurrences are replaced
    from the left and do not overlap; [skip] counts the characters of an
    occurrence still to be passed over. *)
Fixpoint replace_from (skip : nat) (old new s : string) : string :=
  match s with
  | EmptyString => EmptyString
  | String c r =>
      match skip with
      | S k => replace_from k old new r
      | O =>
          if String.prefix old s
          then (new ++ replace_from (String.length old - 1) old new r)%string
          else String c (replace_from 0 old new r)
      end
  end.

Definition replace (old new s : string) : string := replace_from 0 old new s.

(** the ASCII characters matched by [\w] *)
Definition is_word (c : ascii) : bool :=
  let n := nat_of_ascii c in
  ((48 <=? n)%nat && (n <=? 57)%nat)
  || PyStr.is_upper c || PyStr.is_lower c || Ascii.eqb c "_".

Fixpoint take_word (s : string) : string :=
  match s with
  | EmptyString => EmptyString
  | String c r => if is_word c then String c (take_word r) else EmptyString
  end.

(** [AS\s+(\w+)] with [re.IGNORECASE], anchored at the start of [s]: the
    first group when it matches *)
Definition match_as (s : string) : option string :=
  match s with
  | String a (String s' (String w r)) =>
      if (Ascii.eqb a "A" || Ascii.eqb a "a")
         && (Ascii.eqb s' "S" || Ascii.eqb s' "s")
         && PyStr.is_space w
      then match take_word (PyStr.lstrip r) with
           | EmptyString => None
           | g => Some g
           end
      else None
  | _ => None
  end.

(** [re.search(r'AS\s+(\w+)', s, re.IGNORECASE)]: [group(1)] of the
    leftmost match *)
Fixpoint search_as (s : string) : option string :=
  match match_as s with
  | Some g => Some g
  | None =>
      match s with
      | EmptyString => None
      | String _ r => search_as r
      end
  end.

End PyText.

(** ** SchemaMappingAgent: the public confidence and the transformations *)

Definition calculate_confidence (mapping : FieldMapping) : Q :=
  let name_similarity :=
    _calculate_name_similarity (source_field mapping) (target_field mapping) in
  match mapping_type mapping with
  | DIRECT => name_similarity
  | TRANSFORMED => (name_similarity * (9 # 10))%Q
  | DERIVED => (name_similarity * (7 # 10))%Q
  end.

(** [f"row['{field_name}']"] *)
Definition row_read (field_name : string) : string :=
  ("row['" ++ field_name ++ "']")%string.

(** [f"{fn}(row['{field_name}'])"] *)
Definition row_call (fn field_name : string) : string :=
  (fn ++ "(" ++ row_read field_name ++ ")")%string.

Definition _generate_python_conversion (field_name target_type : string) : string :=
  let conversions :=
    [ ("INTEGER", row_call "int" field_name);
      ("INT", row_call "int" field_name);
      ("BIGINT", row_call "int" field_name);
      ("SMALLINT", row_call "int" field_name);
      ("FLOAT", row_call "float" field_name);
      ("DOUBLE", row_call "float" field_name);
      ("VARCHAR", row_call "str" field_name);
      ("TEXT", row_call "str" field_name);
      ("STRING", row_call "str" field_name);
      ("BOOLEAN", row_call "bool" field_name);
      ("BOOL", row_call "bool" field_name) ] in
  default (row_read field_name) (PyDict.get target_type conversions).

(** [TransformationLogic.description] is [logic_description] here. *)
Record TransformationLogic := mkTransformationLogic {
  logic_mapping : FieldMapping;
  sql_logic : option string;
  python_logic : option string;
  logic_description : string
}.

Definition generate_transformation (mapping : FieldMapping) : TransformationLogic :=
  match mapping_type mapping with
  | DIRECT =>
      mkTransformationLogic mapping
        (Some (source_field mapping))
        (Some (row_read (source_field mapping)))
        ("Direct mapping from " ++ source_field mapping ++ " to "
         ++ target_field mapping)%string
  | TRANSFORMED =>
      match transformation mapping with
      | Some (String c r as template) =>
          let sql_logic :=
            PyText.replace "{field}" (source_field mapping) template in
          let python_logic :=
            if PyStr.contains "CAST" (PyStr.upper template) then
              match PyText.search_as template with
              | Some target_type =>
                  Some (_generate_python_conversion (source_field mapping)
                          (PyStr.upper target_type))
              | None => None
              end
            else None in
          mkTransformationLogic mapping (Some sql_logic) python_logic
            ("Type conversion from " ++ source_field mapping ++ " to "
             ++ target_field mapping)%string
      | _ => mkTransformationLogic mapping None None ""
      end
  | DERIVED =>
      mkTransformationLogic mapping
        (Some ("-- Custom logic needed for " ++ target_field mapping)%string)
        (Some ("# Custom logic needed for " ++ target_field mapping)%string)
        ("Derived field " ++ target_field mapping ++ " requires custom logic")%string
  end.

(** ** DataDiscoveryAgent.update_catalog *)

(** [SourceMetadata.source_id] is [metadata_source_id] here; the
    [statistics] dictionary, which [update_catalog] does not read, is left
    out. *)
Record SourceMetadata := mkSourceMetadata {
  metadata_source_id : string;
  schema : Schema;
  row_count : option Z;
  size_bytes : option Z;
  last_modified : option Z
}.

(** an entry of the [schema_changes] list of the payload:
    (change_type, field_name, old_value, new_value) *)
Definition change_entry : Type := string * string * option string * option string.

Inductive DiscoveryPayload :=
  | DiscoveryCompleted (source_id : string) (schema_version : Z)
      (row_count size_bytes : option Z) (field_count : Z)
      (schema_changes : list change_entry)
  | SchemaChanged (source_id : string) (changes : list change_entry).

Record DiscoveryMessage := mkDiscoveryMessage {
  discovery_event_type : string;
  discovery_payload : DiscoveryPayload;
  discovery_source : string
}.

(** The agent together with the log of what it has published on its bus. *)
Definition update_catalog (metadata : SourceMetadata)
    (self : DataDiscoveryAgent) (bus : list (string * DiscoveryMessage))
    : DataDiscoveryAgent * list (string * DiscoveryMessage) :=
  let '(changes, self') :=
    detect_schema_changes (metadata_source_id metadata) (schema metadata) self in
  let schema_changes :=
    (fun change => (change_type change, field_name change, old_value change,
                    new_value change)) <$> changes in
  let event_payload :=
    DiscoveryCompleted (metadata_source_id metadata) (version (schema metadata))
      (row_count metadata) (size_bytes metadata)
      (Z.of_nat (length (fields (schema metadata)))) schema_changes in
  let message :=
    mkDiscoveryMessage "data.discovery.completed" event_payload
      (discovery_agent_id self) in
  let bus := bus ++ [("discovery.events", message)] in
  match changes with
  | [] => (self', bus)
  | _ :: _ =>
      let schema_change_message :=
        mkDiscoveryMessage "schema.changed"
          (SchemaChanged (metadata_source_id metadata) schema_changes)
          (discovery_agent_id self) in
      (self', bus ++ [("schema.events", message)])
  end.

(** ** shared/message_bus.py: InMemoryMessageBus

    A handler is a value of a type [Hdl]; calling it is recorded: [publish]
    returns the calls it makes, in order. *)

Module InMemoryMessageBus.

Section Bus.
Context {Hdl Msg : Type}.

(** [self._subscribers] *)
Definition subscribers : Type := gmap string (list Hdl).

Definition init : subscribers := ∅.

Definition publish (topic : string) (message : Msg) (self : subscribers)
    : list (Hdl * Msg) :=
  match self !! topic with
  | Some handlers => (fun handler => (handler, message)) <$> handlers
  | None => []
  end.

Definition subscribe (topic : string) (handler : Hdl) (self : subscribers)
    : subscribers :=
  let self :=
    match self !! topic with
    | None => <[topic := []]> self
    | Some _ => self
    end in
  <[topic := default [] (self !! topic) ++ [handler]]> self.

Definition unsubscribe (topic : string) (self : subscribers) : subscribers :=
  match self !! topic with
  | Some _ => delete topic self
  | None => self
  end.

Definition close (self : subscribers) : subscribers := ∅.

(** an operation on the bus that changes its subscriptions *)
Inductive op :=
  | Subscribe (topic : string) (handler : Hdl)
  | Unsubscribe (topic : string)
  | Close.

Definition run_op (self : subscribers) (o : op) : subscribers :=
  match o with
  | Subscribe topic handler => subscribe topic handler self
  | Unsubscribe topic => unsubscribe topic self
  | Close => close self
  end.

(** the handlers listening on [topic] after the operations [ops], read
    off the operations alone: those subscribed to [topic] since the last
    time the topic was unsubscribed or the bus closed, in the order of
    their subscription *)
Fixpoint listening (topic : string) (acc : list Hdl) (ops : list op) : list Hdl :=
  match ops with
  | [] => acc
  | Subscribe t handler :: ops' =>
      listening topic (if String.eqb t topic then acc ++ [handler] else acc) ops'
  | Unsubscribe t :: ops' =>
      listening topic (if String.eqb t topic then [] else acc) ops'
  | Close :: ops' => listening topic [] ops'
  end.

End Bus.

End InMemoryMessageBus.

(** ** The scoring pipeline over IEEE binary64

    The functions of the agent that compute or compare confidences, a
    second time, with Python's [float] as the primitive binary64 [float].
    A decimal literal denotes the nearest binary64 value, as in Python. *)

Set Warnings "-inexact-float".

Module Binary64.
Import PrimFloat.

(** [float(n)] for a Python [int]: the nearest binary64 value *)
Definition of_int (n : Z) : float :=
  FloatOps.SF2Prim (SpecFloat.binary_normalize FloatOps.prec FloatOps.emax n 0 false).

(** the builtin [min(a, b)]: [b] when [b < a], else [a] *)
Definition py_min (a b : float) : float := if ltb b a then b else a.

(** the builtin [max(a, b)]: [b] when [b > a], else [a] *)
Definition py_max (a b : float) : float := if ltb a b then b else a.

(** difflib's [_calculate_ratio]: [2.0 * matches / length] *)
Definition _calculate_ratio (matches length : Z) : float :=
  if length =? 0 then 1%float
  else (2 * of_int matches / of_int length)%float.

(** [SequenceMatcher(None, a, b).ratio()] *)
Definition ratio (a b : list ascii) : float :=
  _calculate_ratio (Difflib.sum_sizes (Difflib.get_matching_blocks a b))
    (Difflib.la a + Difflib.lb b).

Definition _calculate_name_similarity (name1 name2 : string) : float :=
  let norm1 := normalize_name name1 in
  let norm2 := normalize_name name2 in
  if String.eqb norm1 norm2 then 1%float
  else
    let similarity := ratio (PyStr.list_of norm1) (PyStr.list_of norm2) in
    let similarity :=
      if PyStr.contains norm1 norm2 || PyStr.contains norm2 norm1
      then py_max similarity 0.8 else similarity in
    foldl (fun similarity '(abbr, full) =>
             if (String.eqb norm1 abbr && String.eqb norm2 full)
                || (String.eqb norm1 full && String.eqb norm2 abbr)
             then py_max similarity 0.9 else similarity)
          similarity common_abbreviations.

Definition _calculate_confidence (name_similarity : float) (type_compatible : bool)
    (source_field target_field : Field) : float :=
  let confidence := name_similarity in
  let confidence :=
    if negb type_compatible then (confidence * 0.3)%float else confidence in
  let confidence :=
    if _are_types_identical (data_type source_field) (data_type target_field)
    then py_min 1 (confidence * 1.2) else confidence in
  let confidence :=
    if Bool.eqb (nullable source_field) (nullable target_field)
    then py_min 1 (confidence * 1.05) else confidence in
  let confidence :=
    if negb (nullable source_field) && nullable target_field
    then (confidence * 0.95)%float else confidence in
  let confidence :=
    if nullable source_field && negb (nullable target_field)
    then (confidence * 0.85)%float else confidence in
  py_min 1 (py_max 0 confidence).

(** ** Binary64: mappings, agent state and events *)

(** [FieldMapping] with its [confidence: float] *)
Record FieldMapping := mkFieldMapping {
  source_field : string;
  target_field : string;
  transformation : option string;
  confidence : float;
  mapping_type : MappingType
}.

(** the public [calculate_confidence] *)
Definition calculate_confidence (mapping : FieldMapping) : float :=
  let name_similarity :=
    _calculate_name_similarity (source_field mapping) (target_field mapping) in
  match mapping_type mapping with
  | DIRECT => name_similarity
  | TRANSFORMED => (name_similarity * 0.9)%float
  | DERIVED => (name_similarity * 0.7)%float
  end.

(** the [payload] of the schema.mapping.generated event; the entries of
    [mappings] are (source_field, target_field, confidence, mapping_type,
    has_transformation) *)
Inductive Payload :=
  | MappingGenerated (source_id target_id : string) (mapping_count : Z)
      (mappings : list (string * string * float * string * bool)).

Record Message := mkMessage {
  event_type : string;
  payload : Payload;
  source : string
}.

(** The message bus is the log of the (topic, message) pairs published. *)
Record SchemaMappingAgent := mkSchemaMappingAgent {
  agent_id : string;
  _mapping_cache : gmap string (list FieldMapping);
  message_bus : list (string * Message)
}.

Definition publish (topic : string) (m : Message) (self : SchemaMappingAgent)
    : SchemaMappingAgent :=
  mkSchemaMappingAgent (agent_id self) (_mapping_cache self)
    (message_bus self ++ [(topic, m)]).

Definition store_mappings (key : string) (mappings : list FieldMapping)
    (self : SchemaMappingAgent) : SchemaMappingAgent :=
  mkSchemaMappingAgent (agent_id self) (<[key := mappings]> (_mapping_cache self))
    (message_bus self).

Definition _publish_mapping_event (source_id target_id : string)
    (mappings : list FieldMapping) (self : SchemaMappingAgent)
    : SchemaMappingAgent :=
  let event_payload :=
    MappingGenerated source_id target_id (Z.of_nat (length mappings))
      ((fun m => (source_field m, target_field m, confidence m,
                  mapping_type_value (mapping_type m),
                  bool_decide (transformation m <> None))) <$> mappings) in
  publish "mapping.events"
    (mkMessage "schema.mapping.generated" event_payload (agent_id self)) self.

(** ** Binary64: generate_mappings *)

(** the confidence the agent computes for a candidate pair *)
Definition pair_confidence (source_field target_field : Field) : float :=
  let name_similarity :=
    _calculate_name_similarity (name source_field) (name target_field) in
  let type_compatible :=
    _check_type_compatibility (data_type source_field) (data_type target_field) in
  _calculate_confidence name_similarity type_compatible source_field target_field.

(** the [FieldMapping] built for the best candidate so far *)
Definition build_mapping (source_field target_field : Field) (confidence : float)
    : FieldMapping :=
  if negb (_are_types_identical (data_type source_field) (data_type target_field))
  then mkFieldMapping (name source_field) (name target_field)
         (Some (_generate_type_conversion (data_type source_field)
                  (data_type target_field)))
         confidence TRANSFORMED
  else mkFieldMapping (name source_field) (name target_field) None
         confidence DIRECT.

(** one iteration of [for source_field in source.fields]; the state is
    [(best_mapping, best_confidence)] and the test is
    [confidence > best_confidence] on binary64 values *)
Definition scan_source (target_field : Field) (mapped_source_fields : gset string)
    (best : option FieldMapping * float) (source_field : Field)
    : option FieldMapping * float :=
  if bool_decide (name source_field ∈ mapped_source_fields) then best
  else
    let confidence := pair_confidence source_field target_field in
    if ltb (snd best) confidence
    then (Some (build_mapping source_field target_field confidence), confidence)
    else best.

(** one iteration of [for target_field in target.fields]; the state is
    [(mappings, mapped_source_fields)] *)
Definition scan_target (source : Schema)
    (st : list FieldMapping * gset string) (target_field : Field)
    : list FieldMapping * gset string :=
  let '(mappings, mapped_source_fields) := st in
  let '(best_mapping, best_confidence) :=
    foldl (scan_source target_field mapped_source_fields) (None, 0%float)
      (fields source) in
  match best_mapping with
  | Some m =>
      if ltb 0.3 best_confidence
      then (mappings ++ [m], mapped_source_fields ∪ {[source_field m]})
      else st
  | None => st
  end.

(** the state after the loop has run over the target fields [ts] *)
Definition generate_loop (source : Schema) (ts : list Field)
    : list FieldMapping * gset string :=
  foldl (scan_target source) ([], ∅) ts.

Definition generate_mappings (source target : Schema) (self : SchemaMappingAgent)
    : list FieldMapping * SchemaMappingAgent :=
  let mappings := fst (generate_loop source (fields target)) in
  let self := store_mappings (cache_key source target) mappings self in
  let self :=
    _publish_mapping_event (schema_id source) (schema_id target) mappings self in
  (mappings, self).

(** the confidence rule as the specification words it, in its order: the
    three nullability cases form one if / else-if / else chain *)
Definition confidence_rule (similarity : float) (type_compatible : bool)
    (source_field target_field : Field) : float :=
  let confidence := similarity in
  let confidence :=
    if type_compatible then confidence else (confidence * 0.3)%float in
  let confidence :=
    if _are_types_identical (data_type source_field) (data_type target_field)
    then py_min 1 (confidence * 1.2) else confidence in
  let confidence :=
    if Bool.eqb (nullable source_field) (nullable target_field)
    then py_min 1 (confidence * 1.05)
    else if negb (nullable source_field) && nullable target_field
    then (confidence * 0.95)%float
    else (confidence * 0.85)%float in
  py_min 1 (py_max 0 confidence).

End Binary64.

(** ** Notions used to state the properties *)

Module Binary64Order.
Import SpecFloat.

(** the place of a binary64 value that is not a NaN in the order of the
    comparisons: sign class, then exponent, then mantissa *)
Definition rank (x : spec_float) : Z * Z * Z :=
  match x with
  | S754_zero _ => (0, 0, 0)
  | S754_infinity s => (if s then -2 else 2, 0, 0)
  | S754_nan => (0, 0, 0)
  | S754_finite s m e => if s then (-1, - e, Z.neg m) else (1, e, Z.pos m)
  end.

Definition is_nan (x : spec_float) : bool :=
  match x with S754_nan => true | _ => false end.

(** the lexicographic comparison of ranks *)
Definition cmp3 (p q : Z * Z * Z) : comparison :=
  match (p.1.1 ?= q.1.1) with
  | Eq => match (p.1.2 ?= q.1.2) with
          | Eq => (p.2 ?= q.2)
          | c => c
          end
  | c => c
  end.

Definition lt3 (p q : Z * Z * Z) : Prop :=
  p.1.1 < q.1.1
  \/ (p.1.1 = q.1.1
      /\ (p.1.2 < q.1.2 \/ (p.1.2 = q.1.2 /\ p.2 < q.2))).

End Binary64Order.


Module DifflibInv.
Import Difflib.

(** what the three variables [besti, bestj, bestsize] satisfy
    throughout [find_longest_match] on the region
    [(alo, ahi, blo, bhi)] *)
Definition best_ok (alo ahi blo bhi : Z) (best : Match) : Prop :=
  0 <= m_size best
  /\ alo <= m_a best /\ m_a best + m_size best <= ahi
  /\ blo <= m_b best /\ m_b best + m_size best <= bhi.

(** the entries of [j2len] once row [i] has been scanned: lengths of
    runs ending at [a[i]], [b[j]] that fit in the region *)
Definition row_ok (alo blo bhi i : Z) (j2len : gmap Z Z) : Prop :=
  forall j v, j2len !! j = Some v ->
    1 <= v /\ v <= i - alo + 1 /\ v <= j - blo + 1 /\ j < bhi.

Definition region_ok (r : region) : Prop :=
  let '(alo, ahi, blo, bhi) := r in alo <= ahi /\ blo <= bhi.

(** characters of [a], resp. [b], still to be examined *)
Fixpoint span_a (queue : list region) : Z :=
  match queue with
  | [] => 0
  | (alo, ahi, _, _) :: q => (ahi - alo) + span_a q
  end.

Fixpoint span_b (queue : list region) : Z :=
  match queue with
  | [] => 0
  | (_, _, blo, bhi) :: q => (bhi - blo) + span_b q
  end.

(** a bound on the iterations the queue still needs *)
Fixpoint weight (queue : list region) : Z :=
  match queue with
  | [] => 0
  | (alo, ahi, _, _) :: q => (2 * (ahi - alo) + 1) + weight q
  end.

End DifflibInv.

Module SimilarityInv.
Import PyNum.

(** the boost of the abbreviation table, as one step of its loop *)
Definition abbreviation_step (norm1 norm2 : string) (similarity : Q)
    (entry : string * string) : Q :=
  let '(abbr, full) := entry in
  if (String.eqb norm1 abbr && String.eqb norm2 full)
     || (String.eqb norm1 full && String.eqb norm2 abbr)
  then py_max similarity (9 # 10) else similarity.

(** the value computed when the normalized names differ *)
Definition boosted (norm1 norm2 : string) (r : Q) : Q :=
  foldl (abbreviation_step norm1 norm2)
    (if PyStr.contains norm1 norm2 || PyStr.contains norm2 norm1
     then py_max r (8 # 10) else r)
    common_abbreviations.

End SimilarityInv.

(** the source fields offered to a target field: those whose name has not
    been claimed, in declared order *)
Definition candidates (source : Schema) (claimed : gset string) : list Field :=
  filter (fun f => name f ∉ claimed) (fields source).

(** a change the incremental updater passes over: an added or type_changed
    change whose field the supplied schema lacks, or a modified change *)
Definition passed_over (source : Schema) (change : SchemaChange) : Prop :=
  ((change_type change = "added" \/ change_type change = "type_changed")
   /\ find_field (field_name change) (fields source) = None)
  \/ change_type change = "modified".


(** every entry of the mapping dictionary is keyed by the source field of
    its mapping *)
Definition keyed (d : PyDict.pydict FieldMapping) : Prop :=
  forall k m, (k, m) ∈ d -> source_field m = k.

(** no parenthesized group is left: an opening parenthesis is never
    followed, however far, by a closing one *)
Fixpoint no_group (s : string) : bool :=
  match s with
  | EmptyString => true
  | String c r =>
      (if Ascii.eqb c "(" then negb (PyStr.has_char ")" r) else true)
      && no_group r
  end.

(** * Properties *)

(** ** Comparisons and the builtins [min] and [max] *)

Module PyNumFacts.
Import PyNum.

Lemma Qltb_lt x y : Qltb x y = true <-> (x < y)%Q.
Proof. unfold Qltb, Qlt. apply Z.ltb_lt. Qed.

Lemma Qltb_ge x y : Qltb x y = false <-> (y <= x)%Q.
Proof. unfold Qltb, Qle. rewrite Z.ltb_ge. reflexivity. Qed.

Lemma py_min_le_l a b : (py_min a b <= a)%Q.
Proof.
  unfold py_min. destruct (Qltb b a) eqn:E.
  - apply Qlt_le_weak, Qltb_lt, E.
  - apply Qle_refl.
Qed.

Lemma py_min_glb a b c : (c <= a)%Q -> (c <= b)%Q -> (c <= py_min a b)%Q.
Proof. unfold py_min. destruct (Qltb b a); auto. Qed.

Lemma py_max_ge_l a b : (a <= py_max a b)%Q.
Proof.
  unfold py_max. destruct (Qltb a b) eqn:E.
  - apply Qlt_le_weak, Qltb_lt, E.
  - apply Qle_refl.
Qed.

Lemma py_max_ge_r a b : (b <= py_max a b)%Q.
Proof.
  unfold py_max. destruct (Qltb a b) eqn:E.
  - apply Qle_refl.
  - apply Qltb_ge, E.
Qed.

Lemma py_max_lub a b c : (a <= c)%Q -> (b <= c)%Q -> (py_max a b <= c)%Q.
Proof. unfold py_max. destruct (Qltb a b); auto. Qed.

(** the final clamp [min(1.0, max(0.0, c))] lands in the unit interval *)
Lemma clamp_unit c : (0 <= py_min 1 (py_max 0 c) <= 1)%Q.
Proof.
  split.
  - apply py_min_glb; [discriminate | apply py_max_ge_l].
  - apply py_min_le_l.
Qed.

End PyNumFacts.

(** ** The comparisons of binary64 values *)

Module Binary64OrderFacts.
Import SpecFloat Binary64Order.

Lemma SFcompare_rank x y :
  SFcompare x y
  = if is_nan x || is_nan y then None else Some (cmp3 (rank x) (rank y)).
Proof.
  destruct x as [sx|sx| |sx mx ex], y as [sy|sy| |sy my ey];
    try reflexivity;
    try (destruct sx; reflexivity);
    try (destruct sy; reflexivity);
    try (destruct sx, sy; reflexivity).
  destruct sx, sy; try reflexivity; unfold cmp3; simpl.
  rewrite Z.compare_opp. rewrite (Z.compare_antisym ex ey).
  destruct (ex ?= ey); reflexivity.
Qed.

Lemma cmp3_Lt p q : cmp3 p q = Lt <-> lt3 p q.
Proof.
  destruct p as [[p1 p2] p3], q as [[q1 q2] q3]. unfold cmp3, lt3. simpl.
  destruct (Z.compare_spec p1 q1), (Z.compare_spec p2 q2),
    (Z.compare_spec p3 q3); split; intros Hx; try discriminate;
    try reflexivity; lia.
Qed.

Lemma cmp3_Eq p q : cmp3 p q = Eq <-> p = q.
Proof.
  destruct p as [[p1 p2] p3], q as [[q1 q2] q3]. unfold cmp3. simpl.
  destruct (Z.compare_spec p1 q1), (Z.compare_spec p2 q2),
    (Z.compare_spec p3 q3); split; intros Hx; try discriminate;
    try reflexivity; try (f_equal; [f_equal|]; lia); inversion Hx; lia.
Qed.

Lemma cmp3_Gt p q : cmp3 p q = Gt <-> lt3 q p.
Proof.
  destruct p as [[p1 p2] p3], q as [[q1 q2] q3]. unfold cmp3, lt3. simpl.
  destruct (Z.compare_spec p1 q1), (Z.compare_spec p2 q2),
    (Z.compare_spec p3 q3); split; intros Hx; try discriminate;
    try reflexivity; lia.
Qed.

End Binary64OrderFacts.

Module Binary64Facts.
Import PrimFloat Binary64Order Binary64OrderFacts.

Lemma ltb_iff x y :
  ltb x y = true
  <-> is_nan (FloatOps.Prim2SF x) = false /\ is_nan (FloatOps.Prim2SF y) = false
      /\ lt3 (rank (FloatOps.Prim2SF x)) (rank (FloatOps.Prim2SF y)).
Proof.
  rewrite FloatAxioms.ltb_spec. unfold SpecFloat.SFltb.
  rewrite SFcompare_rank, <- cmp3_Lt.
  destruct (is_nan (FloatOps.Prim2SF x)), (is_nan (FloatOps.Prim2SF y)); simpl;
    try (split; [discriminate | intros (? & ? & ?); discriminate]).
  destruct (cmp3 _ _); split; try discriminate; auto.
  - intros (_ & _ & ?). discriminate.
  - intros (_ & _ & ?). discriminate.
Qed.

Lemma leb_iff x y :
  leb x y = true
  <-> is_nan (FloatOps.Prim2SF x) = false /\ is_nan (FloatOps.Prim2SF y) = false
      /\ (lt3 (rank (FloatOps.Prim2SF x)) (rank (FloatOps.Prim2SF y))
          \/ rank (FloatOps.Prim2SF x) = rank (FloatOps.Prim2SF y)).
Proof.
  rewrite FloatAxioms.leb_spec. unfold SpecFloat.SFleb.
  rewrite SFcompare_rank, <- cmp3_Lt, <- cmp3_Eq.
  destruct (is_nan (FloatOps.Prim2SF x)), (is_nan (FloatOps.Prim2SF y)); simpl;
    try (split; [discriminate | intros (? & ? & ?); discriminate]).
  destruct (cmp3 _ _); split; try discriminate; auto.
  intros (_ & _ & [?|?]); discriminate.
Qed.

Lemma ltb_false_iff x y :
  ltb x y = false
  <-> is_nan (FloatOps.Prim2SF x) = true \/ is_nan (FloatOps.Prim2SF y) = true
      \/ lt3 (rank (FloatOps.Prim2SF y)) (rank (FloatOps.Prim2SF x))
      \/ rank (FloatOps.Prim2SF x) = rank (FloatOps.Prim2SF y).
Proof.
  rewrite FloatAxioms.ltb_spec. unfold SpecFloat.SFltb.
  rewrite SFcompare_rank, <- cmp3_Gt, <- cmp3_Eq.
  destruct (is_nan (FloatOps.Prim2SF x)), (is_nan (FloatOps.Prim2SF y)); simpl;
    try (split; auto; fail).
  destruct (cmp3 _ _); split; auto; try discriminate.
  intros [?|[?|[?|?]]]; discriminate.
Qed.

Ltac float_order :=
  repeat match goal with
  | H : ltb _ _ = true |- _ => apply ltb_iff in H; destruct H as (? & ? & ?)
  | H : leb _ _ = true |- _ => apply leb_iff in H; destruct H as (? & ? & ?)
  | H : ltb _ _ = false |- _ => apply ltb_false_iff in H
  end;
  try apply ltb_iff; try apply leb_iff;
  repeat match goal with
  | |- context [rank ?s] => generalize dependent (rank s); intros [[? ?] ?]
  | H : context [rank ?s] |- _ =>
      generalize dependent (rank s); intros [[? ?] ?]; intros
  end;
  intros; unfold lt3 in *; simpl in *; rewrite ?pair_equal_spec in *;
  repeat match goal with
  | H : is_nan ?s = true \/ _ |- _ =>
      destruct H as [H|H]; [congruence|]
  end;
  try congruence;
  repeat match goal with
  | |- is_nan _ = false /\ _ => split; [assumption|]
  end;
  try lia.

Lemma ltb_trans x y z : ltb x y = true -> ltb y z = true -> ltb x z = true.
Proof. intros H1 H2. float_order. Qed.

Lemma leb_trans x y z : leb x y = true -> leb y z = true -> leb x z = true.
Proof. intros H1 H2. float_order. Qed.

Lemma leb_ltb_trans x y z : leb x y = true -> ltb y z = true -> ltb x z = true.
Proof. intros H1 H2. float_order. Qed.

Lemma ltb_leb_trans x y z : ltb x y = true -> leb y z = true -> ltb x z = true.
Proof. intros H1 H2. float_order. Qed.

Lemma ltb_leb x y : ltb x y = true -> leb x y = true.
Proof. intros H1. float_order. Qed.

Lemma ltb_number x y : ltb x y = true -> leb x x = true /\ leb y y = true.
Proof. intros H1. split; float_order. Qed.

Lemma leb_number x y : leb x y = true -> leb x x = true /\ leb y y = true.
Proof. intros H1. split; float_order. Qed.

(** the comparison is total on numbers *)
Lemma ltb_false_leb x y :
  leb x x = true -> leb y y = true -> ltb x y = false -> leb y x = true.
Proof. intros H1 H2 H3. float_order. Qed.

Lemma ltb_irrefl x : ltb x x = false.
Proof.
  destruct (ltb x x) eqn:E; [|reflexivity]. exfalso. float_order.
Qed.

Lemma leb_ltb_false x y : leb x y = true -> ltb y x = false.
Proof.
  intros H. destruct (ltb y x) eqn:E; [|reflexivity]. exfalso. float_order.
Qed.

End Binary64Facts.

(** ** Binary64: the confidence is a number of the unit interval *)

Module Binary64ScoreFacts.
Import PrimFloat Binary64 Binary64Facts.

(** the final clamp [min(1.0, max(0.0, c))] lands in the unit interval,
    whatever [c] is, a NaN included *)
Lemma clamp_unit64 c :
  leb 0 (py_min 1 (py_max 0 c)) = true /\ leb (py_min 1 (py_max 0 c)) 1 = true.
Proof.
  unfold py_min, py_max.
  destruct (ltb 0 c) eqn:E0.
  - destruct (ltb c 1) eqn:E1.
    + split; apply ltb_leb; assumption.
    + split; reflexivity.
  - split; reflexivity.
Qed.

Lemma calculate_confidence_unit64 s tc f t :
  leb 0 (_calculate_confidence s tc f t) = true
  /\ leb (_calculate_confidence s tc f t) 1 = true.
Proof. unfold _calculate_confidence. apply clamp_unit64. Qed.

Lemma pair_confidence_unit64 f t :
  leb 0 (pair_confidence f t) = true /\ leb (pair_confidence f t) 1 = true.
Proof. unfold pair_confidence. apply calculate_confidence_unit64. Qed.

Lemma pair_confidence_number f t :
  leb (pair_confidence f t) (pair_confidence f t) = true.
Proof.
  destruct (pair_confidence_unit64 f t) as [H _].
  apply (leb_number _ _ H).
Qed.

End Binary64ScoreFacts.

(** ** Binary64: mapping generation *)

Module Binary64GenerateFacts.
Import PrimFloat Binary64 Binary64Facts Binary64ScoreFacts.

Lemma build_source64 f t c : source_field (build_mapping f t c) = name f.
Proof. unfold build_mapping. destruct (negb _); reflexivity. Qed.

Lemma build_target64 f t c : target_field (build_mapping f t c) = name t.
Proof. unfold build_mapping. destruct (negb _); reflexivity. Qed.

Lemma build_confidence64 f t c : confidence (build_mapping f t c) = c.
Proof. unfold build_mapping. destruct (negb _); reflexivity. Qed.

(** The inner loop, started from a state whose confidence is a number:
    either no candidate beats the starting confidence and the state is
    unchanged, or the state holds the first candidate of maximal
    confidence. *)
Lemma scan_source_best (t : Field) (claimed : gset string) (src : list Field) :
  forall b0 c0,
    leb c0 c0 = true ->
    let r := foldl (scan_source t claimed) (b0, c0) src in
    let cands := filter (fun f => name f ∉ claimed) src in
    (r = (b0, c0)
     /\ forall f, f ∈ cands -> leb (pair_confidence f t) c0 = true)
    \/ (exists l1 f l2,
          cands = l1 ++ f :: l2
          /\ r = (Some (build_mapping f t (pair_confidence f t)),
                  pair_confidence f t)
          /\ ltb c0 (pair_confidence f t) = true
          /\ (forall f', f' ∈ l1 ->
                ltb (pair_confidence f' t) (pair_confidence f t) = true)
          /\ (forall f', f' ∈ l2 ->
                leb (pair_confidence f' t) (pair_confidence f t) = true)).
Proof.
  induction src as [|s src IH]; intros b0 c0 Hc0; simpl.
  - left. split; [reflexivity|]. intros f Hf. apply elem_of_nil in Hf.
    contradiction.
  - assert (Hstep : scan_source t claimed (b0, c0) s
                    = if bool_decide (name s ∈ claimed) then (b0, c0)
                      else if ltb c0 (pair_confidence s t)
                           then (Some (build_mapping s t (pair_confidence s t)),
                                 pair_confidence s t)
                           else (b0, c0)) by reflexivity.
    rewrite Hstep. clear Hstep.
    destruct (bool_decide (name s ∈ claimed)) eqn:B.
    + apply bool_decide_eq_true in B.
      rewrite filter_cons_False by (intros H; apply H, B).
      apply IH, Hc0.
    + apply bool_decide_eq_false in B.
      rewrite filter_cons_True by exact B.
      pose proof (pair_confidence_number s t) as Hs.
      destruct (ltb c0 (pair_confidence s t)) eqn:L.
      * destruct (IH (Some (build_mapping s t (pair_confidence s t)))
                    (pair_confidence s t) Hs) as [[Hr Hall]|Hex].
        -- right. exists [], s, (filter (fun f => name f ∉ claimed) src).
           repeat split; auto.
           intros f' Hf'. apply elem_of_nil in Hf'. contradiction.
        -- right. destruct Hex as (l1 & f & l2 & Hc & Hr & Hlt & H1 & H2).
           exists (s :: l1), f, l2. repeat split; auto.
           ++ rewrite Hc. reflexivity.
           ++ eapply ltb_trans; eassumption.
           ++ intros f' Hf'. apply elem_of_cons in Hf' as [->|Hf']; auto.
      * apply (ltb_false_leb _ _ Hc0 Hs) in L.
        destruct (IH b0 c0 Hc0) as [[Hr Hall]|Hex].
        -- left. split; [exact Hr|].
           intros f Hf. apply elem_of_cons in Hf as [->|Hf]; auto.
        -- right. destruct Hex as (l1 & f & l2 & Hc & Hr & Hlt & H1 & H2).
           exists (s :: l1), f, l2. repeat split; auto.
           ++ rewrite Hc. reflexivity.
           ++ intros f' Hf'. apply elem_of_cons in Hf' as [->|Hf']; auto.
              eapply leb_ltb_trans; eassumption.
Qed.

(** the outer loop claims exactly the source names it has mapped *)
Lemma loop_claimed (source : Schema) (ts : list Field) :
  snd (generate_loop source ts)
  = list_to_set (source_field <$> fst (generate_loop source ts)).
Proof.
  unfold generate_loop. induction ts as [|t ts IH] using rev_ind.
  - reflexivity.
  - rewrite foldl_snoc.
    destruct (foldl (scan_target source) ([], ∅) ts) as [ms claimed].
    simpl in IH. unfold scan_target.
    destruct (foldl (scan_source t claimed) (None, 0%float) (fields source))
      as [[m|] c]; [|exact IH].
    destruct (ltb 0.3 c); [|exact IH].
    simpl. rewrite fmap_app, list_to_set_app_L. simpl.
    rewrite IH, (right_id_L ∅ (∪)). reflexivity.
Qed.

(** the mapping a step appends is one for its target field *)
Lemma scan_target_appends (source : Schema) (t : Field)
    (st : list FieldMapping * gset string) :
  exists rest,
    fst (scan_target source st t) = fst st ++ rest
    /\ sublist (target_field <$> rest) [name t].
Proof.
  destruct st as [ms claimed]. unfold scan_target.
  destruct (scan_source_best t claimed (fields source) None 0%float eq_refl)
    as [[Hr _]|(l1 & f & l2 & _ & Hr & _)]; rewrite Hr.
  - exists []. simpl. rewrite app_nil_r. split; [reflexivity|].
    apply sublist_nil_l.
  - destruct (ltb 0.3 (pair_confidence f t)).
    + eexists. split; [reflexivity|]. simpl.
      rewrite build_target64. reflexivity.
    + exists []. simpl. rewrite app_nil_r. split; [reflexivity|].
      apply sublist_nil_l.
Qed.

(** the remaining steps only append, one target field after the other *)
Lemma loop_appends (source : Schema) (ts : list Field) :
  forall st,
  exists rest,
    fst (foldl (scan_target source) st ts) = fst st ++ rest
    /\ sublist (target_field <$> rest) (name <$> ts).
Proof.
  induction ts as [|t ts IH]; intros st; simpl.
  - exists []. rewrite app_nil_r. split; [reflexivity | apply sublist_nil_l].
  - destruct (scan_target_appends source t st) as (r1 & E1 & S1).
    destruct (IH (scan_target source st t)) as (r2 & E2 & S2).
    exists (r1 ++ r2). split.
    + rewrite E2, E1, app_assoc. reflexivity.
    + rewrite fmap_app. apply (sublist_app _ [name t]); assumption.
Qed.

(** the targets of the mappings are target fields, in declared order *)
Lemma loop_targets (source : Schema) (ts : list Field) :
  sublist (target_field <$> fst (generate_loop source ts)) (name <$> ts).
Proof.
  unfold generate_loop.
  destruct (loop_appends source ts ([], ∅)) as (rest & E & S).
  rewrite E. exact S.
Qed.

End Binary64GenerateFacts.

(** ** The matching blocks stay inside their regions *)

Module DifflibFacts.
Import Difflib DifflibInv.

Section Bounds.
Variables a b : list ascii.

Lemma row_ok_empty alo blo bhi i : row_ok alo blo bhi i ∅.
Proof. intros j v H. rewrite lookup_empty in H. discriminate. Qed.

Lemma scan_j_ok alo ahi blo bhi i js :
  alo <= i < ahi ->
  forall j2len newj2len best,
    row_ok alo blo bhi (i - 1) j2len ->
    row_ok alo blo bhi i newj2len ->
    best_ok alo ahi blo bhi best ->
    row_ok alo blo bhi i (fst (scan_j js i blo bhi j2len newj2len best))
    /\ best_ok alo ahi blo bhi
         (snd (scan_j js i blo bhi j2len newj2len best)).
Proof.
  intros Hi. induction js as [|j js IH]; intros j2len newj2len best Hold Hnew Hbest;
    simpl; [auto|].
  destruct (j <? blo) eqn:Hlo; [apply IH; auto|].
  destruct (bhi <=? j) eqn:Hhi; [simpl; auto|].
  apply Z.ltb_ge in Hlo. apply Z.leb_gt in Hhi.
  assert (Hk : 1 <= default 0 (j2len !! (j - 1)) + 1
               /\ default 0 (j2len !! (j - 1)) + 1 <= i - alo + 1
               /\ default 0 (j2len !! (j - 1)) + 1 <= j - blo + 1).
  { destruct (j2len !! (j - 1)) as [v|] eqn:Hv; simpl.
    - destruct (Hold _ _ Hv) as (? & ? & ? & ?). lia.
    - lia. }
  set (k := default 0 (j2len !! (j - 1)) + 1) in *.
  apply IH; auto.
  - intros j' v Hv. destruct (decide (j = j')) as [->|Hne].
    + rewrite lookup_insert_eq in Hv. injection Hv as <-. lia.
    + rewrite lookup_insert_ne in Hv by done. eauto.
  - destruct (m_size best <? k); [|assumption].
    unfold best_ok; simpl. lia.
Qed.

Lemma scan_i_ok alo ahi blo bhi n :
  forall i j2len best,
    alo <= i -> i + Z.of_nat n <= ahi ->
    row_ok alo blo bhi (i - 1) j2len ->
    best_ok alo ahi blo bhi best ->
    best_ok alo ahi blo bhi
      (scan_i a b (seqZ i (Z.of_nat n)) blo bhi j2len best).
Proof.
  induction n as [|n IH]; intros i j2len best Hlo Hhi Hrow Hbest.
  - exact Hbest.
  - rewrite seqZ_cons by lia. simpl.
    destruct (scan_j _ i blo bhi j2len ∅ best) as [newj2len best'] eqn:E.
    destruct (scan_j_ok alo ahi blo bhi i
                (match a !! Z.to_nat i with
                 | Some x => default [] (b2j b !! x)
                 | None => []
                 end) ltac:(lia) j2len ∅ best Hrow
                (row_ok_empty _ _ _ _) Hbest) as [Hr Hb].
    rewrite E in Hr, Hb. simpl in Hr, Hb.
    replace (Z.pred (Z.of_nat (S n))) with (Z.of_nat n) by lia.
    apply IH; try lia; [|assumption].
    replace (Z.succ i - 1) with i by lia. exact Hr.
Qed.

Lemma extend_left_ok alo ahi blo bhi n :
  forall best, best_ok alo ahi blo bhi best ->
               best_ok alo ahi blo bhi (extend_left a b n alo blo best).
Proof.
  induction n as [|n IH]; intros [bi bj bs] H; simpl; [exact H|].
  destruct ((alo <? bi) && (blo <? bj) && elt_eqb a b (bi - 1) (bj - 1))
    eqn:E; [|exact H].
  apply andb_prop in E as [E _]. apply andb_prop in E as [E1 E2].
  apply Z.ltb_lt in E1, E2. apply IH.
  unfold best_ok in *; simpl in *. lia.
Qed.

Lemma extend_right_ok alo ahi blo bhi n :
  forall best, best_ok alo ahi blo bhi best ->
               best_ok alo ahi blo bhi (extend_right a b n ahi bhi best).
Proof.
  induction n as [|n IH]; intros [bi bj bs] H; simpl; [exact H|].
  destruct ((bi + bs <? ahi) && (bj + bs <? bhi)
            && elt_eqb a b (bi + bs) (bj + bs)) eqn:E; [|exact H].
  apply andb_prop in E as [E _]. apply andb_prop in E as [E1 E2].
  apply Z.ltb_lt in E1, E2. apply IH.
  unfold best_ok in *; simpl in *. lia.
Qed.

(** the block found lies inside the region searched *)
Lemma find_longest_match_ok alo ahi blo bhi :
  alo <= ahi -> blo <= bhi ->
  best_ok alo ahi blo bhi (find_longest_match a b alo ahi blo bhi).
Proof.
  intros Ha Hb. unfold find_longest_match.
  apply extend_right_ok, extend_left_ok.
  replace (ahi - alo) with (Z.of_nat (Z.to_nat (ahi - alo))) by lia.
  apply scan_i_ok; try lia.
  - apply row_ok_empty.
  - unfold best_ok; simpl. lia.
Qed.

(** the counters given to the two extension loops are enough: at exit
    the loop condition is false *)
Lemma extend_left_exit alo blo n :
  forall best, (Z.to_nat (m_a best - alo) <= n)%nat ->
    let r := extend_left a b n alo blo best in
    (alo <? m_a r) && (blo <? m_b r)
    && elt_eqb a b (m_a r - 1) (m_b r - 1) = false.
Proof.
  induction n as [|n IH]; intros [bi bj bs] Hn; simpl in *.
  - replace (alo <? bi) with false by (symmetry; apply Z.ltb_ge; lia).
    reflexivity.
  - destruct ((alo <? bi) && (blo <? bj) && elt_eqb a b (bi - 1) (bj - 1))
      eqn:E; [|exact E].
    apply IH. simpl. lia.
Qed.

Lemma extend_right_exit ahi bhi n :
  forall best, (Z.to_nat (ahi - (m_a best + m_size best)) <= n)%nat ->
    let r := extend_right a b n ahi bhi best in
    (m_a r + m_size r <? ahi) && (m_b r + m_size r <? bhi)
    && elt_eqb a b (m_a r + m_size r) (m_b r + m_size r) = false.
Proof.
  induction n as [|n IH]; intros [bi bj bs] Hn; simpl in *.
  - replace (bi + bs <? ahi) with false by (symmetry; apply Z.ltb_ge; lia).
    reflexivity.
  - destruct ((bi + bs <? ahi) && (bj + bs <? bhi)
              && elt_eqb a b (bi + bs) (bj + bs)) eqn:E; [|exact E].
    apply IH. simpl. lia.
Qed.

(** *** The queue loop *)

Lemma weight_nonneg queue : Forall region_ok queue -> 0 <= weight queue.
Proof.
  induction 1 as [|[[[alo ahi] blo] bhi] q Hr _ IH]; simpl in *; lia.
Qed.

Lemma sum_sizes_acc (l : list Match) acc :
  foldl (fun acc m => acc + m_size m) acc l = acc + sum_sizes l.
Proof.
  unfold sum_sizes. revert acc.
  induction l as [|x l IH]; intros acc; simpl; [lia|].
  rewrite IH, (IH (0 + m_size x)). lia.
Qed.

Lemma sum_sizes_cons x l : sum_sizes (x :: l) = m_size x + sum_sizes l.
Proof. unfold sum_sizes at 1. simpl. rewrite sum_sizes_acc. lia. Qed.

Lemma sum_sizes_nil : sum_sizes [] = 0.
Proof. reflexivity. Qed.

Lemma sum_sizes_app l1 l2 : sum_sizes (l1 ++ l2) = sum_sizes l1 + sum_sizes l2.
Proof.
  induction l1 as [|x l1 IH]; simpl; [reflexivity|].
  rewrite !sum_sizes_cons, IH. lia.
Qed.

Ltac sum_norm :=
  repeat (rewrite sum_sizes_app || rewrite sum_sizes_cons
          || rewrite sum_sizes_nil).

(** With enough fuel the loop leaves with its queue empty, and the
    blocks it has added are no longer than what was left to examine
    of [a] and of [b]. *)
Lemma gmb_loop_ok fuel :
  forall queue blocks,
    Forall region_ok queue ->
    weight queue <= Z.of_nat fuel ->
    let r := gmb_loop a b fuel queue blocks in
    fst r = []
    /\ sum_sizes blocks <= sum_sizes (snd r)
    /\ sum_sizes (snd r) <= sum_sizes blocks + span_a queue
    /\ sum_sizes (snd r) <= sum_sizes blocks + span_b queue.
Proof.
  induction fuel as [|fuel IH]; intros queue blocks Hq Hw.
  - destruct queue as [|[[[alo ahi] blo] bhi] q]; simpl.
    + repeat split; lia.
    + exfalso. apply Forall_cons in Hq as [Hr Hq'].
      apply weight_nonneg in Hq'. simpl in Hr, Hw. lia.
  - destruct queue as [|[[[alo ahi] blo] bhi] q]; simpl.
    + repeat split; lia.
    + apply Forall_cons in Hq as [Hr Hq'].
      simpl in Hr, Hw. destruct Hr as [Ha Hb].
      pose proof (find_longest_match_ok alo ahi blo bhi Ha Hb) as Hbest.
      destruct (find_longest_match a b alo ahi blo bhi) as [i j k] eqn:E.
      destruct Hbest as (Hk & Hi1 & Hi2 & Hj1 & Hj2); simpl in *.
      destruct (k =? 0) eqn:Hk0.
      * destruct (IH q blocks Hq' ltac:(lia)) as (H1 & H2 & H3 & H4).
        repeat split; [exact H1 | lia | lia | lia].
      * apply Z.eqb_neq in Hk0.
        set (queue1 := if (alo <? i) && (blo <? j)
                       then (alo, i, blo, j) :: q else q).
        set (queue2 := if (i + k <? ahi) && (j + k <? bhi)
                       then (i + k, ahi, j + k, bhi) :: queue1 else queue1).
        assert (H1 : Forall region_ok queue1
                     /\ 0 <= span_a queue1 - span_a q <= i - alo
                     /\ 0 <= span_b queue1 - span_b q <= j - blo
                     /\ weight queue1 - weight q <= 2 * (i - alo) + 1
                     /\ (i <= alo -> weight queue1 = weight q)).
        { subst queue1. destruct ((alo <? i) && (blo <? j)) eqn:C.
          - apply andb_prop in C as [C1 C2]. apply Z.ltb_lt in C1, C2.
            simpl. repeat split; try lia. constructor; [split; lia|done].
          - simpl. repeat split; try lia. done. }
        destruct H1 as (Hok1 & Hsa1 & Hsb1 & Hw1 & Hw1').
        assert (H2 : Forall region_ok queue2
                     /\ 0 <= span_a queue2 - span_a queue1 <= ahi - (i + k)
                     /\ 0 <= span_b queue2 - span_b queue1 <= bhi - (j + k)
                     /\ weight queue2 - weight queue1 <= 2 * (ahi - (i + k)) + 1
                     /\ (ahi <= i + k -> weight queue2 = weight queue1)).
        { subst queue2. destruct ((i + k <? ahi) && (j + k <? bhi)) eqn:C.
          - apply andb_prop in C as [C1 C2]. apply Z.ltb_lt in C1, C2.
            simpl. repeat split; try lia. constructor; [split; lia|done].
          - simpl. repeat split; try lia. done. }
        destruct H2 as (Hok2 & Hsa2 & Hsb2 & Hw2 & Hw2').
        assert (Hfuel : weight queue2 <= Z.of_nat fuel).
        { destruct (Z_le_gt_dec i alo); destruct (Z_le_gt_dec ahi (i + k));
            lia. }
        destruct (IH queue2 (blocks ++ [mkMatch i j k]) Hok2 Hfuel)
          as (R1 & R2 & R3 & R4).
        rewrite sum_sizes_app, sum_sizes_cons, sum_sizes_nil in R2, R3, R4.
        simpl in R2, R3, R4.
        repeat split; [exact R1 | lia | lia | lia].
Qed.

(** sorting and collapsing keep the total size *)
Lemma sum_sizes_sort_insert x l :
  sum_sizes (sort_insert x l) = m_size x + sum_sizes l.
Proof.
  induction l as [|y l IH]; simpl; [now sum_norm|].
  destruct (match_leb x y); [now sum_norm|].
  sum_norm. rewrite IH. lia.
Qed.

Lemma sum_sizes_sort l : sum_sizes (sort_blocks l) = sum_sizes l.
Proof.
  induction l as [|x l IH]; simpl; [reflexivity|].
  rewrite sum_sizes_sort_insert. sum_norm. rewrite IH. reflexivity.
Qed.

Lemma sum_sizes_collapse blocks :
  forall i1 j1 k1 non_adjacent,
    sum_sizes (collapse blocks i1 j1 k1 non_adjacent)
    = sum_sizes non_adjacent + k1 + sum_sizes blocks.
Proof.
  induction blocks as [|[i2 j2 k2] r IH]; intros i1 j1 k1 na; simpl.
  - destruct (k1 =? 0) eqn:E.
    + apply Z.eqb_eq in E. sum_norm. lia.
    + sum_norm. simpl. lia.
  - sum_norm. simpl.
    destruct ((i1 + k1 =? i2) && (j1 + k1 =? j2)); rewrite IH; [lia|].
    destruct (k1 =? 0) eqn:E.
    + apply Z.eqb_eq in E. lia.
    + sum_norm. simpl. lia.
Qed.

(** the queue loop of [get_matching_blocks] ends because its queue is
    empty, not because the iterations granted ran out *)
Lemma get_matching_blocks_terminates :
  fst (gmb_loop a b (gmb_fuel a) [(0, la a, 0, lb b)] []) = [].
Proof.
  apply gmb_loop_ok.
  - constructor; [|constructor]. unfold la, lb. split; lia.
  - simpl. unfold la, gmb_fuel. lia.
Qed.

(** the matched characters are at most [len(a)] and at most [len(b)] *)
Lemma matches_bounds :
  0 <= sum_sizes (get_matching_blocks a b) <= Z.min (la a) (lb b).
Proof.
  unfold get_matching_blocks.
  rewrite sum_sizes_app, sum_sizes_collapse, sum_sizes_sort.
  destruct (gmb_loop_ok (gmb_fuel a) [(0, la a, 0, lb b)] [])
    as (_ & H1 & H2 & H3).
  - constructor; [|constructor]. unfold la, lb. split; lia.
  - simpl. unfold la, gmb_fuel. lia.
  - rewrite sum_sizes_nil in H1, H2, H3. sum_norm. simpl in *. lia.
Qed.

Lemma ratio_unit : (0 <= ratio a b <= 1)%Q.
Proof.
  unfold ratio, _calculate_ratio.
  pose proof matches_bounds as [H0 H1].
  set (M := sum_sizes (get_matching_blocks a b)) in *.
  destruct (la a + lb b =? 0) eqn:E; [split; discriminate|].
  apply Z.eqb_neq in E.
  assert (HL : 0 < la a + lb b) by (unfold la, lb in *; lia).
  assert (HLq : (0 < inject_Z (la a + lb b))%Q).
  { rewrite <- (Zlt_Qlt 0). exact HL. }
  split.
  - apply Qle_shift_div_l; [exact HLq|].
    rewrite Qmult_0_l.
    change 0%Q with (2 * inject_Z 0)%Q.
    apply Qmult_le_l; [reflexivity|]. rewrite <- Zle_Qle. exact H0.
  - apply Qle_shift_div_r; [exact HLq|].
    rewrite Qmult_1_l.
    change 2%Q with (inject_Z 2). rewrite <- inject_Z_mult, <- Zle_Qle. lia.
Qed.

(** nothing matches when one of the two sequences is empty *)
Lemma ratio_one_empty :
  (la a = 0 \/ lb b = 0) -> la a + lb b <> 0 -> (ratio a b == 0)%Q.
Proof.
  intros Hemp Hne. unfold ratio, _calculate_ratio.
  pose proof matches_bounds as [H0 H1].
  assert (HM : sum_sizes (get_matching_blocks a b) = 0) by lia.
  rewrite HM. apply Z.eqb_neq in Hne. rewrite Hne.
  unfold Qdiv. rewrite Qmult_0_r, Qmult_0_l. reflexivity.
Qed.

End Bounds.

End DifflibFacts.

(** ** Name similarity *)

Module SimilarityFacts.
Import PyNum PyNumFacts SimilarityInv.

Lemma similarity_unfold name1 name2 :
  _calculate_name_similarity name1 name2
  = if String.eqb (normalize_name name1) (normalize_name name2) then 1%Q
    else boosted (normalize_name name1) (normalize_name name2)
           (Difflib.ratio (PyStr.list_of (normalize_name name1))
              (PyStr.list_of (normalize_name name2))).
Proof. reflexivity. Qed.

Lemma py_max_unit r c :
  (0 <= r <= 1)%Q -> (0 <= c <= 1)%Q -> (0 <= py_max r c <= 1)%Q.
Proof.
  intros [? ?] [? ?]. split.
  - apply Qle_trans with r; [assumption | apply py_max_ge_l].
  - apply py_max_lub; assumption.
Qed.

Lemma abbreviation_loop_unit norm1 norm2 (l : list (string * string)) :
  forall r, (0 <= r <= 1)%Q ->
            (0 <= foldl (abbreviation_step norm1 norm2) r l <= 1)%Q.
Proof.
  induction l as [|[abbr full] l IH]; intros r Hr; simpl; [exact Hr|].
  apply IH.
  destruct ((String.eqb norm1 abbr && String.eqb norm2 full)
            || (String.eqb norm1 full && String.eqb norm2 abbr));
    [|exact Hr].
  apply py_max_unit; [exact Hr | split; discriminate].
Qed.

Lemma boosted_unit norm1 norm2 r :
  (0 <= r <= 1)%Q -> (0 <= boosted norm1 norm2 r <= 1)%Q.
Proof.
  intros Hr. unfold boosted. apply abbreviation_loop_unit.
  destruct (PyStr.contains norm1 norm2 || PyStr.contains norm2 norm1);
    [|exact Hr].
  apply py_max_unit; [exact Hr | split; discriminate].
Qed.

Lemma similarity_unit name1 name2 :
  (0 <= _calculate_name_similarity name1 name2 <= 1)%Q.
Proof.
  rewrite similarity_unfold.
  destruct (String.eqb _ _); [split; discriminate|].
  apply boosted_unit, DifflibFacts.ratio_unit.
Qed.

Lemma similarity_equal_normalized name1 name2 :
  normalize_name name1 = normalize_name name2 ->
  _calculate_name_similarity name1 name2 = 1%Q.
Proof.
  intros H. rewrite similarity_unfold, H, String.eqb_refl. reflexivity.
Qed.

(** [max] and the two boosts do not tell equal rationals apart *)
Lemma py_max_Qeq r1 r2 c : (r1 == r2)%Q -> (py_max r1 c == py_max r2 c)%Q.
Proof.
  intros H. unfold py_max.
  destruct (Qltb r1 c) eqn:E1; destruct (Qltb r2 c) eqn:E2;
    try reflexivity; try exact H.
  - apply Qltb_lt in E1. apply Qltb_ge in E2. rewrite H in E1.
    exfalso. exact (Qlt_not_le _ _ E1 E2).
  - apply Qltb_lt in E2. apply Qltb_ge in E1. rewrite H in E1.
    exfalso. exact (Qlt_not_le _ _ E2 E1).
Qed.

Lemma abbreviation_step_swap norm1 norm2 r1 r2 entry :
  (r1 == r2)%Q ->
  (abbreviation_step norm1 norm2 r1 entry
   == abbreviation_step norm2 norm1 r2 entry)%Q.
Proof.
  intros H. destruct entry as [abbr full]. simpl.
  rewrite (orb_comm (String.eqb norm2 abbr && String.eqb norm1 full)).
  rewrite (andb_comm (String.eqb norm2 full)).
  rewrite (andb_comm (String.eqb norm2 abbr)).
  destruct (_ || _); [apply py_max_Qeq|]; exact H.
Qed.

Lemma abbreviation_loop_swap norm1 norm2 (l : list (string * string)) :
  forall r1 r2, (r1 == r2)%Q ->
    (foldl (abbreviation_step norm1 norm2) r1 l
     == foldl (abbreviation_step norm2 norm1) r2 l)%Q.
Proof.
  induction l as [|e l IH]; intros r1 r2 H; simpl; [exact H|].
  apply IH, abbreviation_step_swap, H.
Qed.

Lemma boosted_swap norm1 norm2 r1 r2 :
  (r1 == r2)%Q -> (boosted norm1 norm2 r1 == boosted norm2 norm1 r2)%Q.
Proof.
  intros H. unfold boosted. apply abbreviation_loop_swap.
  rewrite (orb_comm (PyStr.contains norm2 norm1)).
  destruct (_ || _); [apply py_max_Qeq|]; exact H.
Qed.

(** an empty normalized name is found in any other, and matches no
    entry of the abbreviation table *)
Lemma contains_empty hay : PyStr.contains "" hay = true.
Proof. destruct hay; reflexivity. Qed.

Lemma boosted_empty_l norm2 r :
  norm2 <> "" -> (r == 0)%Q -> boosted "" norm2 r = (8 # 10)%Q.
Proof.
  intros _ Hr. unfold boosted. rewrite contains_empty. simpl orb.
  assert (E : py_max r (8 # 10) = (8 # 10)%Q).
  { unfold py_max.
    replace (Qltb r (8 # 10)) with true; [reflexivity|].
    symmetry. apply Qltb_lt. rewrite Hr. reflexivity. }
  rewrite E. reflexivity.
Qed.

Lemma boosted_empty_r norm1 r :
  norm1 <> "" -> (r == 0)%Q -> boosted norm1 "" r = (8 # 10)%Q.
Proof.
  intros _ Hr. unfold boosted. rewrite contains_empty, orb_true_r.
  assert (E : py_max r (8 # 10) = (8 # 10)%Q).
  { unfold py_max.
    replace (Qltb r (8 # 10)) with true; [reflexivity|].
    symmetry. apply Qltb_lt. rewrite Hr. reflexivity. }
  rewrite E. simpl.
  repeat rewrite andb_false_r. reflexivity.
Qed.

Lemma list_of_length s : length (PyStr.list_of s) = String.length s.
Proof.
  unfold PyStr.list_of. induction s as [|c s IH]; simpl; [reflexivity|].
  rewrite IH. reflexivity.
Qed.

Lemma length_zero_empty s : String.length s = 0%nat -> s = "".
Proof. destruct s; [reflexivity | discriminate]. Qed.

End SimilarityFacts.

(** ** Type compatibility, confidence and similarity: the stated properties *)

(** C3.  The compatibility table is not symmetric within the families of
    the specification: NUMERIC and DECIMAL list neither SMALLINT nor INT,
    and BIT and VARBINARY have no row of their own, so the check returns
    false on these same-family pairs although it returns true on the
    mirrored ones. *)
Theorem type_compatibility_missing_rows :
  _check_type_compatibility "NUMERIC" "SMALLINT" = false
  /\ _check_type_compatibility "SMALLINT" "NUMERIC" = true
  /\ _check_type_compatibility "DECIMAL" "INT" = false
  /\ _check_type_compatibility "INT" "DECIMAL" = true
  /\ _check_type_compatibility "BIT" "BOOLEAN" = false
  /\ _check_type_compatibility "BOOLEAN" "BIT" = true
  /\ _check_type_compatibility "VARBINARY" "BLOB" = false
  /\ _check_type_compatibility "BLOB" "VARBINARY" = true.
Proof. repeat split; vm_compute; reflexivity. Qed.

(** what the table does give: every ordered pair of the string family and
    of the temporal family is compatible, the cross-family pair
    (INTEGER, VARCHAR) is not, and a source type without a row is
    compatible exactly with the types of equal normalized form *)
Lemma type_compatibility_listed_rows :
  (forall a b, a ∈ ["VARCHAR"; "TEXT"; "CHAR"; "STRING"] ->
               b ∈ ["VARCHAR"; "TEXT"; "CHAR"; "STRING"] ->
               _check_type_compatibility a b = true)
  /\ (forall a b, a ∈ ["DATE"; "TIMESTAMP"; "DATETIME"] ->
                  b ∈ ["DATE"; "TIMESTAMP"; "DATETIME"] ->
                  _check_type_compatibility a b = true)
  /\ _check_type_compatibility "INTEGER" "VARCHAR" = false
  /\ (forall a b,
        PyDict.get (_normalize_type a) TYPE_COMPATIBILITY = None ->
        _check_type_compatibility a b
        = String.eqb (_normalize_type a) (_normalize_type b)).
Proof.
  split; [|split; [|split]].
  - intros a b Ha Hb.
    repeat (apply elem_of_cons in Ha as [->|Ha]);
      try (apply elem_of_nil in Ha; contradiction);
      repeat (apply elem_of_cons in Hb as [->|Hb]);
      try (apply elem_of_nil in Hb; contradiction); reflexivity.
  - intros a b Ha Hb.
    repeat (apply elem_of_cons in Ha as [->|Ha]);
      try (apply elem_of_nil in Ha; contradiction);
      repeat (apply elem_of_cons in Hb as [->|Hb]);
      try (apply elem_of_nil in Hb; contradiction); reflexivity.
  - reflexivity.
  - intros a b H. unfold _check_type_compatibility. rewrite H.
    destruct (String.eqb _ _); reflexivity.
Qed.

Section ConfidenceBinary64.
Import PrimFloat.

(** C5.  Over binary64, for every similarity (so for every one in [0,1]),
    compatibility flag and pair of fields, the confidence computed is the
    one of the rule, applied in its order: start from the similarity;
    times 0.3 when the types are incompatible; min(1, c * 1.2) when the
    normalized types are identical; min(1, c * 1.05) when the nullability
    flags are equal, times 0.95 when the source is non-nullable and the
    target nullable, times 0.85 when the source is nullable and the target
    non-nullable; then the clamp.  The result lies in [0,1].  The order is
    observable: from 0.75, with identical types and equal flags, the 1.2
    boost followed by the 1.05 boost gives 0.945, and the other order
    would give 0.9450000000000001; from 0.4, with compatible types that
    are not identical and equal flags, the result is
    0.42000000000000004. *)
Theorem calculate_confidence_sequence (similarity : float) (type_compatible : bool)
    (source_field target_field : Field) :
  Binary64._calculate_confidence similarity type_compatible source_field
    target_field
  = Binary64.confidence_rule similarity type_compatible source_field target_field
  /\ leb 0 (Binary64._calculate_confidence similarity type_compatible
              source_field target_field) = true
  /\ leb (Binary64._calculate_confidence similarity type_compatible
            source_field target_field) 1 = true
  /\ Binary64._calculate_confidence 0.75 true
       (mkField "id" "INTEGER" false None) (mkField "id" "INTEGER" false None)
     = 0.945%float
  /\ Binary64.py_min 1 (Binary64.py_min 1 (0.75 * 1.05) * 1.2)
     = 0.9450000000000001%float
  /\ Binary64._calculate_confidence 0.4 true
       (mkField "zip" "BIGINT" false None) (mkField "id" "INTEGER" false None)
     = 0.42000000000000004%float.
Proof.
  split; [|split; [|split; [|split; [|split]]]].
  - unfold Binary64._calculate_confidence, Binary64.confidence_rule.
    destruct type_compatible, (nullable source_field), (nullable target_field);
      reflexivity.
  - apply Binary64ScoreFacts.calculate_confidence_unit64.
  - apply Binary64ScoreFacts.calculate_confidence_unit64.
  - vm_compute. reflexivity.
  - vm_compute. reflexivity.
  - vm_compute. reflexivity.
Qed.

End ConfidenceBinary64.

(** C6, as stated, fails: the similarity of "tide" to "diet" is 0.25 and
    that of "diet" to "tide" is 0.5. *)
Lemma name_similarity_not_symmetric :
  ~ (_calculate_name_similarity "tide" "diet"
     == _calculate_name_similarity "diet" "tide")%Q.
Proof. vm_compute. discriminate. Qed.

(** C6, amended.  The similarity of a name to itself is exactly 1, the
    similarity of any two names lies in [0,1], and swapping the two names
    keeps the similarity whenever it keeps the block-matching ratio of the
    two normalized names. *)
Theorem name_similarity_reflexive_bounded (name1 name2 : string) :
  _calculate_name_similarity name1 name1 = 1%Q
  /\ (0 <= _calculate_name_similarity name1 name2 <= 1)%Q
  /\ ((Difflib.ratio (PyStr.list_of (normalize_name name1))
         (PyStr.list_of (normalize_name name2))
       == Difflib.ratio (PyStr.list_of (normalize_name name2))
            (PyStr.list_of (normalize_name name1)))%Q ->
      (_calculate_name_similarity name1 name2
       == _calculate_name_similarity name2 name1)%Q).
Proof.
  split; [|split].
  - apply SimilarityFacts.similarity_equal_normalized. reflexivity.
  - apply SimilarityFacts.similarity_unit.
  - intros H. rewrite !SimilarityFacts.similarity_unfold.
    rewrite (String.eqb_sym (normalize_name name2)).
    destruct (String.eqb _ _); [reflexivity|].
    apply SimilarityFacts.boosted_swap, H.
Qed.

(** two pairs of names whose ratio does not depend on the order *)
Lemma name_similarity_reflexive_bounded_witness :
  (_calculate_name_similarity "user_id" "USER-ID"
   == _calculate_name_similarity "USER-ID" "user_id")%Q
  /\ (_calculate_name_similarity "abc" "abd"
      == _calculate_name_similarity "abd" "abc")%Q.
Proof.
  split.
  - apply (name_similarity_reflexive_bounded "user_id" "USER-ID").
    vm_compute. reflexivity.
  - apply (name_similarity_reflexive_bounded "abc" "abd").
    vm_compute. reflexivity.
Defined.

(** C10.  When exactly one of the two names normalizes to the empty
    string, the empty string is found in the other normalized name and the
    similarity is at least 0.8; when both do, it is exactly 1. *)
Theorem name_similarity_empty_normalized (name1 name2 : string) :
  ((normalize_name name1 = "" /\ normalize_name name2 <> "")
   \/ (normalize_name name1 <> "" /\ normalize_name name2 = "") ->
   PyStr.contains (normalize_name name1) (normalize_name name2)
   || PyStr.contains (normalize_name name2) (normalize_name name1) = true
   /\ (8 # 10 <= _calculate_name_similarity name1 name2)%Q)
  /\ (normalize_name name1 = "" /\ normalize_name name2 = "" ->
      _calculate_name_similarity name1 name2 = 1%Q).
Proof.
  split.
  - intros H. rewrite SimilarityFacts.similarity_unfold.
    destruct H as [[H1 H2]|[H1 H2]].
    + rewrite H1. rewrite SimilarityFacts.contains_empty.
      split; [reflexivity|].
      destruct (String.eqb "" (normalize_name name2)) eqn:E.
      { apply String.eqb_eq in E. congruence. }
      rewrite SimilarityFacts.boosted_empty_l; [apply Qle_refl | exact H2 |].
      apply DifflibFacts.ratio_one_empty.
      * left. reflexivity.
      * unfold Difflib.la, Difflib.lb. rewrite !SimilarityFacts.list_of_length.
        simpl. intros Hz.
        apply H2, SimilarityFacts.length_zero_empty. lia.
    + rewrite H2. rewrite SimilarityFacts.contains_empty, orb_true_r.
      split; [reflexivity|].
      destruct (String.eqb (normalize_name name1) "") eqn:E.
      { apply String.eqb_eq in E. congruence. }
      rewrite SimilarityFacts.boosted_empty_r; [apply Qle_refl | exact H1 |].
      apply DifflibFacts.ratio_one_empty.
      * right. reflexivity.
      * unfold Difflib.la, Difflib.lb. rewrite !SimilarityFacts.list_of_length.
        simpl. intros Hz.
        apply H1, SimilarityFacts.length_zero_empty. lia.
  - intros [H1 H2]. apply SimilarityFacts.similarity_equal_normalized.
    congruence.
Qed.

(** names made of separators only normalize to the empty string *)
Lemma name_similarity_empty_normalized_witness :
  (8 # 10 <= _calculate_name_similarity "_-_" "id")%Q
  /\ (8 # 10 <= _calculate_name_similarity "id" "--")%Q
  /\ _calculate_name_similarity "__" "-" = 1%Q.
Proof.
  split; [|split].
  - apply (proj1 (name_similarity_empty_normalized "_-_" "id")).
    left. split; [reflexivity | discriminate].
  - apply (proj1 (name_similarity_empty_normalized "id" "--")).
    right. split; [discriminate | reflexivity].
  - apply (proj2 (name_similarity_empty_normalized "__" "-")).
    split; reflexivity.
Defined.

(** ** Insertion-ordered dictionaries: facts *)

Module PyDictFacts.
Import PyDict.

Section Facts.
Context {V : Type}.
Implicit Types (d : pydict V) (k : string) (v : V).

Lemma get_elem_of k v d : get k d = Some v -> (k, v) ∈ d.
Proof.
  induction d as [|[k' v'] d IH]; simpl; [discriminate|].
  destruct (String.eqb k' k) eqn:E.
  - apply String.eqb_eq in E. intros [= ->]. subst. apply list_elem_of_here.
  - intros H. apply list_elem_of_further, IH, H.
Qed.

Lemma get_None_keys k d : get k d = None <-> k ∉ keys d.
Proof.
  unfold keys. induction d as [|[k' v'] d IH]; simpl.
  - split; [intros _; apply not_elem_of_nil | reflexivity].
  - rewrite not_elem_of_cons. destruct (String.eqb k' k) eqn:E.
    + apply String.eqb_eq in E. split; [discriminate | intros [? _]; congruence].
    + apply String.eqb_neq in E. rewrite IH. split; [split|intros [_ ?]]; auto.
Qed.

Lemma elem_of_get k v d : NoDup (keys d) -> (k, v) ∈ d -> get k d = Some v.
Proof.
  unfold keys. induction d as [|[k' v'] d IH]; simpl; intros Hnd Hin.
  - apply elem_of_nil in Hin. contradiction.
  - apply NoDup_cons in Hnd as [Hk' Hnd].
    apply elem_of_cons in Hin as [[= -> ->]|Hin].
    + rewrite String.eqb_refl. reflexivity.
    + destruct (String.eqb k' k) eqn:E; [|auto].
      apply String.eqb_eq in E. subst k'. exfalso. apply Hk'.
      apply (list_elem_of_fmap_2 fst) in Hin. exact Hin.
Qed.

Lemma keys_set k v d :
  keys (set k v d) = if bool_decide (k ∈ keys d) then keys d else keys d ++ [k].
Proof.
  unfold keys. induction d as [|[k' v'] d IH].
  - reflexivity.
  - cbn [set fmap list_fmap fst]. destruct (String.eqb k' k) eqn:E.
    + apply String.eqb_eq in E. subst. cbn [fmap list_fmap fst].
      rewrite bool_decide_eq_true_2 by apply list_elem_of_here. reflexivity.
    + apply String.eqb_neq in E. cbn [fmap list_fmap fst]. rewrite IH.
      destruct (bool_decide (k ∈ fst <$> d)) eqn:B.
      * apply bool_decide_eq_true in B.
        rewrite bool_decide_eq_true_2 by (apply list_elem_of_further, B).
        reflexivity.
      * apply bool_decide_eq_false in B.
        rewrite bool_decide_eq_false_2; [reflexivity|].
        rewrite not_elem_of_cons. split; [congruence | exact B].
Qed.

Lemma NoDup_keys_set k v d : NoDup (keys d) -> NoDup (keys (set k v d)).
Proof.
  intros H. rewrite keys_set. destruct (bool_decide (k ∈ keys d)) eqn:B.
  - exact H.
  - apply bool_decide_eq_false in B. apply NoDup_app.
    split; [exact H|]. split.
    + intros x Hx Hx'. apply list_elem_of_singleton in Hx'. subst. auto.
    + apply NoDup_singleton.
Qed.

Lemma keys_del_elem k x d : x ∈ keys (del k d) -> x ∈ keys d.
Proof.
  unfold keys. induction d as [|[k0 v0] d IH]; simpl; [auto|].
  destruct (String.eqb k0 k).
  - apply list_elem_of_further.
  - simpl. rewrite !elem_of_cons. intros [?|?]; auto.
Qed.

Lemma NoDup_keys_del k d : NoDup (keys d) -> NoDup (keys (del k d)).
Proof.
  induction d as [|[k0 v0] d IH]; simpl; intros Hnd; [exact Hnd|].
  apply NoDup_cons in Hnd as [Hk0 Hnd].
  destruct (String.eqb k0 k); [exact Hnd|].
  apply NoDup_cons. split; [|apply IH, Hnd].
  intros H. apply Hk0. eapply keys_del_elem, H.
Qed.

Lemma get_del k k' d :
  NoDup (keys d) ->
  get k' (del k d) = if String.eqb k k' then None else get k' d.
Proof.
  unfold keys. induction d as [|[k0 v0] d IH]; simpl; intros Hnd.
  - destruct (String.eqb k k'); reflexivity.
  - apply NoDup_cons in Hnd as [Hk0 Hnd].
    destruct (String.eqb k0 k) eqn:E; simpl.
    + apply String.eqb_eq in E. subst k0.
      destruct (String.eqb k k') eqn:E'; [|reflexivity].
      apply String.eqb_eq in E'. subst k'.
      apply get_None_keys. exact Hk0.
    + destruct (String.eqb k0 k') eqn:E'.
      * apply String.eqb_eq in E'. subst k0. rewrite String.eqb_sym, E.
        reflexivity.
      * apply IH, Hnd.
Qed.

Lemma del_absent k d : get k d = None -> del k d = d.
Proof.
  induction d as [|[k0 v0] d IH]; simpl; [reflexivity|].
  destruct (String.eqb k0 k); [discriminate|].
  intros H. rewrite IH by exact H. reflexivity.
Qed.

Lemma NoDup_keys_of_list (key : V -> string) (l : list V) :
  NoDup (keys (of_list key l)).
Proof.
  unfold of_list.
  cut (forall d0 : pydict V, NoDup (keys d0) ->
         NoDup (keys (foldl (fun d x => set (key x) x d) d0 l))).
  { intros H. apply H. apply NoDup_nil_2. }
  induction l as [|x l IH]; intros d0 H0; simpl; [exact H0|].
  apply IH, NoDup_keys_set, H0.
Qed.

End Facts.

End PyDictFacts.

(** ** The schema differ *)

Module DifferFacts.
Import PyDict PyDictFacts.

Lemma added_changes_type sid old_fields new_fields c :
  c ∈ added_changes sid old_fields new_fields -> change_type c = "added".
Proof.
  unfold added_changes. rewrite list_elem_of_omap.
  intros ([k f] & _ & H). destruct (get k old_fields); [discriminate|].
  injection H as <-. reflexivity.
Qed.

Lemma removed_changes_type sid old_fields new_fields c :
  c ∈ removed_changes sid old_fields new_fields -> change_type c = "removed".
Proof.
  unfold removed_changes. rewrite list_elem_of_omap.
  intros ([k f] & _ & H). destruct (get k new_fields); [discriminate|].
  injection H as <-. reflexivity.
Qed.

Lemma elem_of_modified_changes sid old_fields new_fields c :
  c ∈ modified_changes sid old_fields new_fields
  <-> exists entry, entry ∈ old_fields /\ c ∈ field_changes sid new_fields entry.
Proof.
  unfold modified_changes. rewrite list_elem_of_In, in_concat. split.
  - intros (l & Hl & Hc). apply list_elem_of_In, list_elem_of_fmap in Hl.
    destruct Hl as (e & -> & He). exists e. split; [exact He|].
    apply list_elem_of_In, Hc.
  - intros (e & He & Hc). exists (field_changes sid new_fields e). split.
    + apply list_elem_of_In, list_elem_of_fmap_2, He.
    + apply list_elem_of_In, Hc.
Qed.

(** the type_changed entries of the change list of one dictionary entry *)
Lemma field_changes_type_changed sid new_fields k old_field c :
  c ∈ field_changes sid new_fields (k, old_field) ->
  change_type c = "type_changed" ->
  exists new_field,
    get k new_fields = Some new_field
    /\ data_type old_field <> data_type new_field
    /\ c = mkSchemaChange sid "type_changed" k (Some (data_type old_field))
             (Some (data_type new_field)).
Proof.
  unfold field_changes. destruct (get k new_fields) as [nf|];
    [|intros H; apply elem_of_nil in H; contradiction].
  intros H Ht. exists nf. split; [reflexivity|].
  apply elem_of_app in H as [H|H].
  - destruct (String.eqb (data_type old_field) (data_type nf)) eqn:E;
      simpl in H; [apply elem_of_nil in H; contradiction|].
    apply list_elem_of_singleton in H. apply String.eqb_neq in E. auto.
  - destruct (Bool.eqb (nullable old_field) (nullable nf)); simpl in H;
      [apply elem_of_nil in H; contradiction|].
    apply list_elem_of_singleton in H. subst c. discriminate.
Qed.

End DifferFacts.

(** C4, as stated, fails: with [id : INTEGER] cached and [id : integer(10)]
    observed, the two types have the same normalized form, yet a
    type_changed change is emitted, and it carries the two spellings as
    they are. *)
Lemma type_changed_on_equal_normalized_types :
  let cached := mkSchema "s1" "src" 1 [mkField "id" "INTEGER" false None] 0 None in
  let observed :=
    mkSchema "s2" "src" 2 [mkField "id" "integer(10)" false None] 0 None in
  let self := mkDataDiscoveryAgent "discovery" (<["src" := cached]> ∅) in
  _normalize_type "INTEGER" = _normalize_type "integer(10)"
  /\ fst (detect_schema_changes "src" observed self)
     = [mkSchemaChange "src" "type_changed" "id" (Some "INTEGER")
          (Some "integer(10)")].
Proof. split; vm_compute; reflexivity. Qed.

(** C4, amended.  For every field name present in both the cached and the
    new snapshot, the differ emits a type_changed change exactly when the
    two data types differ as strings, and every type_changed change it
    emits for that name carries the two data types as they are written in
    the snapshots.  (The field a snapshot holds under a name is the one its
    name-indexed dictionary holds.) *)
Theorem type_changed_on_raw_types (source_id : string) (new_schema old_schema : Schema)
    (self : DataDiscoveryAgent) (n : string) (old_field new_field : Field) :
  _schema_cache self !! source_id = Some old_schema ->
  PyDict.get n (PyDict.of_list name (fields old_schema)) = Some old_field ->
  PyDict.get n (PyDict.of_list name (fields new_schema)) = Some new_field ->
  let changes := fst (detect_schema_changes source_id new_schema self) in
  let change :=
    mkSchemaChange source_id "type_changed" n (Some (data_type old_field))
      (Some (data_type new_field)) in
  (change ∈ changes <-> data_type old_field <> data_type new_field)
  /\ (forall c, c ∈ changes -> change_type c = "type_changed" ->
                field_name c = n -> c = change).
Proof.
  intros Hcache Hold Hnew changes change.
  assert (Hchanges : changes = diff_schemas source_id old_schema new_schema).
  { subst changes. unfold detect_schema_changes. rewrite Hcache.
    destruct (diff_schemas source_id old_schema new_schema); reflexivity. }
  set (old_fields := PyDict.of_list name (fields old_schema)) in *.
  set (new_fields := PyDict.of_list name (fields new_schema)) in *.
  assert (Hinv : forall c, c ∈ changes -> change_type c = "type_changed" ->
                           field_name c = n ->
                           c = change /\ data_type old_field <> data_type new_field).
  { intros c Hc Ht Hn. rewrite Hchanges in Hc. unfold diff_schemas in Hc.
    fold old_fields new_fields in Hc.
    apply elem_of_app in Hc as [Hc|Hc].
    { apply DifferFacts.added_changes_type in Hc. congruence. }
    apply elem_of_app in Hc as [Hc|Hc].
    { apply DifferFacts.removed_changes_type in Hc. congruence. }
    apply DifferFacts.elem_of_modified_changes in Hc as ([k fo] & Hk & Hc).
    destruct (DifferFacts.field_changes_type_changed _ _ _ _ _ Hc Ht)
      as (fn & Hfn & Hne & ->).
    simpl in Hn. subst k.
    assert (fo = old_field).
    { apply (PyDictFacts.elem_of_get n fo old_fields) in Hk.
      - congruence.
      - apply PyDictFacts.NoDup_keys_of_list. }
    assert (fn = new_field) by congruence.
    subst. auto. }
  split; [split|].
  - intros Hin. apply (Hinv change Hin); reflexivity.
  - intros Hne. rewrite Hchanges. unfold diff_schemas.
    fold old_fields new_fields.
    apply elem_of_app. right. apply elem_of_app. right.
    apply DifferFacts.elem_of_modified_changes.
    exists (n, old_field). split; [apply PyDictFacts.get_elem_of, Hold|].
    unfold field_changes. rewrite Hnew. apply elem_of_app. left.
    apply String.eqb_neq in Hne. rewrite Hne. simpl.
    apply list_elem_of_here.
  - intros c Hc Ht Hn. apply (Hinv c Hc Ht Hn).
Qed.

(** INTEGER to DECIMAL, as in the test suite of the agent *)
Lemma type_changed_on_raw_types_witness :
  let cached := mkSchema "s1" "src" 1 [mkField "amount" "INTEGER" false None] 0 None in
  let observed :=
    mkSchema "s2" "src" 2 [mkField "amount" "DECIMAL" false None] 0 None in
  let self := mkDataDiscoveryAgent "discovery" (<["src" := cached]> ∅) in
  mkSchemaChange "src" "type_changed" "amount" (Some "INTEGER") (Some "DECIMAL")
  ∈ fst (detect_schema_changes "src" observed self).
Proof.
  intros cached observed self.
  apply (type_changed_on_raw_types "src" observed cached self "amount"
           (mkField "amount" "INTEGER" false None)
           (mkField "amount" "DECIMAL" false None)).
  - reflexivity.
  - reflexivity.
  - reflexivity.
  - discriminate.
Defined.

(** C7.  Called for a source with no cached snapshot, the differ caches
    the schema it is given and returns no change.  Called for a source
    with a cached snapshot, it leaves the agent, and so the cached
    snapshot, as it was when the change list is empty, and replaces the
    snapshot by the new schema when the change list is not empty. *)
Theorem detect_schema_changes_cache (source_id : string) (new_schema : Schema)
    (self : DataDiscoveryAgent) :
  (_schema_cache self !! source_id = None ->
   fst (detect_schema_changes source_id new_schema self) = []
   /\ _schema_cache (snd (detect_schema_changes source_id new_schema self))
      = <[source_id := new_schema]> (_schema_cache self))
  /\ (forall old_schema,
        _schema_cache self !! source_id = Some old_schema ->
        (fst (detect_schema_changes source_id new_schema self) = [] ->
         snd (detect_schema_changes source_id new_schema self) = self
         /\ _schema_cache (snd (detect_schema_changes source_id new_schema self))
            !! source_id = Some old_schema)
        /\ (fst (detect_schema_changes source_id new_schema self) <> [] ->
            _schema_cache (snd (detect_schema_changes source_id new_schema self))
            = <[source_id := new_schema]> (_schema_cache self))).
Proof.
  split.
  - intros H. unfold detect_schema_changes. rewrite H. split; reflexivity.
  - intros old_schema H. unfold detect_schema_changes. rewrite H.
    destruct (diff_schemas source_id old_schema new_schema) as [|c cs];
      simpl; split.
    + intros _. split; [reflexivity | exact H].
    + intros Hne. contradiction.
    + discriminate.
    + intros _. reflexivity.
Qed.

(** a first observation, then the same schema observed again *)
Lemma detect_schema_changes_cache_witness :
  let schema := mkSchema "s1" "src" 1 [mkField "id" "INTEGER" false None] 0 None in
  let cold := mkDataDiscoveryAgent "discovery" ∅ in
  let warm := snd (detect_schema_changes "src" schema cold) in
  fst (detect_schema_changes "src" schema cold) = []
  /\ snd (detect_schema_changes "src" schema warm) = warm.
Proof.
  intros schema cold warm. split.
  - apply (proj1 (detect_schema_changes_cache "src" schema cold)).
    reflexivity.
  - apply (proj2 (detect_schema_changes_cache "src" schema warm) schema).
    + reflexivity.
    + reflexivity.
Defined.

(** ** Mapping generation *)

Module GenerateFacts.
Import PyNum PyNumFacts.

Lemma build_mapping_source f t c : source_field (build_mapping f t c) = name f.
Proof. unfold build_mapping. destruct (negb _); reflexivity. Qed.

Lemma build_mapping_target f t c : target_field (build_mapping f t c) = name t.
Proof. unfold build_mapping. destruct (negb _); reflexivity. Qed.

Lemma build_mapping_confidence f t c : confidence (build_mapping f t c) = c.
Proof. unfold build_mapping. destruct (negb _); reflexivity. Qed.

(** The inner loop, started from any state: either no candidate beats the
    starting confidence and the state is unchanged, or the state holds the
    first candidate of maximal confidence. *)
Lemma scan_source_loop (t : Field) (claimed : gset string) (src : list Field) :
  forall b0 c0,
    let r := foldl (scan_source t claimed) (b0, c0) src in
    let cands := filter (fun f => name f ∉ claimed) src in
    (r = (b0, c0) /\ forall f, f ∈ cands -> (pair_confidence f t <= c0)%Q)
    \/ (exists l1 f l2,
          cands = l1 ++ f :: l2
          /\ r = (Some (build_mapping f t (pair_confidence f t)),
                  pair_confidence f t)
          /\ (c0 < pair_confidence f t)%Q
          /\ (forall f', f' ∈ l1 -> (pair_confidence f' t < pair_confidence f t)%Q)
          /\ (forall f', f' ∈ l2 -> (pair_confidence f' t <= pair_confidence f t)%Q)).
Proof.
  induction src as [|s src IH]; intros b0 c0; simpl.
  - left. split; [reflexivity|]. intros f Hf. apply elem_of_nil in Hf.
    contradiction.
  - assert (Hstep : scan_source t claimed (b0, c0) s
                    = if bool_decide (name s ∈ claimed) then (b0, c0)
                      else if Qltb c0 (pair_confidence s t)
                           then (Some (build_mapping s t (pair_confidence s t)),
                                 pair_confidence s t)
                           else (b0, c0)) by reflexivity.
    rewrite Hstep. clear Hstep.
    destruct (bool_decide (name s ∈ claimed)) eqn:B.
    + apply bool_decide_eq_true in B.
      rewrite filter_cons_False by (intros H; apply H, B).
      apply IH.
    + apply bool_decide_eq_false in B.
      rewrite filter_cons_True by exact B.
      destruct (Qltb c0 (pair_confidence s t)) eqn:L.
      * apply Qltb_lt in L.
        destruct (IH (Some (build_mapping s t (pair_confidence s t)))
                    (pair_confidence s t)) as [[Hr Hall]|Hex].
        -- right. exists [], s, (filter (fun f => name f ∉ claimed) src).
           repeat split; auto.
           intros f' Hf'. apply elem_of_nil in Hf'. contradiction.
        -- right. destruct Hex as (l1 & f & l2 & Hc & Hr & Hlt & H1 & H2).
           exists (s :: l1), f, l2. repeat split; auto.
           ++ rewrite Hc. reflexivity.
           ++ eapply Qlt_trans; eassumption.
           ++ intros f' Hf'. apply elem_of_cons in Hf' as [->|Hf']; auto.
      * apply Qltb_ge in L.
        destruct (IH b0 c0) as [[Hr Hall]|Hex].
        -- left. split; [exact Hr|].
           intros f Hf. apply elem_of_cons in Hf as [->|Hf]; auto.
        -- right. destruct Hex as (l1 & f & l2 & Hc & Hr & Hlt & H1 & H2).
           exists (s :: l1), f, l2. repeat split; auto.
           ++ rewrite Hc. reflexivity.
           ++ intros f' Hf'. apply elem_of_cons in Hf' as [->|Hf']; auto.
              eapply Qle_lt_trans; eassumption.
Qed.

(** the outer loop claims exactly the source names it has mapped *)
Lemma generate_loop_claimed (source : Schema) (ts : list Field) :
  snd (generate_loop source ts)
  = list_to_set (source_field <$> fst (generate_loop source ts)).
Proof.
  unfold generate_loop. induction ts as [|t ts IH] using rev_ind.
  - reflexivity.
  - rewrite foldl_snoc.
    destruct (foldl (scan_target source) ([], ∅) ts) as [ms claimed].
    simpl in IH. unfold scan_target.
    destruct (foldl (scan_source t claimed) (None, 0%Q) (fields source))
      as [[m|] c]; [|exact IH].
    destruct (Qltb (3 # 10) c); [|exact IH].
    simpl. rewrite fmap_app, list_to_set_app_L. simpl.
    rewrite IH, (right_id_L ∅ (∪)). reflexivity.
Qed.

(** the mapping a step appends is one for its target field *)
Lemma scan_target_extends (source : Schema) (t : Field)
    (st : list FieldMapping * gset string) :
  exists rest,
    fst (scan_target source st t) = fst st ++ rest
    /\ sublist (target_field <$> rest) [name t].
Proof.
  destruct st as [ms claimed]. unfold scan_target.
  destruct (scan_source_loop t claimed (fields source) None 0%Q)
    as [[Hr _]|(l1 & f & l2 & _ & Hr & _)]; rewrite Hr.
  - exists []. simpl. rewrite app_nil_r. split; [reflexivity|].
    apply sublist_nil_l.
  - destruct (Qltb (3 # 10) (pair_confidence f t)).
    + eexists. split; [reflexivity|]. simpl.
      rewrite build_mapping_target. reflexivity.
    + exists []. simpl. rewrite app_nil_r. split; [reflexivity|].
      apply sublist_nil_l.
Qed.

(** the remaining steps only append, one target field after the other *)
Lemma scan_target_loop_extends (source : Schema) (ts : list Field) :
  forall st,
  exists rest,
    fst (foldl (scan_target source) st ts) = fst st ++ rest
    /\ sublist (target_field <$> rest) (name <$> ts).
Proof.
  induction ts as [|t ts IH]; intros st; simpl.
  - exists []. rewrite app_nil_r. split; [reflexivity | apply sublist_nil_l].
  - destruct (scan_target_extends source t st) as (r1 & E1 & S1).
    destruct (IH (scan_target source st t)) as (r2 & E2 & S2).
    exists (r1 ++ r2). split.
    + rewrite E2, E1, app_assoc. reflexivity.
    + rewrite fmap_app. apply (sublist_app _ [name t]); assumption.
Qed.

(** no source name is mapped twice by one generation pass *)
Lemma generate_loop_sources_NoDup (source : Schema) (ts : list Field) :
  NoDup (source_field <$> fst (generate_loop source ts)).
Proof.
  induction ts as [|t ts IH] using rev_ind; [apply NoDup_nil_2|].
  pose proof (generate_loop_claimed source ts) as Hcl.
  unfold generate_loop in *. rewrite foldl_snoc.
  destruct (foldl (scan_target source) ([], ∅) ts) as [ms claimed].
  simpl in IH, Hcl. unfold scan_target.
  destruct (scan_source_loop t claimed (fields source) None 0%Q)
    as [[Hr _]|(l1 & f & l2 & Hc & Hr & _)]; rewrite Hr; [exact IH|].
  destruct (Qltb (3 # 10) (pair_confidence f t)); [|exact IH].
  simpl. rewrite fmap_app. apply NoDup_app. split; [exact IH|]. split.
  - intros x Hx Hx'. simpl in Hx'. apply list_elem_of_singleton in Hx'.
    rewrite build_mapping_source in Hx'. subst x.
    assert (Hf : f ∈ filter (fun f => name f ∉ claimed) (fields source)).
    { rewrite Hc. apply elem_of_app. right. apply list_elem_of_here. }
    apply list_elem_of_filter in Hf as [Hf _]. apply Hf.
    rewrite Hcl. apply elem_of_list_to_set, Hx.
  - apply NoDup_singleton.
Qed.

(** nor is a target name, when the target schema declares each name once *)
Lemma generate_loop_targets_NoDup (source : Schema) (ts : list Field) :
  NoDup (name <$> ts) ->
  NoDup (target_field <$> fst (generate_loop source ts)).
Proof.
  intros Hnd. unfold generate_loop.
  destruct (scan_target_loop_extends source ts ([], ∅)) as (rest & E & S).
  rewrite E. simpl. eapply sublist_NoDup; eassumption.
Qed.

End GenerateFacts.

Section GenerateBinary64.
Import PrimFloat.

(** C1.  [generate_mappings], with its confidences compared as binary64
    values, returns what its loop over the target fields has accumulated
    from the empty list and the empty set of claimed names, and stores it
    in the cache; the targets of the mappings returned are names of target
    fields, in declared order.  At every target field [t], reached after
    the target fields [ts1] declared before it, the loop has claimed
    exactly the source names of the mappings accepted so far, and its step
    is one of two.  Either the unclaimed source fields, in declared order,
    split around a field [f] whose confidence against [t] is strictly
    greater than that of every unclaimed field before it, at least that of
    every unclaimed field after it, and greater than 0.3: then the mapping
    of [f] to [t] is appended and the name of [f] is claimed.  Or no
    unclaimed source field has a confidence above 0.3 against [t]: then
    nothing is appended and nothing is claimed, and no mapping of the
    output has the name of [t] as its target unless another target field
    bears that name.  The output is the list so obtained followed by
    mappings for target fields declared after [t], in their declared
    order. *)
Theorem generate_mappings_greedy (source target : Schema)
    (self : Binary64.SchemaMappingAgent) :
  let out := fst (Binary64.generate_mappings source target self) in
  Binary64.generate_loop source [] = ([], ∅)
  /\ out = fst (Binary64.generate_loop source (fields target))
  /\ Binary64._mapping_cache (snd (Binary64.generate_mappings source target self))
     !! cache_key source target = Some out
  /\ sublist (Binary64.target_field <$> out) (name <$> fields target)
  /\ forall (ts1 ts2 : list Field) (t : Field),
       fields target = ts1 ++ t :: ts2 ->
       let mappings := fst (Binary64.generate_loop source ts1) in
       let claimed := snd (Binary64.generate_loop source ts1) in
       let conf := fun f => Binary64.pair_confidence f t in
       claimed = list_to_set (Binary64.source_field <$> mappings)
       /\ sublist (Binary64.target_field <$> mappings) (name <$> ts1)
       /\ (exists rest,
             out = fst (Binary64.generate_loop source (ts1 ++ [t])) ++ rest
             /\ sublist (Binary64.target_field <$> rest) (name <$> ts2))
       /\ ((exists l1 f l2,
              candidates source claimed = l1 ++ f :: l2
              /\ (forall f', f' ∈ l1 -> ltb (conf f') (conf f) = true)
              /\ (forall f', f' ∈ l2 -> leb (conf f') (conf f) = true)
              /\ ltb 0.3 (conf f) = true
              /\ Binary64.generate_loop source (ts1 ++ [t])
                 = (mappings ++ [Binary64.build_mapping f t (conf f)],
                    claimed ∪ {[name f]})
              /\ Binary64.source_field (Binary64.build_mapping f t (conf f))
                 = name f
              /\ Binary64.target_field (Binary64.build_mapping f t (conf f))
                 = name t
              /\ Binary64.confidence (Binary64.build_mapping f t (conf f))
                 = conf f)
           \/ ((forall f', f' ∈ candidates source claimed ->
                  leb (conf f') 0.3 = true)
               /\ Binary64.generate_loop source (ts1 ++ [t])
                  = (mappings, claimed)
               /\ (name t ∉ name <$> ts1 ++ ts2 ->
                   name t ∉ Binary64.target_field <$> out))).
Proof.
  intros out.
  split; [reflexivity|]. split; [reflexivity|].
  split; [apply lookup_insert_eq|].
  split; [apply Binary64GenerateFacts.loop_targets|].
  intros ts1 ts2 t Htarget mappings claimed conf.
  split; [apply Binary64GenerateFacts.loop_claimed|].
  split; [apply Binary64GenerateFacts.loop_targets|].
  assert (Hrest : exists rest,
            out = fst (Binary64.generate_loop source (ts1 ++ [t])) ++ rest
            /\ sublist (Binary64.target_field <$> rest) (name <$> ts2)).
  { subst out. unfold Binary64.generate_mappings. simpl.
    rewrite Htarget, (cons_middle t ts1 ts2), app_assoc.
    unfold Binary64.generate_loop at 1. rewrite foldl_app.
    apply Binary64GenerateFacts.loop_appends. }
  split; [exact Hrest|].
  assert (Hsnoc : Binary64.generate_loop source (ts1 ++ [t])
                  = Binary64.scan_target source (mappings, claimed) t).
  { unfold Binary64.generate_loop. rewrite foldl_snoc.
    fold (Binary64.generate_loop source ts1).
    subst mappings claimed. rewrite <- surjective_pairing. reflexivity. }
  assert (Habsent : Binary64.generate_loop source (ts1 ++ [t])
                    = (mappings, claimed) ->
                    name t ∉ name <$> ts1 ++ ts2 ->
                    name t ∉ Binary64.target_field <$> out).
  { intros Hstep Hnot Hin. apply Hnot.
    destruct Hrest as (rest & Hout & Hsub).
    rewrite Hout, Hstep in Hin. simpl in Hin.
    rewrite fmap_app in Hin. rewrite fmap_app.
    apply elem_of_app in Hin as [Hin|Hin]; apply elem_of_app.
    - left. eapply elem_of_sublist; [exact Hin|].
      apply Binary64GenerateFacts.loop_targets.
    - right. eapply elem_of_sublist; eassumption. }
  rewrite Hsnoc in *. unfold Binary64.scan_target in *.
  destruct (Binary64GenerateFacts.scan_source_best t claimed (fields source)
              None 0%float eq_refl)
    as [[Hr Hall]|(l1 & f & l2 & Hc & Hr & Hlt & H1 & H2)]; rewrite Hr in *.
  - right. split; [|split; [reflexivity | apply Habsent; reflexivity]].
    intros f' Hf'.
    apply Binary64Facts.leb_trans with 0%float; [apply Hall, Hf' | reflexivity].
  - pose proof (Binary64ScoreFacts.pair_confidence_number f t) as Hn.
    destruct (ltb 0.3 (Binary64.pair_confidence f t)) eqn:L.
    + left. exists l1, f, l2.
      split; [exact Hc|]. split; [exact H1|]. split; [exact H2|].
      split; [exact L|].
      split; [rewrite Binary64GenerateFacts.build_source64; reflexivity|].
      split; [apply Binary64GenerateFacts.build_source64|].
      split; [apply Binary64GenerateFacts.build_target64|].
      apply Binary64GenerateFacts.build_confidence64.
    + right. apply (Binary64Facts.ltb_false_leb 0.3 _ eq_refl Hn) in L.
      split; [|split; [reflexivity | apply Habsent; reflexivity]].
      intros f' Hf'. unfold candidates in Hf'. rewrite Hc in Hf'.
      apply elem_of_app in Hf' as [Hf'|Hf'].
      * apply Binary64Facts.ltb_leb.
        eapply Binary64Facts.ltb_leb_trans; [apply H1, Hf' | exact L].
      * apply elem_of_cons in Hf' as [->|Hf']; [exact L|].
        eapply Binary64Facts.leb_trans; [apply H2, Hf' | exact L].
Qed.

End GenerateBinary64.

Section GenerateBinary64Example.
Import PrimFloat.

(** two candidates whose confidences differ in the last place: mail scores
    0.42 against id and zip scores 0.42000000000000004, so zip is the
    field mapped *)
Lemma generate_mappings_greedy_witness :
  let mail := mkField "mail" "INTEGER" false None in
  let zip := mkField "zip" "BIGINT" false None in
  let id := mkField "id" "INTEGER" false None in
  let source := mkSchema "src_v1" "src" 1 [mail; zip] 0 None in
  let target := mkSchema "tgt_v1" "tgt" 1 [id] 0 None in
  let self := Binary64.mkSchemaMappingAgent "mapper" ∅ [] in
  Binary64.pair_confidence mail id = 0.42%float
  /\ Binary64.pair_confidence zip id = 0.42000000000000004%float
  /\ fst (Binary64.generate_mappings source target self)
     = [Binary64.mkFieldMapping "zip" "id" (Some "CAST({field} AS INTEGER)")
          0.42000000000000004 TRANSFORMED].
Proof.
  intros mail zip id source target self.
  split; [vm_compute; reflexivity|]. split; [vm_compute; reflexivity|].
  destruct (generate_mappings_greedy source target self)
    as (_ & Hout & _ & _ & Hstep).
  destruct (Hstep [] [] id eq_refl) as (_ & _ & _ & Hcase).
  rewrite Hout.
  change (fields target) with ([] ++ [id]).
  destruct Hcase as [(l1 & f & l2 & Hc & H1 & H2 & Hthr & Hloop & _)|(Hall & _)].
  - rewrite Hloop.
    change (candidates source (snd (Binary64.generate_loop source [])))
      with [mail; zip] in Hc.
    destruct l1 as [|a [|b l1]]; simpl in Hc.
    + injection Hc as <- <-.
      assert (Hz : leb (Binary64.pair_confidence zip id)
                     (Binary64.pair_confidence mail id) = true)
        by (apply H2, list_elem_of_here).
      vm_compute in Hz. discriminate Hz.
    + injection Hc as <- <- <-. vm_compute. reflexivity.
    + injection Hc as _ _ Hc. destruct l1; discriminate Hc.
  - assert (Hz : leb (Binary64.pair_confidence zip id) 0.3 = true).
    { apply Hall.
      change (candidates source (snd (Binary64.generate_loop source [])))
        with [mail; zip].
      apply list_elem_of_further, list_elem_of_here. }
    vm_compute in Hz. discriminate Hz.
Defined.

End GenerateBinary64Example.

(** ** Incremental update *)

Module UpdateFacts.
Import PyDict PyDictFacts.

Lemma find_field_Some n fs f :
  find_field n fs = Some f -> name f = n /\ f ∈ fs.
Proof.
  unfold find_field. intros H. apply List.find_some in H as [Hin Heq].
  apply String.eqb_eq in Heq. split; [exact Heq|].
  apply list_elem_of_In, Hin.
Qed.

Lemma elem_of_set {V} k v (d : pydict V) e :
  e ∈ set k v d -> e = (k, v) \/ e ∈ d.
Proof.
  induction d as [|[k0 v0] d IH]; simpl.
  - intros H. apply list_elem_of_singleton in H. auto.
  - destruct (String.eqb k0 k) eqn:E.
    + apply String.eqb_eq in E. subst k0. rewrite !elem_of_cons.
      intros [->|H]; auto.
    + rewrite !elem_of_cons. intros [->|H]; auto.
      destruct (IH H); auto.
Qed.

Lemma elem_of_del {V} k (d : pydict V) e : e ∈ del k d -> e ∈ d.
Proof.
  induction d as [|[k0 v0] d IH]; simpl; [auto|].
  destruct (String.eqb k0 k).
  - apply list_elem_of_further.
  - rewrite !elem_of_cons. intros [->|H]; auto.
Qed.

(** the "added" scan either leaves the dictionary alone or stores, under
    the name of the new field, its mapping to a target field against
    which its confidence exceeds 0.5 *)
Lemma scan_added_cases new_field existing ts d :
  scan_added new_field existing ts d = d
  \/ exists t,
       t ∈ ts
       /\ (5 # 10 < pair_confidence new_field t)%Q
       /\ scan_added new_field existing ts d
          = set (name new_field)
              (build_mapping new_field t (pair_confidence new_field t)) d.
Proof.
  induction ts as [|t ts IH]; simpl; [left; reflexivity|].
  destruct (negb (str_in (name t) (mapped_targets existing))).
  - destruct (PyNum.Qltb (5 # 10) (pair_confidence new_field t)) eqn:L.
    + right. exists t. apply PyNumFacts.Qltb_lt in L.
      split; [apply list_elem_of_here|]. split; [exact L | reflexivity].
    + destruct IH as [IH|(t' & Ht' & Hc & IH)]; [left; exact IH|].
      right. exists t'. split; [apply list_elem_of_further, Ht'|]. auto.
  - destruct IH as [IH|(t' & Ht' & Hc & IH)]; [left; exact IH|].
    right. exists t'. split; [apply list_elem_of_further, Ht'|]. auto.
Qed.

Lemma apply_change_removed source target existing d c :
  change_type c = "removed" ->
  apply_change source target existing d c = del (field_name c) d.
Proof.
  intros H. unfold apply_change. rewrite H. simpl.
  destruct (get (field_name c) d) eqn:E; [reflexivity|].
  symmetry. apply del_absent, E.
Qed.

Lemma apply_change_passed_over source target existing d c :
  passed_over source c -> apply_change source target existing d c = d.
Proof.
  unfold apply_change. intros [[[H|H] Hf]|H]; rewrite H; simpl.
  - rewrite Hf. reflexivity.
  - rewrite Hf. destruct (get (field_name c) d); reflexivity.
  - reflexivity.
Qed.

Lemma apply_change_NoDup source target existing d c :
  NoDup (keys d) -> NoDup (keys (apply_change source target existing d c)).
Proof.
  intros Hd. unfold apply_change.
  destruct (String.eqb (change_type c) "added").
  { destruct (find_field (field_name c) (fields source)) as [nf|]; [|exact Hd].
    destruct (scan_added_cases nf existing (fields target) d)
      as [->|(t & _ & _ & ->)]; [exact Hd|].
    apply NoDup_keys_set, Hd. }
  destruct (String.eqb (change_type c) "removed").
  { destruct (get (field_name c) d); [|exact Hd]. apply NoDup_keys_del, Hd. }
  destruct (String.eqb (change_type c) "type_changed"); [|exact Hd].
  destruct (get (field_name c) d) as [old|]; [|exact Hd].
  destruct (find_field (field_name c) (fields source)); [|exact Hd].
  destruct (find_field (target_field old) (fields target)); [|exact Hd].
  apply NoDup_keys_set, Hd.
Qed.

Lemma update_loop_snoc source target existing cs c :
  update_loop source target existing (cs ++ [c])
  = apply_change source target existing
      (update_loop source target existing cs) c.
Proof. unfold update_loop. apply foldl_snoc. Qed.

(** the keys of the mapping dictionary stay distinct: a source field has
    at most one mapping *)
Lemma update_loop_NoDup source target existing cs :
  NoDup (keys (update_loop source target existing cs)).
Proof.
  induction cs as [|c cs IH] using rev_ind.
  - apply NoDup_keys_of_list.
  - rewrite update_loop_snoc. apply apply_change_NoDup, IH.
Qed.

Lemma update_loop_skip source target existing cs c rest :
  apply_change source target existing
    (update_loop source target existing cs) c
  = update_loop source target existing cs ->
  update_loop source target existing (cs ++ c :: rest)
  = update_loop source target existing (cs ++ rest).
Proof.
  intros H. unfold update_loop in *. rewrite !foldl_app. simpl.
  rewrite H. reflexivity.
Qed.



Lemma keyed_set k m d : source_field m = k -> keyed d -> keyed (set k m d).
Proof.
  intros Hm Hd k' m' Hin. apply elem_of_set in Hin as [[= -> ->]|Hin]; auto.
Qed.

Lemma keyed_of_list (l : list FieldMapping) : keyed (of_list source_field l).
Proof.
  unfold of_list.
  cut (forall d0, keyed d0 ->
         keyed (foldl (fun d x => set (source_field x) x d) d0 l)).
  { intros H. apply H. intros k m Hin. apply elem_of_nil in Hin.
    contradiction. }
  induction l as [|x l IH]; intros d0 H0; simpl; [exact H0|].
  apply IH, keyed_set; [reflexivity | exact H0].
Qed.

Lemma apply_change_keyed source target existing d c :
  keyed d -> keyed (apply_change source target existing d c).
Proof.
  intros Hd. unfold apply_change.
  destruct (String.eqb (change_type c) "added").
  { destruct (find_field (field_name c) (fields source)) as [nf|]; [|exact Hd].
    destruct (scan_added_cases nf existing (fields target) d)
      as [->|(t & _ & _ & ->)]; [exact Hd|].
    apply keyed_set; [apply GenerateFacts.build_mapping_source | exact Hd]. }
  destruct (String.eqb (change_type c) "removed").
  { destruct (get (field_name c) d); [|exact Hd].
    intros k m Hin. apply Hd. eapply elem_of_del, Hin. }
  destruct (String.eqb (change_type c) "type_changed"); [|exact Hd].
  destruct (get (field_name c) d) as [old|]; [|exact Hd].
  destruct (find_field (field_name c) (fields source)) as [uf|] eqn:Ef;
    [|exact Hd].
  destruct (find_field (target_field old) (fields target)); [|exact Hd].
  apply find_field_Some in Ef as [Hname _].
  apply keyed_set; [|exact Hd].
  rewrite GenerateFacts.build_mapping_source. exact Hname.
Qed.

Lemma update_loop_keyed source target existing cs :
  keyed (update_loop source target existing cs).
Proof.
  induction cs as [|c cs IH] using rev_ind.
  - apply keyed_of_list.
  - rewrite update_loop_snoc. apply apply_change_keyed, IH.
Qed.

Lemma keyed_sources d : keyed d -> source_field <$> values d = keys d.
Proof.
  unfold values, keys. induction d as [|[k m] d IH]; intros Hd; simpl;
    [reflexivity|].
  rewrite (Hd k m) by apply list_elem_of_here. f_equal.
  apply IH. intros k' m' Hin. apply Hd, list_elem_of_further, Hin.
Qed.

(** the list [update_mappings] returns has each source field at most once *)
Lemma update_mappings_sources_NoDup cs source target self :
  NoDup (source_field <$> fst (update_mappings cs source target self)).
Proof.
  unfold update_mappings. simpl.
  rewrite keyed_sources by apply update_loop_keyed.
  apply update_loop_NoDup.
Qed.

End UpdateFacts.



(** C2 on a batch of two added changes.  With nothing cached, a source
    schema [email, e_mail] and a target schema [email], the two added
    changes are each mapped to the target field email: the scan for a free
    target field consults the mappings read from the cache when the call
    started, not the mappings created earlier in the same call.  The
    source fields of the result are distinct, its target fields are not. *)
Theorem update_mappings_batch_shares_target :
  let email := mkField "email" "VARCHAR" true None in
  let e_mail := mkField "e_mail" "VARCHAR" true None in
  let source := mkSchema "src_v2" "src" 2 [email; e_mail] 0 None in
  let target := mkSchema "tgt_v1" "tgt" 1 [email] 0 None in
  let self := mkSchemaMappingAgent "mapper" ∅ [] in
  let batch :=
    [ mkSchemaChange "src" "added" "email" None (Some "VARCHAR");
      mkSchemaChange "src" "added" "e_mail" None (Some "VARCHAR") ] in
  fst (update_mappings batch source target self)
  = [ mkFieldMapping "email" "email" None 1 DIRECT;
      mkFieldMapping "e_mail" "email" None 1 DIRECT ]
  /\ ~ NoDup (target_field <$> fst (update_mappings batch source target self)).
Proof.
  intros email e_mail source target self batch.
  assert (E : fst (update_mappings batch source target self)
              = [ mkFieldMapping "email" "email" None 1 DIRECT;
                  mkFieldMapping "e_mail" "email" None 1 DIRECT ])
    by (vm_compute; reflexivity).
  split; [exact E|]. rewrite E. simpl. intros H.
  apply NoDup_cons in H as [H _]. apply H, list_elem_of_here.
Qed.

(** * Further properties of the code *)

(** ** Normalized type names *)

Module NormalizeFacts.
Import PyStr.

Ltac each_char c :=
  destruct c as [[] [] [] [] [] [] [] []]; vm_compute; reflexivity.

Lemma upper_char_idem c : upper_char (upper_char c) = upper_char c.
Proof. each_char c. Qed.

Lemma upper_lower_char c : upper_char (lower_char c) = upper_char c.
Proof. each_char c. Qed.

Lemma upper_char_open c : Ascii.eqb (upper_char c) "(" = Ascii.eqb c "(".
Proof. each_char c. Qed.

Lemma upper_char_close c : Ascii.eqb (upper_char c) ")" = Ascii.eqb c ")".
Proof. each_char c. Qed.

Lemma upper_char_space c : is_space (upper_char c) = is_space c.
Proof. each_char c. Qed.

Lemma upper_idem s : upper (upper s) = upper s.
Proof.
  unfold upper. induction s as [|c s IH]; simpl; [reflexivity|].
  rewrite upper_char_idem, IH. reflexivity.
Qed.

Lemma upper_lower s : upper (lower s) = upper s.
Proof.
  unfold upper, lower. induction s as [|c s IH]; simpl; [reflexivity|].
  rewrite upper_lower_char, IH. reflexivity.
Qed.

Lemma upper_app s1 s2 : upper (s1 ++ s2)%string = (upper s1 ++ upper s2)%string.
Proof.
  unfold upper. induction s1 as [|c s1 IH]; simpl; [reflexivity|].
  rewrite IH. reflexivity.
Qed.

Lemma has_close_upper s : has_char ")" (upper s) = has_char ")" s.
Proof.
  unfold upper. induction s as [|c s IH]; simpl; [reflexivity|].
  rewrite upper_char_close, IH. reflexivity.
Qed.

Lemma has_open_upper s : has_char "(" (upper s) = has_char "(" s.
Proof.
  unfold upper. induction s as [|c s IH]; simpl; [reflexivity|].
  rewrite upper_char_open, IH. reflexivity.
Qed.

(** upper-casing commutes with the removal of groups and with stripping *)
Lemma upper_sub_parens s : forall inside,
  upper (sub_parens inside s) = sub_parens inside (upper s).
Proof.
  induction s as [|c s IH]; intros inside; [reflexivity|].
  change (upper (String c s)) with (String (upper_char c) (upper s)).
  simpl. rewrite upper_char_open, upper_char_close, has_close_upper.
  destruct inside.
  - destruct (Ascii.eqb c ")"); apply IH.
  - destruct (Ascii.eqb c "(").
    + destruct (has_char ")" s); [apply IH | reflexivity].
    + change (upper (String c (sub_parens false s)))
        with (String (upper_char c) (upper (sub_parens false s))).
      rewrite IH. reflexivity.
Qed.

Lemma upper_lstrip s : upper (lstrip s) = lstrip (upper s).
Proof.
  induction s as [|c s IH]; [reflexivity|].
  change (upper (String c s)) with (String (upper_char c) (upper s)).
  simpl. rewrite upper_char_space. destruct (is_space c); [exact IH | reflexivity].
Qed.

Lemma upper_rstrip s : upper (rstrip s) = rstrip (upper s).
Proof.
  induction s as [|c s IH]; [reflexivity|].
  change (upper (String c s)) with (String (upper_char c) (upper s)).
  simpl. rewrite <- IH, upper_char_space.
  destruct (rstrip s); [destruct (is_space c)|]; reflexivity.
Qed.

Lemma upper_strip s : upper (strip s) = strip (upper s).
Proof. unfold strip. rewrite upper_rstrip, upper_lstrip. reflexivity. Qed.

(** stripping twice strips once *)
Lemma rstrip_idem s : rstrip (rstrip s) = rstrip s.
Proof.
  induction s as [|c s IH]; [reflexivity|]. simpl.
  destruct (rstrip s) as [|c' r'] eqn:E.
  - destruct (is_space c) eqn:Ec; [reflexivity|]. simpl. rewrite Ec.
    reflexivity.
  - change (rstrip (String c (String c' r')))
      with (match rstrip (String c' r') with
            | EmptyString =>
                if is_space c then EmptyString else String c EmptyString
            | r'' => String c r''
            end).
    rewrite IH. reflexivity.
Qed.

Lemma lstrip_head s :
  lstrip s = EmptyString
  \/ exists c r, lstrip s = String c r /\ is_space c = false.
Proof.
  induction s as [|c s IH]; [left; reflexivity|]. simpl.
  destruct (is_space c) eqn:E; [exact IH|]. right. eauto.
Qed.

Lemma rstrip_head c r :
  is_space c = false -> exists r', rstrip (String c r) = String c r'.
Proof.
  intros E. simpl. destruct (rstrip r); [rewrite E|]; eauto.
Qed.

Lemma strip_idem s : strip (strip s) = strip s.
Proof.
  unfold strip. destruct (lstrip_head s) as [->|(c & r & -> & Ec)];
    [reflexivity|].
  destruct (rstrip_head c r Ec) as [r' E]. rewrite E.
  simpl lstrip. rewrite Ec, <- E. apply rstrip_idem.
Qed.

(** once the groups are removed none is left, also after stripping *)
Lemma no_close_no_group s : has_char ")" s = false -> no_group s = true.
Proof.
  induction s as [|c s IH]; [reflexivity|]. simpl.
  intros H. apply orb_false_elim in H as [_ H]. rewrite H, IH by exact H.
  destruct (Ascii.eqb c "("); reflexivity.
Qed.

Lemma no_group_sub_parens s : forall inside,
  no_group (sub_parens inside s) = true.
Proof.
  induction s as [|c s IH]; intros inside; [reflexivity|]. simpl.
  destruct inside.
  - destruct (Ascii.eqb c ")"); apply IH.
  - destruct (Ascii.eqb c "(") eqn:Ec.
    + destruct (has_char ")" s) eqn:Eh; [apply IH|].
      simpl. rewrite Ec, Eh. simpl. apply no_close_no_group, Eh.
    + simpl. rewrite Ec. apply IH.
Qed.

Lemma sub_parens_no_group s : no_group s = true -> sub_parens false s = s.
Proof.
  induction s as [|c s IH]; [reflexivity|]. simpl.
  intros H. apply andb_prop in H as [H1 H2].
  destruct (Ascii.eqb c "(").
  - apply negb_true_iff in H1. rewrite H1. reflexivity.
  - rewrite IH by exact H2. reflexivity.
Qed.

Lemma no_group_lstrip s : no_group s = true -> no_group (lstrip s) = true.
Proof.
  induction s as [|c s IH]; [reflexivity|]. simpl. intros H.
  destruct (is_space c); [|exact H].
  apply andb_prop in H as [_ H]. apply IH, H.
Qed.

Lemma has_char_rstrip x s : has_char x (rstrip s) = true -> has_char x s = true.
Proof.
  induction s as [|c s IH]; [discriminate|]. simpl.
  destruct (rstrip s) as [|c' r'] eqn:E.
  - destruct (is_space c); [discriminate|]. simpl.
    rewrite orb_false_r. intros ->. reflexivity.
  - intros H. change (has_char x (String c (String c' r')))
      with (Ascii.eqb c x || has_char x (String c' r')) in H.
    apply orb_prop in H as [->|H]; [reflexivity|].
    rewrite IH by exact H. apply orb_true_r.
Qed.

Lemma no_group_rstrip s : no_group s = true -> no_group (rstrip s) = true.
Proof.
  induction s as [|c s IH]; [reflexivity|]. simpl. intros H.
  apply andb_prop in H as [H1 H2]. specialize (IH H2).
  destruct (rstrip s) as [|c' r'] eqn:E.
  - destruct (is_space c); [reflexivity|]. simpl.
    destruct (Ascii.eqb c "("); reflexivity.
  - change (no_group (String c (String c' r')))
      with ((if Ascii.eqb c "("
             then negb (has_char ")" (String c' r')) else true)
            && no_group (String c' r')).
    rewrite IH, andb_true_r.
    destruct (Ascii.eqb c "("); [|reflexivity].
    apply negb_true_iff in H1. apply negb_true_iff.
    destruct (has_char ")" (String c' r')) eqn:Eh; [|reflexivity].
    rewrite <- E in Eh. apply has_char_rstrip in Eh. congruence.
Qed.

Lemma no_group_normalize s : no_group (_normalize_type s) = true.
Proof.
  unfold _normalize_type, strip.
  apply no_group_rstrip, no_group_lstrip, no_group_sub_parens.
Qed.

Lemma upper_normalize s : upper (_normalize_type s) = _normalize_type s.
Proof.
  unfold _normalize_type.
  rewrite upper_strip, upper_sub_parens, upper_idem. reflexivity.
Qed.

Lemma normalize_idem s : _normalize_type (_normalize_type s) = _normalize_type s.
Proof.
  unfold _normalize_type at 1.
  rewrite upper_normalize, sub_parens_no_group by apply no_group_normalize.
  unfold _normalize_type. apply strip_idem.
Qed.

(** removal of a trailing size specification *)
Lemma sub_parens_app_no_open s1 s2 :
  has_char "(" s1 = false ->
  sub_parens false (s1 ++ s2)%string = (s1 ++ sub_parens false s2)%string.
Proof.
  induction s1 as [|c s1 IH]; [reflexivity|]. simpl. intros H.
  apply orb_false_elim in H as [Hc H]. rewrite Hc, IH by exact H.
  reflexivity.
Qed.

Lemma sub_parens_no_open s :
  has_char "(" s = false -> sub_parens false s = s.
Proof.
  induction s as [|c s IH]; [reflexivity|]. simpl. intros H.
  apply orb_false_elim in H as [Hc H]. rewrite Hc, IH by exact H.
  reflexivity.
Qed.

Lemma sub_parens_inside_no_close p rest :
  has_char ")" p = false ->
  sub_parens true (p ++ String ")" rest)%string = sub_parens false rest.
Proof.
  induction p as [|c p IH]; [reflexivity|]. simpl. intros H.
  apply orb_false_elim in H as [Hc H]. rewrite Hc. apply IH, H.
Qed.

Lemma has_char_app x s1 s2 :
  has_char x (s1 ++ s2)%string = has_char x s1 || has_char x s2.
Proof.
  induction s1 as [|c s1 IH]; [reflexivity|]. simpl.
  rewrite IH, orb_assoc. reflexivity.
Qed.

Lemma app_empty_r s : (s ++ "")%string = s.
Proof.
  induction s as [|c s IH]; [reflexivity|].
  change (String c (s ++ "")%string = String c s). rewrite IH. reflexivity.
Qed.

End NormalizeFacts.

(** X1.  Normalizing a type name twice gives what normalizing it once
    gives. *)
Theorem normalize_type_idempotent (data_type : string) :
  _normalize_type (_normalize_type data_type) = _normalize_type data_type.
Proof. apply NormalizeFacts.normalize_idem. Qed.

(** X2.  A size specification appended to a type name is dropped: when
    [base] has no opening and [size] no closing parenthesis, the type
    [base(size)] normalizes as [base] does. *)
Theorem normalize_type_size_suffix (base size : string) :
  PyStr.has_char "(" base = false ->
  PyStr.has_char ")" size = false ->
  _normalize_type (base ++ "(" ++ size ++ ")")%string = _normalize_type base.
Proof.
  intros Hb Hs. unfold _normalize_type.
  rewrite NormalizeFacts.upper_app.
  rewrite NormalizeFacts.sub_parens_app_no_open
    by (rewrite NormalizeFacts.has_open_upper; exact Hb).
  rewrite (NormalizeFacts.sub_parens_no_open (PyStr.upper base))
    by (rewrite NormalizeFacts.has_open_upper; exact Hb).
  assert (E : PyStr.sub_parens false (PyStr.upper ("(" ++ size ++ ")")%string)
              = ""%string).
  { change (PyStr.upper ("(" ++ size ++ ")")%string)
      with (String "(" (PyStr.upper (size ++ ")")%string)).
    rewrite NormalizeFacts.upper_app.
    change (PyStr.upper ")") with ")"%string.
    cbn [PyStr.sub_parens Ascii.eqb Bool.eqb].
    rewrite NormalizeFacts.has_char_app. simpl PyStr.has_char at 2.
    rewrite orb_true_r.
    apply (NormalizeFacts.sub_parens_inside_no_close (PyStr.upper size) "").
    rewrite NormalizeFacts.has_close_upper. exact Hs. }
  rewrite E, NormalizeFacts.app_empty_r. reflexivity.
Qed.

(** VARCHAR(255) and DECIMAL(10,2), as in the tests of the agent *)
Lemma normalize_type_size_suffix_witness :
  _normalize_type "varchar(255)" = _normalize_type "varchar"
  /\ _normalize_type "DECIMAL(10,2)" = _normalize_type "DECIMAL".
Proof.
  split.
  - apply (normalize_type_size_suffix "varchar" "255"); reflexivity.
  - apply (normalize_type_size_suffix "DECIMAL" "10,2"); reflexivity.
Defined.

(** X3.  Type compatibility looks at normalized names only: a type is
    compatible with itself, types that are identical are compatible, and
    neither normalizing nor lower-casing an argument changes the verdict. *)
Theorem type_compatibility_normal_forms (source_type target_type : string) :
  _check_type_compatibility source_type source_type = true
  /\ (_are_types_identical source_type target_type = true ->
      _check_type_compatibility source_type target_type = true)
  /\ _check_type_compatibility (_normalize_type source_type)
       (_normalize_type target_type)
     = _check_type_compatibility source_type target_type
  /\ _check_type_compatibility (PyStr.lower source_type)
       (PyStr.lower target_type)
     = _check_type_compatibility source_type target_type.
Proof.
  unfold _check_type_compatibility, _are_types_identical.
  split; [|split; [|split]].
  - rewrite String.eqb_refl. reflexivity.
  - intros ->. reflexivity.
  - rewrite !NormalizeFacts.normalize_idem. reflexivity.
  - assert (E : forall s, _normalize_type (PyStr.lower s) = _normalize_type s).
    { intros s. unfold _normalize_type.
      rewrite NormalizeFacts.upper_lower. reflexivity. }
    rewrite !E. reflexivity.
Qed.

(** identical up to case and size *)
Lemma type_compatibility_normal_forms_witness :
  _check_type_compatibility "varchar(10)" "VARCHAR(255)" = true.
Proof.
  apply (proj1 (proj2 (type_compatibility_normal_forms "varchar(10)"
                         "VARCHAR(255)"))).
  reflexivity.
Defined.

(** ** The boosts of the name similarity and the confidence *)

Module ScoreFacts.
Import PyNum PyNumFacts SimilarityInv.

Lemma py_min_le_r a b : (py_min a b <= b)%Q.
Proof.
  unfold py_min. destruct (Qltb b a) eqn:E.
  - apply Qle_refl.
  - apply Qltb_ge, E.
Qed.

Lemma py_min_mono a b b' : (b <= b')%Q -> (py_min a b <= py_min a b')%Q.
Proof.
  intros H. apply py_min_glb; [apply py_min_le_l|].
  eapply Qle_trans; [apply py_min_le_r | exact H].
Qed.

Lemma py_max_mono a b b' : (b <= b')%Q -> (py_max a b <= py_max a b')%Q.
Proof.
  intros H. apply py_max_lub; [apply py_max_ge_l|].
  eapply Qle_trans; [exact H | apply py_max_ge_r].
Qed.

Lemma abbreviation_step_ge norm1 norm2 r entry :
  (r <= abbreviation_step norm1 norm2 r entry)%Q.
Proof.
  destruct entry as [abbr full]. simpl.
  destruct (_ || _); [apply py_max_ge_l | apply Qle_refl].
Qed.

Lemma abbreviation_loop_ge norm1 norm2 (l : list (string * string)) :
  forall r, (r <= foldl (abbreviation_step norm1 norm2) r l)%Q.
Proof.
  induction l as [|e l IH]; intros r; simpl; [apply Qle_refl|].
  eapply Qle_trans; [apply abbreviation_step_ge | apply IH].
Qed.

Lemma abbreviation_loop_hit norm1 norm2 abbr full (l : list (string * string)) :
  (abbr, full) ∈ l ->
  (norm1 = abbr /\ norm2 = full) \/ (norm1 = full /\ norm2 = abbr) ->
  forall r, (9 # 10 <= foldl (abbreviation_step norm1 norm2) r l)%Q.
Proof.
  intros Hin Hm. induction l as [|e l IH]; intros r.
  - apply elem_of_nil in Hin. contradiction.
  - simpl. apply elem_of_cons in Hin as [<-|Hin]; [|apply IH, Hin].
    eapply Qle_trans; [|apply abbreviation_loop_ge].
    simpl.
    replace ((String.eqb norm1 abbr && String.eqb norm2 full)
             || (String.eqb norm1 full && String.eqb norm2 abbr)) with true.
    + apply py_max_ge_r.
    + symmetry. destruct Hm as [[-> ->]|[-> ->]];
        rewrite !String.eqb_refl; [reflexivity | apply orb_true_r].
Qed.

Lemma boosted_contains norm1 norm2 r :
  PyStr.contains norm1 norm2 || PyStr.contains norm2 norm1 = true ->
  (8 # 10 <= boosted norm1 norm2 r)%Q.
Proof.
  intros H. unfold boosted. rewrite H.
  eapply Qle_trans; [apply py_max_ge_r | apply abbreviation_loop_ge].
Qed.

(** the confidence grows with the similarity *)
Lemma calculate_confidence_mono s1 s2 tc f t :
  (s1 <= s2)%Q ->
  (_calculate_confidence s1 tc f t <= _calculate_confidence s2 tc f t)%Q.
Proof.
  intros H. unfold _calculate_confidence.
  destruct (negb tc),
    (_are_types_identical (data_type f) (data_type t)),
    (nullable f), (nullable t); simpl;
    repeat first
      [ exact H
      | apply py_min_mono
      | apply py_max_mono
      | apply Qmult_le_compat_r; [|discriminate] ].
Qed.

Lemma identical_compatible a b :
  _are_types_identical a b = true -> _check_type_compatibility a b = true.
Proof.
  unfold _are_types_identical, _check_type_compatibility. intros ->.
  reflexivity.
Qed.

Lemma pair_confidence_unit f t : (0 <= pair_confidence f t <= 1)%Q.
Proof. unfold pair_confidence, _calculate_confidence. apply clamp_unit. Qed.

(** incompatible types leave at most 0.3 * 1.05 of the similarity *)
Lemma pair_confidence_incompatible f t :
  _check_type_compatibility (data_type f) (data_type t) = false ->
  (pair_confidence f t <= 315 # 1000)%Q.
Proof.
  intros Hc.
  assert (Hi : _are_types_identical (data_type f) (data_type t) = false).
  { destruct (_are_types_identical _ _) eqn:E; [|reflexivity].
    apply identical_compatible in E. congruence. }
  unfold pair_confidence, _calculate_confidence. rewrite Hc, Hi.
  pose proof (SimilarityFacts.similarity_unit (name f) (name t)) as [H0 H1].
  set (s := _calculate_name_similarity (name f) (name t)) in *.
  eapply Qle_trans; [apply py_min_le_r|].
  apply py_max_lub; [discriminate|].
  destruct (nullable f), (nullable t); simpl.
  - eapply Qle_trans; [apply py_min_le_r|]. lra.
  - lra.
  - lra.
  - eapply Qle_trans; [apply py_min_le_r|]. lra.
Qed.

End ScoreFacts.

(** X4.  When one normalized name is found inside the other, the
    similarity of the two names is at least 0.8. *)
Theorem name_similarity_substring_boost (name1 name2 : string) :
  PyStr.contains (normalize_name name1) (normalize_name name2) = true
  \/ PyStr.contains (normalize_name name2) (normalize_name name1) = true ->
  (8 # 10 <= _calculate_name_similarity name1 name2)%Q.
Proof.
  intros H. rewrite SimilarityFacts.similarity_unfold.
  destruct (String.eqb _ _); [discriminate|].
  apply ScoreFacts.boosted_contains.
  destruct H as [-> | ->]; [reflexivity | apply orb_true_r].
Qed.

(** user_id against id and email_addr against email, as in the tests *)
Lemma name_similarity_substring_boost_witness :
  (8 # 10 <= _calculate_name_similarity "user_id" "id")%Q
  /\ (8 # 10 <= _calculate_name_similarity "email" "Email-Addr")%Q.
Proof.
  split.
  - apply (name_similarity_substring_boost "user_id" "id").
    right. reflexivity.
  - apply (name_similarity_substring_boost "email" "Email-Addr").
    left. reflexivity.
Defined.

(** X5.  When the two normalized names are an abbreviation of the table
    and its long form, in either order, the similarity is at least 0.9. *)
Theorem name_similarity_abbreviation_boost (name1 name2 abbr full : string) :
  (abbr, full) ∈ common_abbreviations ->
  normalize_name name1 = abbr ->
  normalize_name name2 = full ->
  (9 # 10 <= _calculate_name_similarity name1 name2)%Q
  /\ (9 # 10 <= _calculate_name_similarity name2 name1)%Q.
Proof.
  intros Hin H1 H2. rewrite !SimilarityFacts.similarity_unfold, H1, H2.
  split.
  - destruct (String.eqb abbr full); [discriminate|].
    unfold SimilarityInv.boosted.
    apply (ScoreFacts.abbreviation_loop_hit abbr full abbr full); auto.
  - destruct (String.eqb full abbr); [discriminate|].
    unfold SimilarityInv.boosted.
    apply (ScoreFacts.abbreviation_loop_hit full abbr abbr full); auto.
Qed.

(** qty against quantity, with separators and capitals *)
Lemma name_similarity_abbreviation_boost_witness :
  (9 # 10 <= _calculate_name_similarity "QTY" "quan_tity")%Q
  /\ (9 # 10 <= _calculate_name_similarity "quan_tity" "QTY")%Q.
Proof.
  apply (name_similarity_abbreviation_boost "QTY" "quan_tity" "qty" "quantity").
  - unfold common_abbreviations.
    do 2 apply list_elem_of_further. apply list_elem_of_here.
  - reflexivity.
  - reflexivity.
Defined.

(** X6.  For a fixed pair of fields and a fixed compatibility flag, a
    greater similarity never gives a smaller confidence. *)
Theorem calculate_confidence_monotone (s1 s2 : Q) (type_compatible : bool)
    (source_field target_field : Field) :
  (s1 <= s2)%Q ->
  (_calculate_confidence s1 type_compatible source_field target_field
   <= _calculate_confidence s2 type_compatible source_field target_field)%Q.
Proof. apply ScoreFacts.calculate_confidence_mono. Qed.

(** similarities 0.5 and 0.75 *)
Lemma calculate_confidence_monotone_witness :
  let f := mkField "a" "INTEGER" false None in
  (_calculate_confidence (1 # 2) true f f
   <= _calculate_confidence (3 # 4) true f f)%Q.
Proof.
  intros f. apply (calculate_confidence_monotone (1 # 2) (3 # 4) true f f).
  discriminate.
Defined.

(** X7.  The confidence of a pair of fields whose types are incompatible
    is at most 0.315; so a pair whose confidence exceeds 0.5, the bar of
    the incremental updater, has compatible types. *)
Theorem pair_confidence_incompatible_cap (source_field target_field : Field) :
  (_check_type_compatibility (data_type source_field) (data_type target_field)
   = false ->
   (pair_confidence source_field target_field <= 315 # 1000)%Q)
  /\ ((5 # 10 < pair_confidence source_field target_field)%Q ->
      _check_type_compatibility (data_type source_field)
        (data_type target_field) = true).
Proof.
  split; [apply ScoreFacts.pair_confidence_incompatible|].
  intros H.
  destruct (_check_type_compatibility _ _) eqn:E; [reflexivity|].
  apply ScoreFacts.pair_confidence_incompatible in E. lra.
Qed.

(** an integer field against a text field of the same name *)
Lemma pair_confidence_incompatible_cap_witness :
  (pair_confidence (mkField "id" "INTEGER" false None)
     (mkField "id" "VARCHAR" false None) <= 315 # 1000)%Q.
Proof.
  apply (proj1 (pair_confidence_incompatible_cap
                  (mkField "id" "INTEGER" false None)
                  (mkField "id" "VARCHAR" false None))).
  reflexivity.
Defined.

(** X8.  Two fields whose names normalize alike, whose types are
    identical and whose nullability flags are equal have confidence
    exactly 1. *)
Theorem pair_confidence_exact_match (source_field target_field : Field) :
  normalize_name (name source_field) = normalize_name (name target_field) ->
  _are_types_identical (data_type source_field) (data_type target_field) = true ->
  nullable source_field = nullable target_field ->
  pair_confidence source_field target_field = 1%Q.
Proof.
  intros Hn Hi Hnull. unfold pair_confidence.
  rewrite (SimilarityFacts.similarity_equal_normalized _ _ Hn).
  rewrite (ScoreFacts.identical_compatible _ _ Hi).
  unfold _calculate_confidence. rewrite Hi, Hnull.
  destruct (nullable target_field); reflexivity.
Qed.

(** user_id : integer(10) against USER-ID : INTEGER *)
Lemma pair_confidence_exact_match_witness :
  pair_confidence (mkField "user_id" "integer(10)" false None)
    (mkField "USER-ID" "INTEGER" false None) = 1%Q.
Proof.
  apply (pair_confidence_exact_match
           (mkField "user_id" "integer(10)" false None)
           (mkField "USER-ID" "INTEGER" false None)); reflexivity.
Defined.

Section PublicConfidence.
Import PrimFloat.

(** X9.  The public [calculate_confidence] reads only the two names and
    the kind of a mapping: two mappings that agree on them get the same
    score, whatever confidence and transformation they store, over exact
    rationals as over binary64.  Over exact rationals the score lies in
    [0,1], and for the same two names a derived mapping scores at most
    what a transformed one scores, which scores at most what a direct one
    scores.  Over binary64 the transformed mapping of user_id to id
    scores 0.7200000000000001. *)
Theorem calculate_confidence_by_kind (source target : string)
    (t1 t2 t3 : option string) (c1 c2 c3 : Q) (mapping mapping' : FieldMapping)
    (m64 m64' : Binary64.FieldMapping) :
  (source_field mapping = source_field mapping' ->
   target_field mapping = target_field mapping' ->
   mapping_type mapping = mapping_type mapping' ->
   calculate_confidence mapping = calculate_confidence mapping')
  /\ (Binary64.source_field m64 = Binary64.source_field m64' ->
      Binary64.target_field m64 = Binary64.target_field m64' ->
      Binary64.mapping_type m64 = Binary64.mapping_type m64' ->
      Binary64.calculate_confidence m64 = Binary64.calculate_confidence m64')
  /\ (0 <= calculate_confidence mapping <= 1)%Q
  /\ (calculate_confidence (mkFieldMapping source target t3 c3 DERIVED)
      <= calculate_confidence (mkFieldMapping source target t2 c2 TRANSFORMED))%Q
  /\ (calculate_confidence (mkFieldMapping source target t2 c2 TRANSFORMED)
      <= calculate_confidence (mkFieldMapping source target t1 c1 DIRECT))%Q
  /\ Binary64.calculate_confidence
       (Binary64.mkFieldMapping "user_id" "id" None 0 TRANSFORMED)
     = 0.7200000000000001%float.
Proof.
  split; [|split].
  - intros Hs Ht Hk. unfold calculate_confidence. rewrite Hs, Ht, Hk.
    reflexivity.
  - intros Hs Ht Hk. unfold Binary64.calculate_confidence.
    rewrite Hs, Ht, Hk. reflexivity.
  - unfold calculate_confidence. simpl.
    pose proof (SimilarityFacts.similarity_unit (source_field mapping)
                  (target_field mapping)) as [Ha Hb].
    pose proof (SimilarityFacts.similarity_unit source target) as [Hc Hd].
    split; [|split; [lra|split; [lra|vm_compute; reflexivity]]].
    destruct (mapping_type mapping); split; lra.
Qed.

(** two transformed mappings of user_id to id that store different
    confidences and transformations *)
Lemma calculate_confidence_by_kind_witness :
  calculate_confidence
    (mkFieldMapping "user_id" "id" (Some "CAST({field} AS BIGINT)") (1 # 2)
       TRANSFORMED)
  = calculate_confidence (mkFieldMapping "user_id" "id" None 0 TRANSFORMED).
Proof.
  apply (proj1 (calculate_confidence_by_kind "user_id" "id" None None None
                  0 0 0
                  (mkFieldMapping "user_id" "id"
                     (Some "CAST({field} AS BIGINT)") (1 # 2) TRANSFORMED)
                  (mkFieldMapping "user_id" "id" None 0 TRANSFORMED)
                  (Binary64.mkFieldMapping "user_id" "id" None 0 TRANSFORMED)
                  (Binary64.mkFieldMapping "user_id" "id" None 0 TRANSFORMED)));
    reflexivity.
Defined.

End PublicConfidence.

(** ** What a generation pass returns *)

Module GenerateMore.
Import PyNum PyNumFacts.

(** every mapping accumulated pairs a source field with one of the target
    fields processed, with a confidence above the threshold *)
Lemma generate_loop_elements (source : Schema) (ts : list Field) :
  forall m, m ∈ fst (generate_loop source ts) ->
    exists f t,
      f ∈ fields source /\ t ∈ ts
      /\ m = build_mapping f t (pair_confidence f t)
      /\ (3 # 10 < pair_confidence f t)%Q.
Proof.
  induction ts as [|t ts IH] using rev_ind; intros m Hm.
  - apply elem_of_nil in Hm. contradiction.
  - unfold generate_loop in Hm. rewrite foldl_snoc in Hm.
    fold (generate_loop source ts) in Hm.
    destruct (generate_loop source ts) as [ms claimed] eqn:E.
    simpl in IH. unfold scan_target in Hm.
    assert (Hold : m ∈ ms ->
                   exists f t0, f ∈ fields source /\ t0 ∈ ts ++ [t]
                     /\ m = build_mapping f t0 (pair_confidence f t0)
                     /\ (3 # 10 < pair_confidence f t0)%Q).
    { intros H. destruct (IH m H) as (f & t0 & ? & ? & ? & ?).
      exists f, t0. repeat split; auto. apply elem_of_app. auto. }
    destruct (GenerateFacts.scan_source_loop t claimed (fields source) None 0%Q)
      as [[Hr _]|(l1 & f & l2 & Hc & Hr & _)]; rewrite Hr in Hm;
      [apply Hold, Hm|].
    destruct (Qltb (3 # 10) (pair_confidence f t)) eqn:L; [|apply Hold, Hm].
    simpl in Hm. apply elem_of_app in Hm as [Hm|Hm]; [apply Hold, Hm|].
    apply list_elem_of_singleton in Hm. apply Qltb_lt in L.
    exists f, t. repeat split; auto.
    + assert (Hf : f ∈ filter (fun f => name f ∉ claimed) (fields source)).
      { rewrite Hc. apply elem_of_app. right. apply list_elem_of_here. }
      apply list_elem_of_filter in Hf as [_ Hf]. exact Hf.
    + apply elem_of_app. right. apply list_elem_of_here.
Qed.

Lemma build_mapping_kind f t c :
  (mapping_type (build_mapping f t c) = DIRECT
   <-> _are_types_identical (data_type f) (data_type t) = true)
  /\ mapping_type (build_mapping f t c) <> DERIVED
  /\ (transformation (build_mapping f t c) = None
      <-> mapping_type (build_mapping f t c) = DIRECT).
Proof.
  unfold build_mapping.
  destruct (_are_types_identical (data_type f) (data_type t)); simpl;
    repeat split; intros; try discriminate; reflexivity.
Qed.

End GenerateMore.

(** X10.  Every mapping [generate_mappings] returns joins a field of the
    source schema to a field of the target schema with the confidence of
    that pair, which is above 0.3 and at most 1; it is direct exactly when
    the two types are identical, carries a transformation exactly when it
    is not direct, and is never derived. *)
Theorem generate_mappings_entries (source target : Schema)
    (self : SchemaMappingAgent) (m : FieldMapping) :
  m ∈ fst (generate_mappings source target self) ->
  (exists f t,
     f ∈ fields source /\ t ∈ fields target
     /\ source_field m = name f /\ target_field m = name t
     /\ confidence m = pair_confidence f t
     /\ (mapping_type m = DIRECT
         <-> _are_types_identical (data_type f) (data_type t) = true))
  /\ (3 # 10 < confidence m <= 1)%Q
  /\ mapping_type m <> DERIVED
  /\ (transformation m = None <-> mapping_type m = DIRECT).
Proof.
  intros Hm. simpl in Hm.
  destruct (GenerateMore.generate_loop_elements source (fields target) m Hm)
    as (f & t & Hf & Ht & -> & Hc).
  destruct (GenerateMore.build_mapping_kind f t (pair_confidence f t))
    as (Hk1 & Hk2 & Hk3).
  rewrite GenerateFacts.build_mapping_confidence.
  split; [|split; [|split]]; auto.
  - exists f, t. split; [exact Hf|]. split; [exact Ht|].
    split; [apply GenerateFacts.build_mapping_source|].
    split; [apply GenerateFacts.build_mapping_target|].
    split; [reflexivity | exact Hk1].
  - split; [exact Hc | apply ScoreFacts.pair_confidence_unit].
Qed.

(** the first mapping of the three-field example *)
Lemma generate_mappings_entries_witness :
  let user_id := mkField "user_id" "INTEGER" false None in
  let id := mkField "id" "BIGINT" false None in
  let source := mkSchema "src_v1" "src" 1 [user_id] 0 None in
  let target := mkSchema "tgt_v1" "tgt" 1 [id] 0 None in
  let self := mkSchemaMappingAgent "mapper" ∅ [] in
  (3 # 10 < confidence (build_mapping user_id id (pair_confidence user_id id)))%Q.
Proof.
  intros user_id id source target self.
  apply (generate_mappings_entries source target self
           (build_mapping user_id id (pair_confidence user_id id))).
  vm_compute. apply list_elem_of_here.
Defined.

(** X11.  In the list [generate_mappings] returns no source field occurs
    twice, and no target field either when the target schema declares each
    name once; the list is no longer than either schema, so it is empty
    when one of them has no field. *)
Theorem generate_mappings_distinct (source target : Schema)
    (self : SchemaMappingAgent) :
  let out := fst (generate_mappings source target self) in
  NoDup (source_field <$> out)
  /\ (NoDup (name <$> fields target) -> NoDup (target_field <$> out))
  /\ (length out <= length (fields target))%nat
  /\ (length out <= length (fields source))%nat
  /\ (fields source = [] \/ fields target = [] -> out = []).
Proof.
  intros out. subst out. simpl.
  pose proof (GenerateFacts.generate_loop_sources_NoDup source (fields target))
    as Hnd.
  assert (Hlt : (length (fst (generate_loop source (fields target)))
                 <= length (fields target))%nat).
  { destruct (GenerateFacts.scan_target_loop_extends source (fields target)
                ([], ∅)) as (rest & E & S).
    fold (generate_loop source (fields target)) in E. rewrite E. simpl.
    apply sublist_length in S. rewrite !length_fmap in S. exact S. }
  assert (Hls : (length (fst (generate_loop source (fields target)))
                 <= length (fields source))%nat).
  { rewrite <- (length_fmap source_field), <- (length_fmap name (fields source)).
    apply submseteq_length, NoDup_submseteq; [exact Hnd|].
    intros x Hx. apply list_elem_of_fmap in Hx as (m & -> & Hm).
    destruct (GenerateMore.generate_loop_elements _ _ m Hm)
      as (f & t & Hf & _ & -> & _).
    rewrite GenerateFacts.build_mapping_source.
    apply list_elem_of_fmap_2, Hf. }
  split; [exact Hnd|]. split;
    [apply GenerateFacts.generate_loop_targets_NoDup|].
  split; [exact Hlt|]. split; [exact Hls|].
  intros [H|H]; apply nil_length_inv.
  - rewrite H in Hls. simpl in Hls. lia.
  - rewrite H. reflexivity.
Qed.

(** a target schema with two distinct names; a source schema without fields *)
Lemma generate_mappings_distinct_witness :
  let id := mkField "id" "BIGINT" false None in
  let email := mkField "email" "TEXT" true None in
  let source := mkSchema "src_v1" "src" 1 [] 0 None in
  let target := mkSchema "tgt_v1" "tgt" 1 [id; email] 0 None in
  let self := mkSchemaMappingAgent "mapper" ∅ [] in
  NoDup (target_field <$> fst (generate_mappings source target self))
  /\ fst (generate_mappings source target self) = [].
Proof.
  intros id email source target self.
  pose proof (generate_mappings_distinct source target self) as H.
  split.
  - apply H. apply (bool_decide_unpack _). vm_compute. exact I.
  - apply H. left. reflexivity.
Defined.

(** X12.  [generate_mappings] and [update_mappings] publish one message
    each, on mapping.events, whose mapping count is the length of the list
    returned; they store that list under the key of the pair and leave
    every other entry of the mapping cache as it was, so that no entry is
    ever removed. *)
Theorem mapping_cache_and_events (cs : list SchemaChange)
    (source target : Schema) (self : SchemaMappingAgent) :
  let g := generate_mappings source target self in
  let u := update_mappings cs source target self in
  (exists mappings,
     message_bus (snd g)
     = message_bus self
       ++ [("mapping.events",
            mkMessage "schema.mapping.generated"
              (MappingGenerated (schema_id source) (schema_id target)
                 (Z.of_nat (length (fst g))) mappings)
              (agent_id self))])
  /\ (exists changes,
        message_bus (snd u)
        = message_bus self
          ++ [("mapping.events",
               mkMessage "schema.mapping.updated"
                 (MappingUpdated (schema_id source) (schema_id target)
                    (Z.of_nat (length cs)) (Z.of_nat (length (fst u))) changes)
                 (agent_id self))])
  /\ _mapping_cache (snd g) !! cache_key source target = Some (fst g)
  /\ _mapping_cache (snd u) !! cache_key source target = Some (fst u)
  /\ (forall k, k <> cache_key source target ->
        _mapping_cache (snd g) !! k = _mapping_cache self !! k
        /\ _mapping_cache (snd u) !! k = _mapping_cache self !! k)
  /\ (forall k, is_Some (_mapping_cache self !! k) ->
        is_Some (_mapping_cache (snd g) !! k)
        /\ is_Some (_mapping_cache (snd u) !! k)).
Proof.
  intros g u. subst g u. unfold generate_mappings, update_mappings. simpl.
  split; [eexists; reflexivity|]. split; [eexists; reflexivity|].
  split; [apply lookup_insert_eq|]. split; [apply lookup_insert_eq|].
  split.
  - intros k Hk. rewrite !lookup_insert_ne by auto. auto.
  - intros k Hk. rewrite !lookup_insert.
    destruct (decide (cache_key source target = k)); eauto.
Qed.

(** a mapping set cached for another pair survives both calls *)
Lemma mapping_cache_and_events_witness :
  let source := mkSchema "src_v1" "src" 1 [] 0 None in
  let target := mkSchema "tgt_v1" "tgt" 1 [] 0 None in
  let other := [mkFieldMapping "a" "b" None 1 DIRECT] in
  let self := mkSchemaMappingAgent "mapper" (<["p_q" := other]> ∅) [] in
  _mapping_cache (snd (generate_mappings source target self)) !! "p_q"
  = _mapping_cache self !! "p_q"
  /\ is_Some (_mapping_cache (snd (update_mappings [] source target self))
                !! "p_q").
Proof.
  intros source target other self.
  pose proof (mapping_cache_and_events [] source target self)
    as (_ & _ & _ & _ & Hframe & Hkeep).
  split.
  - apply (Hframe "p_q"). discriminate.
  - apply (Hkeep "p_q"). exists other. reflexivity.
Defined.

(** ** What an incremental update keeps *)

Module UpdateMore.
Import PyDict PyDictFacts.

Lemma get_set_eq {V} k (v : V) d : get k (set k v d) = Some v.
Proof.
  induction d as [|[k0 v0] d IH]; simpl.
  - rewrite String.eqb_refl. reflexivity.
  - destruct (String.eqb k0 k) eqn:E; simpl; rewrite E; [reflexivity | exact IH].
Qed.

Lemma get_set_ne {V} k k' (v : V) d : k <> k' -> get k' (set k v d) = get k' d.
Proof.
  intros Hne. induction d as [|[k0 v0] d IH]; simpl.
  - apply String.eqb_neq in Hne. rewrite Hne. reflexivity.
  - destruct (String.eqb k0 k) eqn:E; simpl.
    + apply String.eqb_eq in E. subst k0.
      apply String.eqb_neq in Hne. rewrite Hne. reflexivity.
    + rewrite IH. reflexivity.
Qed.

Lemma set_fresh {V} k (v : V) d : k ∉ keys d -> set k v d = d ++ [(k, v)].
Proof.
  unfold keys. induction d as [|[k0 v0] d IH]; simpl; intros H; [reflexivity|].
  apply not_elem_of_cons in H as [Hne H].
  destruct (String.eqb k0 k) eqn:E.
  - apply String.eqb_eq in E. congruence.
  - rewrite IH by exact H. reflexivity.
Qed.

Lemma keys_set_present {V} k (v : V) d : k ∈ keys d -> keys (set k v d) = keys d.
Proof.
  intros H. rewrite keys_set, bool_decide_eq_true_2 by exact H. reflexivity.
Qed.

(** a list with distinct keys is the list of values of its dictionary *)
Lemma of_list_from {V} (key : V -> string) (l : list V) :
  forall d0,
    NoDup (keys d0 ++ (key <$> l)) ->
    foldl (fun d x => set (key x) x d) d0 l
    = d0 ++ ((fun x => (key x, x)) <$> l).
Proof.
  induction l as [|x l IH]; intros d0 Hnd; simpl.
  - rewrite app_nil_r. reflexivity.
  - simpl in Hnd. apply NoDup_app in Hnd as (Hd0 & Hdisj & Hl).
    apply NoDup_cons in Hl as [Hx Hl].
    rewrite set_fresh
      by (intros Hin; apply (Hdisj _ Hin), list_elem_of_here).
    rewrite IH.
    + rewrite <- app_assoc. reflexivity.
    + unfold keys. rewrite fmap_app. simpl. rewrite <- app_assoc. simpl.
      apply NoDup_app. split; [exact Hd0|]. split.
      * intros y Hy Hy'. apply (Hdisj y Hy). exact Hy'.
      * apply NoDup_cons. split; assumption.
Qed.

Lemma values_of_list {V} (key : V -> string) (l : list V) :
  NoDup (key <$> l) -> values (of_list key l) = l.
Proof.
  intros H. unfold of_list. rewrite of_list_from by exact H.
  unfold values. simpl. rewrite <- list_fmap_compose.
  apply list_fmap_id.
Qed.

Lemma foldl_passed_over source target existing cs :
  Forall (passed_over source) cs ->
  forall d, foldl (apply_change source target existing) d cs = d.
Proof.
  induction 1 as [|c cs Hc _ IH]; intros d; simpl; [reflexivity|].
  rewrite UpdateFacts.apply_change_passed_over by exact Hc. apply IH.
Qed.

(** a change leaves alone the entries keyed by other names *)
Lemma apply_change_other source target existing d c k :
  NoDup (keys d) -> k <> field_name c ->
  get k (apply_change source target existing d c) = get k d.
Proof.
  intros Hnd Hk. unfold apply_change.
  destruct (String.eqb (change_type c) "added").
  { destruct (find_field (field_name c) (fields source)) as [nf|] eqn:Ef;
      [|reflexivity].
    destruct (UpdateFacts.find_field_Some _ _ _ Ef) as [Hname _].
    destruct (UpdateFacts.scan_added_cases nf existing (fields target) d)
      as [->|(t & _ & _ & ->)]; [reflexivity|].
    apply get_set_ne. congruence. }
  destruct (String.eqb (change_type c) "removed").
  { destruct (get (field_name c) d); [|reflexivity].
    rewrite get_del by exact Hnd.
    destruct (String.eqb (field_name c) k) eqn:E; [|reflexivity].
    apply String.eqb_eq in E. congruence. }
  destruct (String.eqb (change_type c) "type_changed"); [|reflexivity].
  destruct (get (field_name c) d) as [old|]; [|reflexivity].
  destruct (find_field (field_name c) (fields source)); [|reflexivity].
  destruct (find_field (target_field old) (fields target)); [|reflexivity].
  apply get_set_ne. auto.
Qed.

Lemma foldl_other source target existing cs k :
  (forall c, c ∈ cs -> field_name c <> k) ->
  forall d, NoDup (keys d) ->
    get k (foldl (apply_change source target existing) d cs) = get k d.
Proof.
  induction cs as [|c cs IH]; intros Hcs d Hnd; simpl; [reflexivity|].
  rewrite IH.
  - apply apply_change_other; [exact Hnd|].
    intros ->. apply (Hcs c); [apply list_elem_of_here | reflexivity].
  - intros c' Hc'. apply Hcs, list_elem_of_further, Hc'.
  - apply UpdateFacts.apply_change_NoDup, Hnd.
Qed.

(** the scan of the added branch is first-fit over the target fields that
    no cached mapping uses *)
Lemma scan_added_first_fit new_field existing ts d :
  (exists l1 t l2,
     ts = l1 ++ t :: l2
     /\ str_in (name t) (mapped_targets existing) = false
     /\ (5 # 10 < pair_confidence new_field t)%Q
     /\ (forall t', t' ∈ l1 ->
           str_in (name t') (mapped_targets existing) = false ->
           (pair_confidence new_field t' <= 5 # 10)%Q)
     /\ scan_added new_field existing ts d
        = set (name new_field)
            (build_mapping new_field t (pair_confidence new_field t)) d)
  \/ ((forall t', t' ∈ ts ->
         str_in (name t') (mapped_targets existing) = false ->
         (pair_confidence new_field t' <= 5 # 10)%Q)
      /\ scan_added new_field existing ts d = d).
Proof.
  induction ts as [|t ts IH]; simpl.
  - right. split; [|reflexivity]. intros t' Ht'.
    apply elem_of_nil in Ht'. contradiction.
  - destruct (str_in (name t) (mapped_targets existing)) eqn:Eu; simpl.
    + destruct IH as [(l1 & t0 & l2 & -> & Hu & Hc & Hl1 & Hr)|[Hall Hr]].
      * left. exists (t :: l1), t0, l2. repeat split; auto.
        intros t' Ht' Hu'. apply elem_of_cons in Ht' as [->|Ht']; [congruence|].
        auto.
      * right. split; [|exact Hr].
        intros t' Ht' Hu'. apply elem_of_cons in Ht' as [->|Ht']; [congruence|].
        auto.
    + destruct (PyNum.Qltb (5 # 10) (pair_confidence new_field t)) eqn:L.
      * left. apply PyNumFacts.Qltb_lt in L. exists [], t, ts.
        repeat split; auto.
        intros t' Ht'. apply elem_of_nil in Ht'. contradiction.
      * apply PyNumFacts.Qltb_ge in L.
        destruct IH as [(l1 & t0 & l2 & -> & Hu & Hc & Hl1 & Hr)|[Hall Hr]].
        -- left. exists (t :: l1), t0, l2. repeat split; auto.
           intros t' Ht' Hu'.
           apply elem_of_cons in Ht' as [->|Ht']; [exact L | auto].
        -- right. split; [|exact Hr].
           intros t' Ht' Hu'.
           apply elem_of_cons in Ht' as [->|Ht']; [exact L | auto].
Qed.

End UpdateMore.

(** ** The cached list and the mapping dictionary *)

Module UpdateAnchor.
Import PyDict PyDictFacts.

Lemma filter_all {A} (P : A -> Prop) `{forall x, Decision (P x)} (l : list A) :
  (forall x, x ∈ l -> P x) -> filter P l = l.
Proof.
  induction l as [|x l IH]; intros Hall; [reflexivity|].
  rewrite filter_cons_True by apply Hall, list_elem_of_here.
  f_equal. apply IH. intros y Hy. apply Hall, list_elem_of_further, Hy.
Qed.

(** deleting a key from the dictionary of a list with distinct keys drops
    the element with that key and keeps the others in place *)
Lemma del_of_pairs {V} (key : V -> string) (k : string) (l : list V) :
  NoDup (key <$> l) ->
  del k ((fun x => (key x, x)) <$> l)
  = (fun x => (key x, x)) <$> filter (fun x => key x <> k) l.
Proof.
  induction l as [|x l IH]; intros Hnd; simpl; [reflexivity|].
  simpl in Hnd. apply NoDup_cons in Hnd as [Hx Hl].
  destruct (String.eqb (key x) k) eqn:E.
  - apply String.eqb_eq in E.
    rewrite filter_cons_False by (intros H; apply H, E).
    rewrite filter_all; [reflexivity|].
    intros y Hy Hk. apply Hx. rewrite E, <- Hk.
    apply list_elem_of_fmap. exists y. auto.
  - apply String.eqb_neq in E.
    rewrite filter_cons_True by exact E. simpl.
    f_equal. apply IH, Hl.
Qed.

Lemma of_list_pairs {V} (key : V -> string) (l : list V) :
  NoDup (key <$> l) -> of_list key l = (fun x => (key x, x)) <$> l.
Proof.
  intros H. unfold of_list. rewrite UpdateMore.of_list_from by exact H.
  reflexivity.
Qed.

Lemma values_pairs {V} (key : V -> string) (l : list V) :
  values ((fun x => (key x, x)) <$> l) = l.
Proof.
  unfold values. rewrite <- list_fmap_compose. apply list_fmap_id.
Qed.

End UpdateAnchor.

(** C8.  [update_mappings] starts its loop from the dictionary of the
    cached list and returns the values of the dictionary the loop ends
    with.  Within a batch, after the changes [cs] have been processed: a
    removed change deletes the entry keyed by its field name, so that no
    entry is keyed by that name afterwards, every other entry is kept, and
    nothing changes when there was no such entry; an added or type_changed
    change whose field the supplied schema lacks, and any modified change,
    leaves the mapping dictionary as it is, and the changes after it are
    processed as if it were not in the batch.  On a cached list that maps
    each source field once, a single removed change returns the cached
    list without the mapping of that field, and a batch made only of
    changes that are passed over returns the cached list itself. *)
Theorem update_mappings_change_handling (source target : Schema)
    (self : SchemaMappingAgent) (cs rest : list SchemaChange) (c : SchemaChange) :
  let existing := default [] (_mapping_cache self !! cache_key source target) in
  let before := update_loop source target existing cs in
  let after := update_loop source target existing (cs ++ [c]) in
  update_loop source target existing [] = PyDict.of_list source_field existing
  /\ fst (update_mappings cs source target self) = PyDict.values before
  /\ (change_type c = "removed" ->
      after = PyDict.del (field_name c) before
      /\ PyDict.get (field_name c) after = None
      /\ (forall k, k <> field_name c -> PyDict.get k after = PyDict.get k before)
      /\ (PyDict.get (field_name c) before = None -> after = before)
      /\ (NoDup (source_field <$> existing) ->
          fst (update_mappings [c] source target self)
          = filter (fun m => source_field m <> field_name c) existing))
  /\ (passed_over source c ->
      after = before
      /\ fst (update_mappings (cs ++ c :: rest) source target self)
         = fst (update_mappings (cs ++ rest) source target self))
  /\ (NoDup (source_field <$> existing) ->
      Forall (passed_over source) cs ->
      before = PyDict.of_list source_field existing
      /\ fst (update_mappings cs source target self) = existing).
Proof.
  intros existing before after. subst after.
  rewrite UpdateFacts.update_loop_snoc. fold before.
  pose proof (UpdateFacts.update_loop_NoDup source target existing cs) as Hnd.
  fold before in Hnd.
  split; [reflexivity|]. split; [reflexivity|]. split; [|split].
  - intros Hr. rewrite UpdateFacts.apply_change_removed by exact Hr.
    split; [reflexivity|]. split; [|split; [|split]].
    + rewrite PyDictFacts.get_del by exact Hnd.
      rewrite String.eqb_refl. reflexivity.
    + intros k Hk. rewrite PyDictFacts.get_del by exact Hnd.
      destruct (String.eqb (field_name c) k) eqn:E; [|reflexivity].
      apply String.eqb_eq in E. congruence.
    + apply PyDictFacts.del_absent.
    + intros Hex. unfold update_mappings. simpl. fold existing.
      unfold update_loop. simpl.
      rewrite UpdateFacts.apply_change_removed by exact Hr.
      rewrite UpdateAnchor.of_list_pairs by exact Hex.
      rewrite UpdateAnchor.del_of_pairs by exact Hex.
      apply UpdateAnchor.values_pairs.
  - intros Hp.
    pose proof (UpdateFacts.apply_change_passed_over source target existing
                  before c Hp) as Hskip.
    split; [exact Hskip|].
    unfold update_mappings. simpl. fold existing.
    rewrite (UpdateFacts.update_loop_skip source target existing cs c rest Hskip).
    reflexivity.
  - intros Hex Hp.
    assert (Hb : before = PyDict.of_list source_field existing).
    { subst before. unfold update_loop.
      apply UpdateMore.foldl_passed_over, Hp. }
    split; [exact Hb|].
    unfold update_mappings. simpl. fold existing. fold before. rewrite Hb.
    apply UpdateMore.values_of_list, Hex.
Qed.

(** two cached mappings; the removal of age, a modified change on name and
    an added change for a field the supplied schema lacks *)
Lemma update_mappings_change_handling_witness :
  let name_f := mkField "name" "TEXT" true None in
  let age := mkField "age" "INTEGER" true None in
  let source := mkSchema "src_v2" "src" 2 [name_f] 0 None in
  let target := mkSchema "tgt_v1" "tgt" 1 [age; name_f] 0 None in
  let cached :=
    [ mkFieldMapping "age" "age" None 1 DIRECT;
      mkFieldMapping "name" "name" None 1 DIRECT ] in
  let self :=
    mkSchemaMappingAgent "mapper" (<[cache_key source target := cached]> ∅) [] in
  let removed := mkSchemaChange "src" "removed" "age" (Some "INTEGER") None in
  let modified :=
    mkSchemaChange "src" "modified" "name" (Some "nullable=False")
      (Some "nullable=True") in
  let added := mkSchemaChange "src" "added" "phone" None (Some "VARCHAR") in
  fst (update_mappings [removed] source target self)
  = [mkFieldMapping "name" "name" None 1 DIRECT]
  /\ fst (update_mappings [modified; added] source target self) = cached
  /\ fst (update_mappings ([modified] ++ added :: [removed]) source target self)
     = fst (update_mappings ([modified] ++ [removed]) source target self).
Proof.
  intros name_f age source target cached self removed modified added.
  assert (Hnd : NoDup (source_field <$> cached))
    by (apply (bool_decide_unpack _); vm_compute; exact I).
  split; [|split].
  - apply (proj1 (proj2 (proj2 (update_mappings_change_handling source target
                                  self [] [] removed)))); [reflexivity|].
    exact Hnd.
  - apply (proj2 (proj2 (proj2 (proj2 (update_mappings_change_handling source
                                         target self [modified; added] []
                                         removed))))).
    + exact Hnd.
    + apply Forall_cons. split; [right; reflexivity|].
      apply Forall_cons. split; [|apply Forall_nil_2].
      left. split; [left; reflexivity | reflexivity].
  - apply (proj1 (proj2 (proj2 (proj2 (update_mappings_change_handling source
                                         target self [modified] [removed]
                                         added))))).
    left. split; [left; reflexivity | reflexivity].
Defined.

(** X13.  A batch made only of changes the updater passes over, the empty
    batch among them, returns the cached list as it is when no source
    field occurs twice in it; so an update without changes right after a
    generation returns the generated mappings. *)
Theorem update_mappings_nothing_to_do (cs : list SchemaChange)
    (source target : Schema) (self : SchemaMappingAgent)
    (cached : list FieldMapping) :
  (_mapping_cache self !! cache_key source target = Some cached ->
   NoDup (source_field <$> cached) ->
   Forall (passed_over source) cs ->
   fst (update_mappings cs source target self) = cached)
  /\ fst (update_mappings [] source target
            (snd (generate_mappings source target self)))
     = fst (generate_mappings source target self).
Proof.
  assert (Hgen : forall self' l,
            _mapping_cache self' !! cache_key source target = Some l ->
            NoDup (source_field <$> l) ->
            Forall (passed_over source) cs ->
            fst (update_mappings cs source target self') = l).
  { intros self' l Hc Hnd Hp. unfold update_mappings. simpl. rewrite Hc. simpl.
    unfold update_loop. rewrite UpdateMore.foldl_passed_over by exact Hp.
    apply UpdateMore.values_of_list, Hnd. }
  split; [apply Hgen|].
  unfold update_mappings, generate_mappings. simpl.
  rewrite lookup_insert_eq. simpl.
  apply UpdateMore.values_of_list, GenerateFacts.generate_loop_sources_NoDup.
Qed.

(** a cached mapping and a batch holding one modified change *)
Lemma update_mappings_nothing_to_do_witness :
  let age := mkField "age" "INTEGER" true None in
  let source := mkSchema "src_v2" "src" 2 [age] 0 None in
  let target := mkSchema "tgt_v1" "tgt" 1 [age] 0 None in
  let cached := [mkFieldMapping "age" "age" None 1 DIRECT] in
  let self :=
    mkSchemaMappingAgent "mapper" (<[cache_key source target := cached]> ∅) [] in
  let modified :=
    mkSchemaChange "src" "modified" "age" (Some "nullable=False")
      (Some "nullable=True") in
  fst (update_mappings [modified] source target self) = cached.
Proof.
  intros age source target cached self modified.
  apply (proj1 (update_mappings_nothing_to_do [modified] source target self
                  cached)).
  - reflexivity.
  - apply (bool_decide_unpack _). vm_compute. exact I.
  - constructor; [|constructor]. right. reflexivity.
Defined.

(** X14.  The mapping kept for a source field that no change of the batch
    names is the one the cached list gave it. *)
Theorem update_mappings_untouched_fields (cs : list SchemaChange)
    (source target : Schema) (existing : list FieldMapping) (k : string) :
  (forall c, c ∈ cs -> field_name c <> k) ->
  PyDict.get k (update_loop source target existing cs)
  = PyDict.get k (PyDict.of_list source_field existing).
Proof.
  intros H. unfold update_loop.
  apply UpdateMore.foldl_other; [exact H|].
  apply PyDictFacts.NoDup_keys_of_list.
Qed.

(** the mapping of name survives the removal of age *)
Lemma update_mappings_untouched_fields_witness :
  let source := mkSchema "src_v2" "src" 2 [] 0 None in
  let target := mkSchema "tgt_v1" "tgt" 1 [] 0 None in
  let cached :=
    [ mkFieldMapping "age" "age" None 1 DIRECT;
      mkFieldMapping "name" "name" None 1 DIRECT ] in
  let removed := mkSchemaChange "src" "removed" "age" (Some "INTEGER") None in
  PyDict.get "name" (update_loop source target cached [removed])
  = PyDict.get "name" (PyDict.of_list source_field cached).
Proof.
  intros source target cached removed.
  apply (update_mappings_untouched_fields [removed] source target cached "name").
  intros c Hc. apply list_elem_of_singleton in Hc. subst c. discriminate.
Defined.

(** X15.  A type_changed change never adds, removes or reorders keys of
    the mapping dictionary and leaves the entries of other fields alone;
    when the field has a mapping and both it and the mapped target are in
    the schemas, the entry becomes the mapping recomputed against the same
    target field. *)
Theorem type_changed_in_place (source target : Schema)
    (existing : list FieldMapping) (d : PyDict.pydict FieldMapping)
    (c : SchemaChange) :
  change_type c = "type_changed" ->
  NoDup (PyDict.keys d) ->
  let d' := apply_change source target existing d c in
  PyDict.keys d' = PyDict.keys d
  /\ (forall k, k <> field_name c -> PyDict.get k d' = PyDict.get k d)
  /\ (forall old updated_field t,
        PyDict.get (field_name c) d = Some old ->
        find_field (field_name c) (fields source) = Some updated_field ->
        find_field (target_field old) (fields target) = Some t ->
        PyDict.get (field_name c) d'
        = Some (build_mapping updated_field t (pair_confidence updated_field t))
        /\ target_field (build_mapping updated_field t
                           (pair_confidence updated_field t))
           = target_field old).
Proof.
  intros Ht Hnd d'. split; [|split].
  - subst d'. unfold apply_change. rewrite Ht. simpl.
    destruct (PyDict.get (field_name c) d) as [old|] eqn:Eg; [|reflexivity].
    destruct (find_field (field_name c) (fields source)); [|reflexivity].
    destruct (find_field (target_field old) (fields target)); [|reflexivity].
    apply UpdateMore.keys_set_present.
    destruct (decide (field_name c ∈ PyDict.keys d)) as [Hin|Hout]; [exact Hin|].
    apply PyDictFacts.get_None_keys in Hout. congruence.
  - intros k Hk. apply UpdateMore.apply_change_other; assumption.
  - intros old uf t Hg Hs Htg. subst d'. unfold apply_change.
    rewrite Ht. simpl. rewrite Hg, Hs, Htg. split.
    + apply UpdateMore.get_set_eq.
    + rewrite GenerateFacts.build_mapping_target.
      apply (UpdateFacts.find_field_Some _ _ _ Htg).
Qed.

(** age turns from INTEGER to DECIMAL, as in the tests of the agent *)
Lemma type_changed_in_place_witness :
  let age := mkField "age" "DECIMAL" true None in
  let source := mkSchema "src_v2" "src" 2 [age] 0 None in
  let target := mkSchema "tgt_v1" "tgt" 1 [mkField "age" "INTEGER" true None] 0 None in
  let d := [("age", mkFieldMapping "age" "age" None 1 DIRECT)] in
  let c := mkSchemaChange "src" "type_changed" "age" (Some "INTEGER")
             (Some "DECIMAL") in
  PyDict.keys (apply_change source target [] d c) = PyDict.keys d.
Proof.
  intros age source target d c.
  apply (type_changed_in_place source target [] d c).
  - reflexivity.
  - apply (bool_decide_unpack _). vm_compute. exact I.
Defined.

(** X16.  For an added change whose field is in the supplied schema, the
    target fields are tried in declared order, skipping those a cached
    mapping uses: the first one against which the confidence of the new
    field exceeds 0.5 receives the mapping, stored under the name of the
    new field, whatever the later target fields would score; when none
    does, the mapping dictionary is left as it is. *)
Theorem added_first_fit (source target : Schema)
    (existing : list FieldMapping) (d : PyDict.pydict FieldMapping)
    (c : SchemaChange) (new_field : Field) :
  change_type c = "added" ->
  find_field (field_name c) (fields source) = Some new_field ->
  let d' := apply_change source target existing d c in
  (exists l1 t l2,
     fields target = l1 ++ t :: l2
     /\ str_in (name t) (mapped_targets existing) = false
     /\ (5 # 10 < pair_confidence new_field t)%Q
     /\ _check_type_compatibility (data_type new_field) (data_type t) = true
     /\ (forall t', t' ∈ l1 ->
           str_in (name t') (mapped_targets existing) = false ->
           (pair_confidence new_field t' <= 5 # 10)%Q)
     /\ d' = PyDict.set (field_name c)
               (build_mapping new_field t (pair_confidence new_field t)) d)
  \/ ((forall t', t' ∈ fields target ->
         str_in (name t') (mapped_targets existing) = false ->
         (pair_confidence new_field t' <= 5 # 10)%Q)
      /\ d' = d).
Proof.
  intros Ht Hf d'. subst d'. unfold apply_change. rewrite Ht. simpl.
  rewrite Hf.
  destruct (UpdateFacts.find_field_Some _ _ _ Hf) as [Hname _].
  destruct (UpdateMore.scan_added_first_fit new_field existing (fields target) d)
    as [(l1 & t & l2 & E & Hu & Hc & Hl1 & Hr)|[Hall Hr]].
  - left. exists l1, t, l2. rewrite <- Hname. repeat split; auto.
    destruct (_check_type_compatibility _ _) eqn:Ec; [reflexivity|].
    apply ScoreFacts.pair_confidence_incompatible in Ec. lra.
  - right. auto.
Qed.

(** phone is added and the target schema has a phone field; and a field
    no target field resembles *)
Lemma added_first_fit_witness :
  let phone := mkField "phone" "VARCHAR(20)" true None in
  let zzz := mkField "zzz" "BLOB" true None in
  let source := mkSchema "src_v2" "src" 2 [phone; zzz] 0 None in
  let target := mkSchema "tgt_v1" "tgt" 1 [phone] 0 None in
  let added := mkSchemaChange "src" "added" "phone" None (Some "VARCHAR(20)") in
  let added' := mkSchemaChange "src" "added" "zzz" None (Some "BLOB") in
  apply_change source target [] [] added
  = [("phone", build_mapping phone phone (pair_confidence phone phone))]
  /\ apply_change source target [] [] added' = [].
Proof.
  intros phone zzz source target added added'. split.
  - destruct (added_first_fit source target [] [] added phone eq_refl eq_refl)
      as [(l1 & t & l2 & E & _ & _ & _ & _ & Hr)|[_ Hr]].
    + destruct l1 as [|x l1]; [|destruct l1; discriminate].
      injection E as <- _. exact Hr.
    + vm_compute. reflexivity.
  - destruct (added_first_fit source target [] [] added' zzz eq_refl eq_refl)
      as [(l1 & t & l2 & _ & _ & _ & _ & _ & Hr)|[_ Hr]].
    + vm_compute. reflexivity.
    + exact Hr.
Defined.

(** ** Transformations *)

Module TransformFacts.

Lemma str_in_elem x l : str_in x l = true -> x ∈ l.
Proof.
  unfold str_in. induction l as [|y l IH]; simpl; [discriminate|].
  intros H. apply orb_prop in H as [H|H].
  - apply String.eqb_eq in H. subst. apply list_elem_of_here.
  - apply list_elem_of_further, IH, H.
Qed.

(** the logic synthesized from a conversion template the agent writes *)
Lemma transformed_logic (s t : string) (c : Q) (template : string) :
  template <> ""%string ->
  generate_transformation (mkFieldMapping s t (Some template) c TRANSFORMED)
  = mkTransformationLogic
      (mkFieldMapping s t (Some template) c TRANSFORMED)
      (Some (PyText.replace "{field}" s template))
      (if PyStr.contains "CAST" (PyStr.upper template) then
         match PyText.search_as template with
         | Some target_type =>
             Some (_generate_python_conversion s (PyStr.upper target_type))
         | None => None
         end
       else None)
      ("Type conversion from " ++ s ++ " to " ++ t)%string.
Proof. destruct template; [congruence | reflexivity]. Qed.

Ltac conversion_case H :=
  apply str_in_elem in H; unfold _generate_type_conversion;
  repeat (apply elem_of_cons in H as [->|H]; [reflexivity|]);
  apply elem_of_nil in H; contradiction.

Lemma conversion_string a b :
  str_in (_normalize_type b) ["VARCHAR"; "TEXT"; "CHAR"; "STRING"] = true ->
  _generate_type_conversion a b = "CAST({field} AS VARCHAR)"%string.
Proof. intros H. conversion_case H. Qed.

Lemma conversion_integer a b :
  str_in (_normalize_type b) ["INTEGER"; "INT"; "BIGINT"; "SMALLINT"] = true ->
  _generate_type_conversion a b = "CAST({field} AS INTEGER)"%string.
Proof. intros H. conversion_case H. Qed.

Lemma conversion_numeric a b :
  str_in (_normalize_type b) ["NUMERIC"; "DECIMAL"] = true ->
  _generate_type_conversion a b = "CAST({field} AS NUMERIC)"%string.
Proof. intros H. conversion_case H. Qed.

Lemma conversion_float a b :
  str_in (_normalize_type b) ["FLOAT"; "DOUBLE"] = true ->
  _generate_type_conversion a b = "CAST({field} AS FLOAT)"%string.
Proof. intros H. conversion_case H. Qed.

Lemma conversion_temporal a b :
  str_in (_normalize_type b) ["DATE"; "TIMESTAMP"; "DATETIME"] = true ->
  _generate_type_conversion a b = "CAST({field} AS TIMESTAMP)"%string.
Proof. intros H. conversion_case H. Qed.

Lemma conversion_boolean a b :
  str_in (_normalize_type b) ["BOOLEAN"; "BOOL"] = true ->
  _generate_type_conversion a b = "CAST({field} AS BOOLEAN)"%string.
Proof. intros H. conversion_case H. Qed.

End TransformFacts.

(** X17.  The logic synthesized for a mapping the agent builds.  When the
    two types are identical the SQL is the source field name and the
    Python a plain read of it.  Otherwise the SQL is a cast of the source
    field chosen by the family of the normalized target type, and the
    Python is the coercion of that family: str for the string family, int
    for the integer family, float for the float family, bool for the
    boolean family, and a plain read, without coercion, for the numeric
    and the temporal families. *)
Theorem generate_transformation_by_family (f t : Field) (c : Q) :
  let m := build_mapping f t c in
  let T := _normalize_type (data_type t) in
  let logic := generate_transformation m in
  let result sql python :=
    sql_logic logic = Some sql /\ python_logic logic = Some python in
  logic_mapping logic = m
  /\ (_are_types_identical (data_type f) (data_type t) = true ->
      result (name f) (row_read (name f)))
  /\ (_are_types_identical (data_type f) (data_type t) = false ->
      (str_in T ["VARCHAR"; "TEXT"; "CHAR"; "STRING"] = true ->
       result ("CAST(" ++ name f ++ " AS VARCHAR)")%string
         (row_call "str" (name f)))
      /\ (str_in T ["INTEGER"; "INT"; "BIGINT"; "SMALLINT"] = true ->
          result ("CAST(" ++ name f ++ " AS INTEGER)")%string
            (row_call "int" (name f)))
      /\ (str_in T ["NUMERIC"; "DECIMAL"] = true ->
          result ("CAST(" ++ name f ++ " AS NUMERIC)")%string
            (row_read (name f)))
      /\ (str_in T ["FLOAT"; "DOUBLE"] = true ->
          result ("CAST(" ++ name f ++ " AS FLOAT)")%string
            (row_call "float" (name f)))
      /\ (str_in T ["DATE"; "TIMESTAMP"; "DATETIME"] = true ->
          result ("CAST(" ++ name f ++ " AS TIMESTAMP)")%string
            (row_read (name f)))
      /\ (str_in T ["BOOLEAN"; "BOOL"] = true ->
          result ("CAST(" ++ name f ++ " AS BOOLEAN)")%string
            (row_call "bool" (name f)))).
Proof.
  intros m T logic result. subst m logic result. unfold build_mapping.
  split; [|split].
  - destruct (negb (_are_types_identical _ _)); simpl;
      [|reflexivity].
    rewrite TransformFacts.transformed_logic; [reflexivity|].
    unfold _generate_type_conversion.
    repeat (destruct (str_in _ _); [discriminate|]). discriminate.
  - intros ->. split; reflexivity.
  - intros ->. simpl negb. cbv iota.
    split; [|split; [|split; [|split; [|split]]]]; intros Hin.
    + rewrite (TransformFacts.conversion_string _ _ Hin). split; reflexivity.
    + rewrite (TransformFacts.conversion_integer _ _ Hin). split; reflexivity.
    + rewrite (TransformFacts.conversion_numeric _ _ Hin). split; reflexivity.
    + rewrite (TransformFacts.conversion_float _ _ Hin). split; reflexivity.
    + rewrite (TransformFacts.conversion_temporal _ _ Hin). split; reflexivity.
    + rewrite (TransformFacts.conversion_boolean _ _ Hin). split; reflexivity.
Qed.

(** an integer column mapped to a text column, and one mapped to itself *)
Lemma generate_transformation_by_family_witness :
  let age := mkField "age" "INTEGER" true None in
  let label := mkField "age" "varchar(20)" true None in
  sql_logic (generate_transformation (build_mapping age label 1))
  = Some "CAST(age AS VARCHAR)"%string
  /\ python_logic (generate_transformation (build_mapping age age 1))
     = Some "row['age']"%string.
Proof.
  intros age label. split.
  - apply (proj1 (proj2 (proj2 (generate_transformation_by_family age label 1))
                    eq_refl)).
    reflexivity.
  - apply (proj1 (proj2 (generate_transformation_by_family age age 1))).
    reflexivity.
Defined.

(** X18.  [generate_transformation] returns the mapping it was given, and
    it returns no SQL logic exactly for a transformed mapping whose
    template is missing or empty; then there is no Python logic and the
    description is empty too. *)
Theorem generate_transformation_without_template (mapping : FieldMapping) :
  let logic := generate_transformation mapping in
  logic_mapping logic = mapping
  /\ (sql_logic logic = None
      <-> mapping_type mapping = TRANSFORMED
          /\ (transformation mapping = None
              \/ transformation mapping = Some ""%string))
  /\ (sql_logic logic = None ->
      python_logic logic = None /\ logic_description logic = ""%string).
Proof.
  intros logic. subst logic. unfold generate_transformation.
  destruct mapping as [s t tr c k]. simpl.
  destruct k; simpl.
  - repeat split; try discriminate; intros [? _]; discriminate.
  - destruct tr as [[|ch r]|]; simpl.
    + repeat split; auto.
    + repeat split; try discriminate.
      intros [_ [?|?]]; discriminate.
    + repeat split; auto.
  - repeat split; try discriminate; intros [? _]; discriminate.
Qed.

(** a transformed mapping whose template is missing *)
Lemma generate_transformation_without_template_witness :
  let mapping := mkFieldMapping "age" "age" None (9 # 10) TRANSFORMED in
  python_logic (generate_transformation mapping) = None
  /\ logic_description (generate_transformation mapping) = ""%string.
Proof.
  intros mapping.
  apply (proj2 (proj2 (generate_transformation_without_template mapping))).
  apply (proj1 (proj2 (generate_transformation_without_template mapping))).
  split; [reflexivity | left; reflexivity].
Defined.

(** ** More on the schema differ *)

Module DifferMore.
Import PyDict PyDictFacts.

Lemma omap_nil {A B} (g : A -> option B) (l : list A) :
  omap g l = [] <-> forall x, x ∈ l -> g x = None.
Proof.
  induction l as [|x l IH]; simpl.
  - split; [|reflexivity]. intros _ y Hy. apply elem_of_nil in Hy.
    contradiction.
  - destruct (g x) eqn:E.
    + split; [discriminate|]. intros H.
      rewrite (H x) in E by apply list_elem_of_here. discriminate.
    + rewrite IH. split.
      * intros H y Hy. apply elem_of_cons in Hy as [->|Hy]; auto.
      * intros H y Hy. apply H, list_elem_of_further, Hy.
Qed.

Lemma concat_nil {A} (ls : list (list A)) :
  concat ls = [] <-> forall l, l ∈ ls -> l = [].
Proof.
  induction ls as [|l ls IH]; simpl.
  - split; [|reflexivity]. intros _ y Hy. apply elem_of_nil in Hy.
    contradiction.
  - split.
    + intros H. apply app_eq_nil in H as [H1 H2].
      intros y Hy. apply elem_of_cons in Hy as [->|Hy]; [exact H1|].
      apply IH; assumption.
    + intros H. rewrite (H l) by apply list_elem_of_here. simpl.
      apply IH. intros y Hy. apply H, list_elem_of_further, Hy.
Qed.

Lemma get_of_elem {V} k (v : V) d :
  NoDup (keys d) -> (k, v) ∈ d <-> get k d = Some v.
Proof.
  intros H. split; [apply elem_of_get, H | apply get_elem_of].
Qed.

Lemma added_changes_nil sid od nd :
  NoDup (keys nd) ->
  added_changes sid od nd = []
  <-> forall n, get n od = None -> get n nd = None.
Proof.
  intros Hnd. unfold added_changes. rewrite omap_nil. split.
  - intros H n Ho. destruct (get n nd) as [f|] eqn:E; [|reflexivity].
    apply get_elem_of in E. specialize (H _ E). simpl in H.
    rewrite Ho in H. discriminate.
  - intros H [k f] Hin. destruct (get k od) eqn:E; [reflexivity|].
    apply (elem_of_get _ _ _ Hnd) in Hin. rewrite (H k E) in Hin.
    discriminate.
Qed.

Lemma removed_changes_nil sid od nd :
  NoDup (keys od) ->
  removed_changes sid od nd = []
  <-> forall n, get n nd = None -> get n od = None.
Proof.
  intros Hnd. unfold removed_changes. rewrite omap_nil. split.
  - intros H n Ho. destruct (get n od) as [f|] eqn:E; [|reflexivity].
    apply get_elem_of in E. specialize (H _ E). simpl in H.
    rewrite Ho in H. discriminate.
  - intros H [k f] Hin. destruct (get k nd) eqn:E; [reflexivity|].
    apply (elem_of_get _ _ _ Hnd) in Hin. rewrite (H k E) in Hin.
    discriminate.
Qed.

Lemma field_changes_nil sid nd k fo :
  field_changes sid nd (k, fo) = []
  <-> forall fn, get k nd = Some fn ->
        data_type fo = data_type fn /\ nullable fo = nullable fn.
Proof.
  unfold field_changes. destruct (get k nd) as [fn|].
  - split.
    + intros H fn' [= <-]. apply app_eq_nil in H as [H1 H2].
      destruct (String.eqb (data_type fo) (data_type fn)) eqn:E1;
        [|discriminate].
      destruct (Bool.eqb (nullable fo) (nullable fn)) eqn:E2; [|discriminate].
      apply String.eqb_eq in E1. apply Bool.eqb_prop in E2. auto.
    + intros H. destruct (H fn eq_refl) as [-> ->].
      rewrite String.eqb_refl, Bool.eqb_reflx. reflexivity.
  - split; [intros _ fn H; discriminate | reflexivity].
Qed.

Lemma modified_changes_nil sid od nd :
  NoDup (keys od) ->
  modified_changes sid od nd = []
  <-> forall n fo fn, get n od = Some fo -> get n nd = Some fn ->
        data_type fo = data_type fn /\ nullable fo = nullable fn.
Proof.
  intros Hnd. unfold modified_changes. rewrite concat_nil. split.
  - intros H n fo fn Ho Hn.
    apply (field_changes_nil sid nd n fo); [|exact Hn].
    apply H, list_elem_of_fmap. exists (n, fo).
    split; [reflexivity | apply get_elem_of, Ho].
  - intros H l Hl. apply list_elem_of_fmap in Hl as ([k fo] & -> & Hin).
    apply field_changes_nil. intros fn Hn.
    apply (H k fo fn); [apply elem_of_get; assumption | exact Hn].
Qed.

(** no change is reported exactly when the two snapshots hold the same
    names with the same types and nullability *)
Lemma diff_schemas_nil sid old new :
  diff_schemas sid old new = []
  <-> (forall n, get n (of_list name (fields old)) = None
                 <-> get n (of_list name (fields new)) = None)
      /\ (forall n fo fn,
            get n (of_list name (fields old)) = Some fo ->
            get n (of_list name (fields new)) = Some fn ->
            data_type fo = data_type fn /\ nullable fo = nullable fn).
Proof.
  unfold diff_schemas.
  set (od := of_list name (fields old)).
  set (nd := of_list name (fields new)).
  assert (Hod : NoDup (keys od)) by apply NoDup_keys_of_list.
  assert (Hnd : NoDup (keys nd)) by apply NoDup_keys_of_list.
  split.
  - intros H. apply app_eq_nil in H as [Ha H].
    apply app_eq_nil in H as [Hr Hm].
    pose proof (proj1 (added_changes_nil sid od nd Hnd) Ha) as Ha'.
    pose proof (proj1 (removed_changes_nil sid od nd Hod) Hr) as Hr'.
    pose proof (proj1 (modified_changes_nil sid od nd Hod) Hm) as Hm'.
    split; [|exact Hm']. intros n. split; auto.
  - intros [Hk Hv].
    rewrite (proj2 (added_changes_nil sid od nd Hnd)) by (intros n; apply Hk).
    rewrite (proj2 (removed_changes_nil sid od nd Hod)) by (intros n; apply Hk).
    simpl. apply modified_changes_nil; assumption.
Qed.

Lemma diff_schemas_same sid s : diff_schemas sid s s = [].
Proof.
  apply diff_schemas_nil. split; [reflexivity|].
  intros n fo fn Ho Hn. rewrite Ho in Hn. injection Hn as <-. auto.
Qed.

Lemma detect_warm sid new old self :
  _schema_cache self !! sid = Some old ->
  fst (detect_schema_changes sid new self) = diff_schemas sid old new.
Proof.
  intros H. unfold detect_schema_changes. rewrite H.
  destruct (diff_schemas sid old new); reflexivity.
Qed.

Lemma elem_of_added_changes sid od nd c :
  c ∈ added_changes sid od nd
  <-> exists n f, (n, f) ∈ nd /\ get n od = None
                  /\ c = mkSchemaChange sid "added" n None (Some (data_type f)).
Proof.
  unfold added_changes. rewrite list_elem_of_omap. split.
  - intros ([n f] & Hin & H). exists n, f. destruct (get n od); [discriminate|].
    injection H as <-. auto.
  - intros (n & f & Hin & Ho & ->). exists (n, f). split; [exact Hin|].
    simpl. rewrite Ho. reflexivity.
Qed.

Lemma elem_of_removed_changes sid od nd c :
  c ∈ removed_changes sid od nd
  <-> exists n f, (n, f) ∈ od /\ get n nd = None
                  /\ c = mkSchemaChange sid "removed" n (Some (data_type f)) None.
Proof.
  unfold removed_changes. rewrite list_elem_of_omap. split.
  - intros ([n f] & Hin & H). exists n, f. destruct (get n nd); [discriminate|].
    injection H as <-. auto.
  - intros (n & f & Hin & Ho & ->). exists (n, f). split; [exact Hin|].
    simpl. rewrite Ho. reflexivity.
Qed.

(** what one entry of the old dictionary contributes to the third loop *)
Lemma elem_of_field_changes sid nd k fo c :
  c ∈ field_changes sid nd (k, fo)
  <-> exists fn,
        get k nd = Some fn
        /\ ((data_type fo <> data_type fn
             /\ c = mkSchemaChange sid "type_changed" k (Some (data_type fo))
                      (Some (data_type fn)))
            \/ (nullable fo <> nullable fn
                /\ c = mkSchemaChange sid "modified" k
                         (Some (nullable_repr (nullable fo)))
                         (Some (nullable_repr (nullable fn))))).
Proof.
  unfold field_changes. destruct (get k nd) as [fn|].
  - rewrite elem_of_app. split.
    + intros [H|H]; exists fn; (split; [reflexivity|]).
      * destruct (String.eqb (data_type fo) (data_type fn)) eqn:E; simpl in H;
          [apply elem_of_nil in H; contradiction|].
        apply list_elem_of_singleton in H. apply String.eqb_neq in E. auto.
      * destruct (Bool.eqb (nullable fo) (nullable fn)) eqn:E; simpl in H;
          [apply elem_of_nil in H; contradiction|].
        apply list_elem_of_singleton in H. right. split; [|exact H].
        intros Heq. rewrite Heq, Bool.eqb_reflx in E. discriminate.
    + intros (fn' & [= <-] & [[Hne ->]|[Hne ->]]).
      * left. apply String.eqb_neq in Hne. rewrite Hne. simpl.
        apply list_elem_of_here.
      * right. destruct (Bool.eqb (nullable fo) (nullable fn)) eqn:E.
        -- apply Bool.eqb_prop in E. contradiction.
        -- simpl. apply list_elem_of_here.
  - split; [intros H; apply elem_of_nil in H; contradiction|].
    intros (fn & H & _). discriminate.
Qed.

End DifferMore.

(** X19.  Against a cached snapshot the differ reports no change exactly
    when the new snapshot holds the same field names as the cached one,
    each with the same data type, as written, and the same nullability;
    the order of the fields and their descriptions play no part. *)
Theorem detect_schema_changes_empty_iff (source_id : string)
    (new_schema old_schema : Schema) (self : DataDiscoveryAgent) :
  _schema_cache self !! source_id = Some old_schema ->
  let old_fields := PyDict.of_list name (fields old_schema) in
  let new_fields := PyDict.of_list name (fields new_schema) in
  fst (detect_schema_changes source_id new_schema self) = []
  <-> (forall n, PyDict.get n old_fields = None
                 <-> PyDict.get n new_fields = None)
      /\ (forall n fo fn,
            PyDict.get n old_fields = Some fo ->
            PyDict.get n new_fields = Some fn ->
            data_type fo = data_type fn /\ nullable fo = nullable fn).
Proof.
  intros H old_fields new_fields.
  rewrite (DifferMore.detect_warm _ _ _ _ H).
  apply DifferMore.diff_schemas_nil.
Qed.

(** the same two fields in the other order, one with a description *)
Lemma detect_schema_changes_empty_iff_witness :
  let id := mkField "id" "INTEGER" false None in
  let email := mkField "email" "VARCHAR" true None in
  let email' := mkField "email" "VARCHAR" true (Some "contact") in
  let cached := mkSchema "s1" "src" 1 [id; email] 0 None in
  let observed := mkSchema "s2" "src" 2 [email'; id] 5 None in
  let self := mkDataDiscoveryAgent "discovery" (<["src" := cached]> ∅) in
  fst (detect_schema_changes "src" observed self) = [].
Proof.
  intros id email email' cached observed self.
  apply (detect_schema_changes_empty_iff "src" observed cached self eq_refl).
  change (PyDict.of_list name (fields cached))
    with [("id"%string, id); ("email"%string, email)].
  change (PyDict.of_list name (fields observed))
    with [("email"%string, email'); ("id"%string, id)].
  cbn [PyDict.get].
  split.
  - intros n.
    destruct (String.eqb "id" n), (String.eqb "email" n); split;
      intros; try discriminate; reflexivity.
  - intros n fo fn.
    destruct (String.eqb "id" n) eqn:E1.
    + apply String.eqb_eq in E1. subst n. simpl.
      intros [= <-] [= <-]. split; reflexivity.
    + destruct (String.eqb "email" n); [|discriminate].
      intros [= <-] [= <-]. split; reflexivity.
Defined.

(** X20.  Observing the same schema a second time reports no change and
    leaves the agent as the first observation left it, whatever the agent
    held before. *)
Theorem detect_schema_changes_settles (source_id : string) (new_schema : Schema)
    (self : DataDiscoveryAgent) :
  let self' := snd (detect_schema_changes source_id new_schema self) in
  detect_schema_changes source_id new_schema self' = ([], self').
Proof.
  intros self'.
  assert (Hs : exists old,
             _schema_cache self' !! source_id = Some old
             /\ diff_schemas source_id old new_schema = []).
  { subst self'. unfold detect_schema_changes.
    destruct (_schema_cache self !! source_id) as [old|] eqn:E.
    - destruct (diff_schemas source_id old new_schema) as [|c cs] eqn:D; simpl.
      + exists old. split; assumption.
      + exists new_schema.
        split; [apply lookup_insert_eq | apply DifferMore.diff_schemas_same].
    - simpl. exists new_schema.
      split; [apply lookup_insert_eq | apply DifferMore.diff_schemas_same]. }
  destruct Hs as (old & Hc & Hd).
  unfold detect_schema_changes. rewrite Hc, Hd. reflexivity.
Qed.

(** X21.  Against a cached snapshot, an added change for a name with a
    given type is reported exactly when the new snapshot holds the name
    with that type and the cached one does not hold the name, and a
    removed change exactly the other way round. *)
Theorem added_and_removed_changes (source_id : string)
    (new_schema old_schema : Schema) (self : DataDiscoveryAgent)
    (n ty : string) :
  _schema_cache self !! source_id = Some old_schema ->
  let old_fields := PyDict.of_list name (fields old_schema) in
  let new_fields := PyDict.of_list name (fields new_schema) in
  let changes := fst (detect_schema_changes source_id new_schema self) in
  (mkSchemaChange source_id "added" n None (Some ty) ∈ changes
   <-> PyDict.get n old_fields = None
       /\ exists f, PyDict.get n new_fields = Some f /\ data_type f = ty)
  /\ (mkSchemaChange source_id "removed" n (Some ty) None ∈ changes
      <-> PyDict.get n new_fields = None
          /\ exists f, PyDict.get n old_fields = Some f /\ data_type f = ty).
Proof.
  intros H old_fields new_fields changes. subst changes.
  rewrite (DifferMore.detect_warm _ _ _ _ H). unfold diff_schemas.
  fold old_fields new_fields.
  assert (Hod : NoDup (PyDict.keys old_fields))
    by apply PyDictFacts.NoDup_keys_of_list.
  assert (Hnd : NoDup (PyDict.keys new_fields))
    by apply PyDictFacts.NoDup_keys_of_list.
  split; split.
  - intros Hin. apply elem_of_app in Hin as [Hin|Hin].
    + apply DifferMore.elem_of_added_changes in Hin
        as (n' & f & Hf & Ho & [= -> ->]).
      split; [exact Ho|]. exists f. split; [|reflexivity].
      apply PyDictFacts.elem_of_get; assumption.
    + exfalso. apply elem_of_app in Hin as [Hin|Hin].
      * apply DifferFacts.removed_changes_type in Hin. discriminate.
      * apply DifferFacts.elem_of_modified_changes in Hin as ([k fo] & _ & Hin).
        apply DifferMore.elem_of_field_changes in Hin
          as (fn & _ & [[_ Hc]|[_ Hc]]); discriminate.
  - intros (Ho & f & Hf & <-). apply elem_of_app. left.
    apply DifferMore.elem_of_added_changes. exists n, f.
    split; [apply PyDictFacts.get_elem_of, Hf | auto].
  - intros Hin. apply elem_of_app in Hin as [Hin|Hin].
    { apply DifferFacts.added_changes_type in Hin. discriminate. }
    apply elem_of_app in Hin as [Hin|Hin].
    + apply DifferMore.elem_of_removed_changes in Hin
        as (n' & f & Hf & Ho & [= -> ->]).
      split; [exact Ho|]. exists f. split; [|reflexivity].
      apply PyDictFacts.elem_of_get; assumption.
    + exfalso.
      apply DifferFacts.elem_of_modified_changes in Hin as ([k fo] & _ & Hin).
      apply DifferMore.elem_of_field_changes in Hin
        as (fn & _ & [[_ Hc]|[_ Hc]]); discriminate.
  - intros (Ho & f & Hf & <-). apply elem_of_app. right.
    apply elem_of_app. left.
    apply DifferMore.elem_of_removed_changes. exists n, f.
    split; [apply PyDictFacts.get_elem_of, Hf | auto].
Qed.

(** email is added to [id], as in the tests of the agent *)
Lemma added_and_removed_changes_witness :
  let id := mkField "id" "INTEGER" false None in
  let email := mkField "email" "VARCHAR" true None in
  let cached := mkSchema "s1" "src" 1 [id] 0 None in
  let observed := mkSchema "s2" "src" 2 [id; email] 0 None in
  let self := mkDataDiscoveryAgent "discovery" (<["src" := cached]> ∅) in
  mkSchemaChange "src" "added" "email" None (Some "VARCHAR")
  ∈ fst (detect_schema_changes "src" observed self).
Proof.
  intros id email cached observed self.
  apply (proj1 (added_and_removed_changes "src" observed cached self "email"
                  "VARCHAR" eq_refl)).
  split; [reflexivity|]. exists email. split; reflexivity.
Defined.

(** X22.  For a field name present in both snapshots, a modified change
    is reported exactly when the two nullability flags differ, and it
    carries the two flags as the strings nullable=True and nullable=False;
    it is reported whether or not a type_changed change is reported for
    the same name. *)
Theorem modified_on_nullability (source_id : string)
    (new_schema old_schema : Schema) (self : DataDiscoveryAgent)
    (n : string) (old_field new_field : Field) :
  _schema_cache self !! source_id = Some old_schema ->
  PyDict.get n (PyDict.of_list name (fields old_schema)) = Some old_field ->
  PyDict.get n (PyDict.of_list name (fields new_schema)) = Some new_field ->
  let changes := fst (detect_schema_changes source_id new_schema self) in
  let change :=
    mkSchemaChange source_id "modified" n
      (Some (nullable_repr (nullable old_field)))
      (Some (nullable_repr (nullable new_field))) in
  (change ∈ changes <-> nullable old_field <> nullable new_field)
  /\ (forall c, c ∈ changes -> change_type c = "modified" ->
                field_name c = n -> c = change).
Proof.
  intros Hcache Hold Hnew changes change. subst changes.
  rewrite (DifferMore.detect_warm _ _ _ _ Hcache). unfold diff_schemas.
  set (old_fields := PyDict.of_list name (fields old_schema)) in *.
  set (new_fields := PyDict.of_list name (fields new_schema)) in *.
  assert (Hinv : forall c,
            c ∈ added_changes source_id old_fields new_fields
                ++ removed_changes source_id old_fields new_fields
                ++ modified_changes source_id old_fields new_fields ->
            change_type c = "modified" -> field_name c = n ->
            c = change /\ nullable old_field <> nullable new_field).
  { intros c Hc Ht Hn.
    apply elem_of_app in Hc as [Hc|Hc].
    { apply DifferFacts.added_changes_type in Hc. congruence. }
    apply elem_of_app in Hc as [Hc|Hc].
    { apply DifferFacts.removed_changes_type in Hc. congruence. }
    apply DifferFacts.elem_of_modified_changes in Hc as ([k fo] & Hk & Hc).
    apply DifferMore.elem_of_field_changes in Hc
      as (fn & Hfn & [[_ ->]|[Hne ->]]); [discriminate|].
    simpl in Hn. subst k.
    assert (fo = old_field).
    { apply (PyDictFacts.elem_of_get n fo old_fields) in Hk.
      - congruence.
      - apply PyDictFacts.NoDup_keys_of_list. }
    assert (fn = new_field) by congruence.
    subst. auto. }
  split; [split|].
  - intros Hin. apply (Hinv change Hin); reflexivity.
  - intros Hne. apply elem_of_app. right. apply elem_of_app. right.
    apply DifferFacts.elem_of_modified_changes.
    exists (n, old_field). split; [apply PyDictFacts.get_elem_of, Hold|].
    apply DifferMore.elem_of_field_changes. exists new_field.
    split; [exact Hnew|]. right. auto.
  - intros c Hc Ht Hn. apply (Hinv c Hc Ht Hn).
Qed.

(** email becomes non-nullable, as in the tests of the agent *)
Lemma modified_on_nullability_witness :
  let cached :=
    mkSchema "s1" "src" 1 [mkField "email" "VARCHAR" true None] 0 None in
  let observed :=
    mkSchema "s2" "src" 2 [mkField "email" "VARCHAR" false None] 0 None in
  let self := mkDataDiscoveryAgent "discovery" (<["src" := cached]> ∅) in
  mkSchemaChange "src" "modified" "email" (Some "nullable=True")
    (Some "nullable=False")
  ∈ fst (detect_schema_changes "src" observed self).
Proof.
  intros cached observed self.
  apply (modified_on_nullability "src" observed cached self "email"
           (mkField "email" "VARCHAR" true None)
           (mkField "email" "VARCHAR" false None)).
  - reflexivity.
  - reflexivity.
  - reflexivity.
  - discriminate.
Defined.

Module DifferOrder.
Import PyDict.

Lemma omap_keys_sublist {V B} (g : string * V -> option B) (key : B -> string)
    (d : pydict V) :
  (forall e b, g e = Some b -> key b = fst e) ->
  sublist (key <$> omap g d) (keys d).
Proof.
  intros Hg. unfold keys. induction d as [|e d IH]; simpl; [constructor|].
  destruct (g e) as [b|] eqn:E; simpl.
  - rewrite (Hg e b E). apply sublist_skip, IH.
  - apply sublist_cons, IH.
Qed.

Lemma field_changes_shape sid nd e c :
  c ∈ field_changes sid nd e ->
  change_source_id c = sid
  /\ (change_type c = "type_changed" \/ change_type c = "modified").
Proof.
  destruct e as [k fo]. intros H.
  apply DifferMore.elem_of_field_changes in H
    as (fn & _ & [[_ ->]|[_ ->]]); auto.
Qed.

End DifferOrder.

(** X23.  Against a cached snapshot the change list is made of three
    runs: the added changes, in the order in which the new snapshot first
    names the fields, then the removed changes, in the order in which the
    cached snapshot first names them, then the type_changed and modified
    changes; every change bears the source id the differ was called with. *)
Theorem detect_schema_changes_order (source_id : string)
    (new_schema old_schema : Schema) (self : DataDiscoveryAgent) :
  _schema_cache self !! source_id = Some old_schema ->
  exists added removed rest,
    fst (detect_schema_changes source_id new_schema self)
    = added ++ removed ++ rest
    /\ Forall (fun c => change_type c = "added") added
    /\ Forall (fun c => change_type c = "removed") removed
    /\ Forall (fun c => change_type c = "type_changed"
                        \/ change_type c = "modified") rest
    /\ sublist (field_name <$> added)
         (PyDict.keys (PyDict.of_list name (fields new_schema)))
    /\ sublist (field_name <$> removed)
         (PyDict.keys (PyDict.of_list name (fields old_schema)))
    /\ Forall (fun c => change_source_id c = source_id)
         (fst (detect_schema_changes source_id new_schema self)).
Proof.
  intros H. rewrite (DifferMore.detect_warm _ _ _ _ H). unfold diff_schemas.
  set (od := PyDict.of_list name (fields old_schema)).
  set (nd := PyDict.of_list name (fields new_schema)).
  exists (added_changes source_id od nd), (removed_changes source_id od nd),
    (modified_changes source_id od nd).
  assert (Hrest : forall c, c ∈ modified_changes source_id od nd ->
            change_source_id c = source_id
            /\ (change_type c = "type_changed" \/ change_type c = "modified")).
  { intros c Hc.
    apply DifferFacts.elem_of_modified_changes in Hc as (e & _ & Hc).
    eapply DifferOrder.field_changes_shape, Hc. }
  split; [reflexivity|].
  split; [apply Forall_forall; intros c;
          apply DifferFacts.added_changes_type|].
  split; [apply Forall_forall; intros c;
          apply DifferFacts.removed_changes_type|].
  split; [apply Forall_forall; intros c Hc; apply (Hrest c Hc)|].
  split.
  { unfold added_changes. apply DifferOrder.omap_keys_sublist.
    intros [k f] b Hb. simpl in *. destruct (PyDict.get k od); [discriminate|].
    injection Hb as <-. reflexivity. }
  split.
  { unfold removed_changes. apply DifferOrder.omap_keys_sublist.
    intros [k f] b Hb. simpl in *. destruct (PyDict.get k nd); [discriminate|].
    injection Hb as <-. reflexivity. }
  apply Forall_forall. intros c Hc.
  apply elem_of_app in Hc as [Hc|Hc].
  { apply DifferMore.elem_of_added_changes in Hc as (n & f & _ & _ & ->).
    reflexivity. }
  apply elem_of_app in Hc as [Hc|Hc].
  { apply DifferMore.elem_of_removed_changes in Hc as (n & f & _ & _ & ->).
    reflexivity. }
  apply (Hrest c Hc).
Qed.

(** one field added, one removed, one changed in type and nullability *)
Lemma detect_schema_changes_order_witness :
  let cached :=
    mkSchema "s1" "src" 1
      [mkField "id" "INTEGER" false None; mkField "old" "TEXT" true None]
      0 None in
  let observed :=
    mkSchema "s2" "src" 2
      [mkField "new" "TEXT" true None; mkField "id" "BIGINT" true None]
      0 None in
  let self := mkDataDiscoveryAgent "discovery" (<["src" := cached]> ∅) in
  exists added removed rest,
    fst (detect_schema_changes "src" observed self) = added ++ removed ++ rest
    /\ Forall (fun c => change_type c = "added") added
    /\ Forall (fun c => change_type c = "removed") removed.
Proof.
  intros cached observed self.
  destruct (detect_schema_changes_order "src" observed cached self eq_refl)
    as (added & removed & rest & E & Ha & Hr & _).
  exists added, removed, rest. auto.
Defined.

(** X24.  A call of the differ keeps the agent id, leaves the snapshots
    cached for other sources as they were, removes no snapshot, and
    always leaves a snapshot cached for its own source. *)
Theorem detect_schema_changes_frame (source_id : string) (new_schema : Schema)
    (self : DataDiscoveryAgent) :
  let self' := snd (detect_schema_changes source_id new_schema self) in
  discovery_agent_id self' = discovery_agent_id self
  /\ (forall k, k <> source_id ->
        _schema_cache self' !! k = _schema_cache self !! k)
  /\ (forall k, is_Some (_schema_cache self !! k) ->
        is_Some (_schema_cache self' !! k))
  /\ is_Some (_schema_cache self' !! source_id).
Proof.
  intros self'. subst self'. unfold detect_schema_changes.
  destruct (_schema_cache self !! source_id) as [old|] eqn:E.
  - destruct (diff_schemas source_id old new_schema) as [|c cs]; simpl.
    + split; [reflexivity|]. split; [auto|]. split; [auto|].
      rewrite E. eauto.
    + split; [reflexivity|]. split; [|split].
      * intros k Hk. apply lookup_insert_ne. auto.
      * intros k Hk. rewrite lookup_insert.
        destruct (decide (source_id = k)); eauto.
      * rewrite lookup_insert_eq. eauto.
  - simpl. split; [reflexivity|]. split; [|split].
    + intros k Hk. apply lookup_insert_ne. auto.
    + intros k Hk. rewrite lookup_insert.
      destruct (decide (source_id = k)); eauto.
    + rewrite lookup_insert_eq. eauto.
Qed.

(** the snapshot of another source is kept when a source is first seen *)
Lemma detect_schema_changes_frame_witness :
  let other := mkSchema "o1" "other" 1 [] 0 None in
  let observed := mkSchema "s1" "src" 1 [] 0 None in
  let self := mkDataDiscoveryAgent "discovery" (<["other" := other]> ∅) in
  _schema_cache (snd (detect_schema_changes "src" observed self)) !! "other"
  = _schema_cache self !! "other"
  /\ is_Some (_schema_cache (snd (detect_schema_changes "src" observed self))
                !! "other").
Proof.
  intros other observed self.
  pose proof (detect_schema_changes_frame "src" observed self)
    as (_ & Hframe & Hkeep & _).
  split.
  - apply (Hframe "other"). discriminate.
  - apply (Hkeep "other"). exists other. reflexivity.
Defined.

(** X25.  [update_catalog] runs the differ on the schema of the metadata
    and publishes one data.discovery.completed message on
    discovery.events, whose payload lists the detected changes; when there
    are changes it publishes that same message once more, on
    schema.events.  The schema.changed message it builds is never
    published. *)
Theorem update_catalog_events (metadata : SourceMetadata)
    (self : DataDiscoveryAgent) (bus : list (string * DiscoveryMessage)) :
  let detected :=
    detect_schema_changes (metadata_source_id metadata) (schema metadata) self in
  let r := update_catalog metadata self bus in
  let message :=
    mkDiscoveryMessage "data.discovery.completed"
      (DiscoveryCompleted (metadata_source_id metadata)
         (version (schema metadata)) (row_count metadata) (size_bytes metadata)
         (Z.of_nat (length (fields (schema metadata))))
         ((fun c => (change_type c, field_name c, old_value c, new_value c))
            <$> fst detected))
      (discovery_agent_id self) in
  fst r = snd detected
  /\ snd r
     = bus ++ ("discovery.events", message)
           :: match fst detected with
              | [] => []
              | _ :: _ => [("schema.events", message)]
              end
  /\ (forall topic m, (topic, m) ∈ snd r ->
        discovery_event_type m = "schema.changed" -> (topic, m) ∈ bus).
Proof.
  intros detected r message. subst detected r message.
  unfold update_catalog.
  destruct (detect_schema_changes (metadata_source_id metadata)
              (schema metadata) self) as [changes self'] eqn:E.
  simpl fst. simpl snd.
  destruct changes as [|c cs]; simpl.
  - split; [reflexivity|]. split; [reflexivity|].
    intros topic m Hin Ht. apply elem_of_app in Hin as [Hin|Hin]; [exact Hin|].
    apply list_elem_of_singleton in Hin. injection Hin as _ ->. discriminate.
  - split; [reflexivity|]. split; [rewrite <- app_assoc; reflexivity|].
    intros topic m Hin Ht. apply elem_of_app in Hin as [Hin|Hin].
    + apply elem_of_app in Hin as [Hin|Hin]; [exact Hin|].
      apply list_elem_of_singleton in Hin. injection Hin as _ ->. discriminate.
    + apply list_elem_of_singleton in Hin. injection Hin as _ ->. discriminate.
Qed.

(** a catalog update that detects an added field, on a bus that already
    carries a schema.changed message of another publisher *)
Lemma update_catalog_events_witness :
  let id := mkField "id" "INTEGER" false None in
  let cached := mkSchema "s1" "src" 1 [] 0 None in
  let observed := mkSchema "s2" "src" 2 [id] 0 None in
  let self := mkDataDiscoveryAgent "discovery" (<["src" := cached]> ∅) in
  let metadata := mkSourceMetadata "src" observed (Some 100) (Some 1024) None in
  let earlier :=
    mkDiscoveryMessage "schema.changed" (SchemaChanged "other" []) "someone" in
  ("schema.events"%string, earlier) ∈ [("schema.events"%string, earlier)].
Proof.
  intros id cached observed self metadata earlier.
  apply (proj2 (proj2 (update_catalog_events metadata self
                         [("schema.events"%string, earlier)]))
           "schema.events"%string earlier).
  - vm_compute. apply list_elem_of_here.
  - reflexivity.
Defined.

(** ** The in-memory message bus *)

Module BusFacts.
Import InMemoryMessageBus.

Section Facts.
Context {Hdl Msg : Type}.

Lemma publish_default topic (message : Msg) (self : @subscribers Hdl) :
  publish topic message self
  = (fun handler => (handler, message)) <$> default [] (self !! topic).
Proof. unfold publish. destruct (self !! topic); reflexivity. Qed.

Lemma run_op_listeners topic (self : @subscribers Hdl) (o : @op Hdl) :
  default [] (run_op self o !! topic)
  = match o with
    | Subscribe t handler =>
        if String.eqb t topic
        then default [] (self !! topic) ++ [handler]
        else default [] (self !! topic)
    | Unsubscribe t =>
        if String.eqb t topic then [] else default [] (self !! topic)
    | Close => []
    end.
Proof.
  destruct o as [t handler|t|]; simpl.
  - unfold subscribe, subscribers in *. destruct (String.eqb t topic) eqn:E.
    + apply String.eqb_eq in E. subst t. rewrite lookup_insert_eq. simpl.
      destruct (self !! topic) eqn:L.
      * rewrite L. reflexivity.
      * rewrite lookup_insert_eq. reflexivity.
    + apply String.eqb_neq in E. rewrite lookup_insert_ne by exact E.
      destruct (self !! t); [reflexivity|].
      rewrite lookup_insert_ne by exact E. reflexivity.
  - unfold unsubscribe, subscribers in *.
    destruct (String.eqb t topic) eqn:E.
    + apply String.eqb_eq in E. subst t.
      destruct (self !! topic) eqn:L.
      * rewrite lookup_delete_eq. reflexivity.
      * rewrite L. reflexivity.
    + apply String.eqb_neq in E.
      destruct (self !! t); [|reflexivity].
      rewrite lookup_delete_ne by exact E. reflexivity.
  - unfold close, subscribers in *. rewrite lookup_empty. reflexivity.
Qed.

Lemma listeners_after topic (ops : list (@op Hdl)) :
  forall self : @subscribers Hdl,
    default [] (foldl run_op self ops !! topic)
    = listening topic (default [] (self !! topic)) ops.
Proof.
  induction ops as [|o ops IH]; intros self; simpl; [reflexivity|].
  rewrite IH, run_op_listeners. destruct o; reflexivity.
Qed.

End Facts.

End BusFacts.

(** X26.  After any sequence of subscribe, unsubscribe and close calls on
    a fresh in-memory bus, publishing on a topic calls, in the order of
    their subscription, exactly the handlers subscribed to that topic
    since the topic was last unsubscribed or the bus last closed; a
    handler subscribed twice is called twice, and unsubscribing a topic
    drops all its handlers. *)
Theorem in_memory_bus_delivery {Hdl Msg : Type}
    (ops : list (@InMemoryMessageBus.op Hdl)) (topic : string) (message : Msg) :
  InMemoryMessageBus.publish topic message
    (foldl InMemoryMessageBus.run_op InMemoryMessageBus.init ops)
  = (fun handler => (handler, message))
      <$> InMemoryMessageBus.listening topic [] ops.
Proof.
  rewrite BusFacts.publish_default, BusFacts.listeners_after.
  reflexivity.
Qed.

(** ** The key of the mapping cache *)

Module CacheKeyFacts.

Lemma key_injective a a' b b' :
  PyStr.has_char "_" a = false ->
  PyStr.has_char "_" a' = false ->
  (a ++ "_" ++ b)%string = (a' ++ "_" ++ b')%string ->
  a = a' /\ b = b'.
Proof.
  revert a'. induction a as [|c a IH]; intros [|c' a'] Ha Ha' E.
  - change (String "_" b = String "_" b') in E. injection E as ->. auto.
  - change (String "_" b = String c' (a' ++ "_" ++ b')%string) in E.
    injection E as <- _. discriminate.
  - change (String c (a ++ "_" ++ b)%string = String "_" b') in E.
    injection E as -> _. discriminate.
  - change (String c (a ++ "_" ++ b)%string
            = String c' (a' ++ "_" ++ b')%string) in E.
    injection E as -> E. simpl in Ha, Ha'.
    apply orb_false_elim in Ha as [_ Ha].
    apply orb_false_elim in Ha' as [_ Ha'].
    destruct (IH a' Ha Ha' E) as [-> ->]. auto.
Qed.

End CacheKeyFacts.

(** X27.  The key of the mapping cache tells pairs of schemas apart when
    the ids of the source schemas hold no underscore; without that it does
    not: the pairs (a_b, c) and (a, b_c) share the key a_b_c, so that an
    update for the second pair works on the mappings generated for the
    first. *)
Theorem cache_key_collisions :
  (forall s1 t1 s2 t2 : Schema,
     PyStr.has_char "_" (schema_id s1) = false ->
     PyStr.has_char "_" (schema_id s2) = false ->
     cache_key s1 t1 = cache_key s2 t2 ->
     schema_id s1 = schema_id s2 /\ schema_id t1 = schema_id t2)
  /\ (let f := mkField "x" "INTEGER" false None in
      let s1 := mkSchema "a_b" "src" 1 [f] 0 None in
      let t1 := mkSchema "c" "tgt" 1 [f] 0 None in
      let s2 := mkSchema "a" "src" 1 [] 0 None in
      let t2 := mkSchema "b_c" "tgt" 1 [] 0 None in
      let self := mkSchemaMappingAgent "mapper" ∅ [] in
      cache_key s1 t1 = cache_key s2 t2
      /\ fst (update_mappings [] s2 t2 (snd (generate_mappings s1 t1 self)))
         = fst (generate_mappings s1 t1 self)
      /\ fst (generate_mappings s1 t1 self) <> []).
Proof.
  split.
  - intros s1 t1 s2 t2 H1 H2 E. unfold cache_key in E.
    apply (CacheKeyFacts.key_injective _ _ _ _ H1 H2 E).
  - intros f s1 t1 s2 t2 self.
    split; [reflexivity|]. split; [vm_compute; reflexivity|].
    vm_compute. discriminate.
Qed.

(** two versions of a source schema whose id has no underscore *)
Lemma cache_key_collisions_witness :
  let s1 := mkSchema "orders" "src" 1 [] 0 None in
  let s2 := mkSchema "orders" "src" 2 [mkField "id" "INTEGER" false None] 7 None in
  let t := mkSchema "warehouse_v1" "tgt" 1 [] 0 None in
  schema_id s1 = schema_id s2 /\ schema_id t = schema_id t.
Proof.
  intros s1 s2 t.
  apply (proj1 cache_key_collisions s1 t s2 t); reflexivity.
Defined.
